(** * Philomelus: the captcha solver, the fetch orchestration and the tables

    A shallow embedding of [southocr/southocr.py], [captchaservice.py],
    [dataservice.py], [utils.py], [querysupplier.py] and the row building of
    [persistenceservice.py].  Python integers are [Z], Python [str] values are
    [string], lists are [list], dictionaries are association lists or
    [gmap]s, exceptions are values of an error type and every mutable
    attribute of a service object is a field of an explicit state record. *)

From Stdlib Require Import Sorting.Sorted.
From stdpp Require Import base numbers option list strings pretty gmap.

#[local] Set Warnings "-register-all".
Open Scope Z_scope.

(** ** Python exception classes *)

Module PyExc.

(** The exception classes that [dataservice.py] raises or catches, with the
    builtin ones its handlers name. *)
Inductive exc_class :=
  | BaseException
  | Exception
  | RuntimeError
  | LookupError
  | KeyError
  | TypeError
  | ValueError
  | AttributeError
  | KnownException              (* class KnownException(BaseException) *)
  | UnknownResponseException    (* class UnknownResponseException(BaseException) *)
  | InvalidCaptchaException     (* SouthDataService.InvalidCaptchaException(KnownException) *)
  | InvalidSIDException         (* SouthDataService.InvalidSIDException(KnownException) *)
  | InvalidYMOBException.       (* SouthDataService.InvalidYMOBException(KnownException) *)

#[global] Instance exc_class_eq_dec : EqDecision exc_class.
Proof. solve_decision. Defined.

(** The direct base class, as the [class] statements give it. *)
Definition base_of (c : exc_class) : option exc_class :=
  match c with
  | BaseException => None
  | Exception => Some BaseException
  | RuntimeError | LookupError | TypeError | ValueError | AttributeError => Some Exception
  | KeyError => Some LookupError
  | KnownException | UnknownResponseException => Some BaseException
  | InvalidCaptchaException | InvalidSIDException | InvalidYMOBException => Some KnownException
  end.

Fixpoint issubclass_fuel (n : nat) (c d : exc_class) : bool :=
  if decide (c = d) then true
  else match n with
       | O => false
       | S n' => match base_of c with
                 | Some b => issubclass_fuel n' b d
                 | None => false
                 end
       end.

(** [except d:] catches an exception of class [c] iff [issubclass c d].
    No chain of bases is longer than three. *)
Definition issubclass (c d : exc_class) : bool := issubclass_fuel 3 c d.

Lemma unknown_response_not_exception :
  issubclass UnknownResponseException Exception = false.
Proof. reflexivity. Qed.

Lemma runtime_error_is_exception : issubclass RuntimeError Exception = true.
Proof. reflexivity. Qed.

Lemma every_class_is_base_exception c : issubclass c BaseException = true.
Proof. destruct c; reflexivity. Qed.

End PyExc.

(** ** The fetch orchestration: [SouthDataService] *)

Module Fetch.
Import PyExc.

(** A decoded JSON document, as [requests.get(...).json()] returns it. *)
Inductive json :=
  | JNull
  | JBool (b : bool)
  | JInt (z : Z)
  | JStr (s : string)
  | JList (l : list json)
  | JObj (fields : list (string * json)).

Fixpoint assoc_get (k : string) (fields : list (string * json)) : option json :=
  match fields with
  | [] => None
  | (k', v) :: rest => if decide (k = k') then Some v else assoc_get k rest
  end.

(** [obj[key]] for a string key: a missing key raises [KeyError], anything
    that is not a dictionary raises [TypeError]. *)
Definition py_getitem (obj : json) (key : string) : exc_class + json :=
  match obj with
  | JObj fields => match assoc_get key fields with
                   | Some v => inr v
                   | None => inl KeyError
                   end
  | _ => inl TypeError
  end.

(** [v == n] for an integer literal [n] ([True == 1] and [False == 0] hold
    in Python). *)
Definition py_eq_int (v : json) (n : Z) : bool :=
  match v with
  | JInt z => bool_decide (z = n)
  | JBool b => bool_decide ((if b then 1 else 0) = n)
  | _ => false
  end.

(** A captcha result [(code, t)] and a query [(sid, ymob)].  A query set is
    the iterable handed to [_fetch].  [LocalQuerySupplier] supplies tuples:
    such a query set is the list of its keys, and every loop over it starts
    at its first key.  [DefaultBruteForceQuerySupplier] supplies generator
    objects: such a query set is the list of the keys it has yet to yield
    (Module [Generator]). *)
Definition Token : Type := string * string.
Definition QueryKey : Type := string * string.
Definition QuerySet : Type := list QueryKey.

(** One call of [requests.get] in [_fetch0]: [(sid, ymob, code, t)]. *)
Record Request := mkRequest {
  req_sid : string; req_ymob : string; req_code : string; req_t : string
}.

Definition req_key (r : Request) : QueryKey := (req_sid r, req_ymob r).
Definition req_token (r : Request) : Token := (req_code r, req_t r).

(** What the [try] block of [_fetch0] yields: the call or the decoding
    raised an [Exception], or a document came back. *)
Inductive Response :=
  | TransportFailure
  | Body (json_body : json).

(** The dictionary [utils.DataStructureHelper.construct_result_map] builds,
    in the order of its keys. *)
Definition ResultMap : Type := list (string * json).

Definition construct_result_map (sid name ymob major chn mth eng com sum : json) : ResultMap :=
  [("sid", sid); ("name", name); ("ymob", ymob); ("major", major); ("chn", chn);
   ("mth", mth); ("eng", eng); ("com", com); ("sum", sum)]%string.

(** The calls of [self._logger] (and of the decorator's logger), one
    constructor per call site. *)
Inductive LogRecord :=
  | LogTrying (sid ymob code t : string)            (* debug 'Trying to fetch' *)
  | LogAdded (result_map : ResultMap)               (* info 'Successfully added entry' *)
  | LogInvalidYMOB (sid ymob : string)              (* debug 'Invalid YMOB' *)
  | LogInvalidSID (sid : string)                    (* warning 'Invalid SID' *)
  | LogInvalidCaptcha (code t : string)             (* debug 'Invalid captcha' *)
  | LogReAdding (sid ymob : string)                 (* info 'Re-adding task' *)
  | LogErrorFetching (e : exc_class)                (* exception 'Error fetching or adding data' *)
  | LogErrorOccurred (sid ymob code t : string)     (* error 'Error occurred fetching data' *)
  | LogNoValidYMOB (q_sid : option string)          (* warning 'No valid YMOB for SID' *)
  | LogParse (msg : string)                         (* the calls inside _parse_json *)
  | LogWrapped (e : exc_class)                      (* MultithreadingHelper: exception 'Error executing' *)
  | LogStarting                                     (* debug 'DataService starting' *)
  | LogStarted                                      (* debug 'DataService started' *)
  | LogAlreadyStarted                               (* warning 'Illegal state' *)
  | LogWaitCalled                                   (* debug 'wait() called' *)
  | LogWaitValueError                               (* debug 'ValueError occurred during waiting' *)
  | LogWaitingEnded.                                (* debug 'waiting ended' *)

(** The attributes of the service object that a task reads or writes, the
    queue of the captcha service, the work queue of the executor, and the
    requests sent so far. *)
Record State := mkState {
  running : bool;              (* self._running *)
  pool : list Token;           (* the tokens self._captcha_service will hand out, oldest first *)
  results : list ResultMap;    (* self._results *)
  futures : list QuerySet;     (* self._futures: one entry per submitted task *)
  pending : list QuerySet;     (* tasks submitted to the executor and not yet run *)
  log : list LogRecord;
  sent : list Request          (* every remote call made so far, oldest first *)
}.

Definition set_running (b : bool) (st : State) : State :=
  mkState b (pool st) (results st) (futures st) (pending st) (log st) (sent st).
Definition set_pool (p : list Token) (st : State) : State :=
  mkState (running st) p (results st) (futures st) (pending st) (log st) (sent st).
Definition set_pending (p : list QuerySet) (st : State) : State :=
  mkState (running st) (pool st) (results st) (futures st) p (log st) (sent st).
Definition log_add (r : LogRecord) (st : State) : State :=
  mkState (running st) (pool st) (results st) (futures st) (pending st) (log st ++ [r]) (sent st).
Definition log_all (rs : list LogRecord) (st : State) : State :=
  mkState (running st) (pool st) (results st) (futures st) (pending st) (log st ++ rs) (sent st).
Definition record_request (r : Request) (st : State) : State :=
  mkState (running st) (pool st) (results st) (futures st) (pending st) (log st) (sent st ++ [r]).

(** [_add_result]: [self._results.append(result)]. *)
Definition add_result (result : ResultMap) (st : State) : State :=
  mkState (running st) (pool st) (results st ++ [result]) (futures st) (pending st) (log st) (sent st).

(** [future = self._thread_pool_executor.submit(self._fetch, query_set)]
    followed by [self._futures.append(future)], for an executor that has not
    been shut down. *)
Definition submit_fetch (query_set : QuerySet) (st : State) : State :=
  mkState (running st) (pool st) (results st) (futures st ++ [query_set])
          (pending st ++ [query_set]) (log st) (sent st).

(** [self._captcha_service.get_captcha_result()], that is [Queue.get]: the
    oldest token leaves the queue; on an empty queue the caller blocks
    ([None]). *)
Definition get_captcha_result (st : State) : option (Token * State) :=
  match pool st with
  | [] => None
  | tok :: rest => Some (tok, set_pool rest st)
  end.

(** How a task ends. *)
Inductive Outcome :=
  | Returned
  | Raised (e : exc_class)
  | Blocked            (* waits forever on an empty captcha queue *)
  | OutOfFuel.         (* the loop ran longer than the fuel given *)

(** One pass through the body of [while not skip]. *)
Inductive Pass :=
  | Again (captcha_valid : bool) (tok : Token) (st : State)   (* skip is still False *)
  | NextKey (tok : Token) (st : State)                        (* skip = True *)
  | Stop (o : Outcome) (st : State).                          (* the task ends *)

Inductive KeyResult :=
  | KeySkipped (tok : Token) (st : State)
  | KeyStop (o : Outcome) (st : State).

(** *** Concrete remotes and states for the examples *)

(** A decoder for the examples: it reads the two identity fields of the
    payload and leaves subject and scores at the values [_parse_json]
    starts from. *)
Definition example_parse_json (json_body : json) (ymob : string)
  : list LogRecord * (exc_class + ResultMap) :=
  match py_getitem json_body "args" with
  | inl e => ([], inl e)
  | inr args =>
      match py_getitem args "zkzh", py_getitem args "xm" with
      | inr zkzh, inr xm =>
          ([LogParse "Unable to extract major from json"],
           inr (construct_result_map zkzh xm (JStr ymob) (JStr "unknown")
                  (JInt (-1)) (JInt (-1)) (JInt (-1)) (JInt (-1)) (JInt (-1))))
      | inl e, _ => ([], inl e)
      | _, inl e => ([], inl e)
      end
  end.

Definition ok_body : json :=
  JObj [("code", JInt 1);
        ("args", JObj [("zkzh", JStr "0101000001"); ("xm", JStr "A")])]%string.

Definition ok_record : ResultMap :=
  construct_result_map (JStr "0101000001") (JStr "A") (JStr "9801") (JStr "unknown")
    (JInt (-1)) (JInt (-1)) (JInt (-1)) (JInt (-1)) (JInt (-1)).

Definition example_set : QuerySet :=
  [("0101000001", "9801"); ("0101000001", "9802")]%string.

(** A service that is running, with the given tokens in its captcha queue. *)
Definition running_with (tokens : list Token) : State :=
  mkState true tokens [] [] [] [] [].

(** A service that has not been started. *)
Definition stopped_with (tokens : list Token) : State :=
  mkState false tokens [] [] [] [] [].

(** A remote that answers every request with status code 0. *)
Definition remote_status_0 (hist : list Request) (req : Request) : Response :=
  Body (JObj [("code"%string, JInt 0)]).

(** A remote that answers every request with the status code [z], and one
    whose answers carry no status code. *)
Definition remote_with_status (z : Z) (hist : list Request) (req : Request)
  : Response :=
  Body (JObj [("code"%string, JInt z)]).

Definition remote_without_code (hist : list Request) (req : Request) : Response :=
  Body (JObj []).

(** A remote that accepts one token only. *)
Definition is_third (tok : Token) : bool := bool_decide (tok = ("cccc", "t3")%string).

Definition remote_accepting_third (hist : list Request) (req : Request) : Response :=
  if is_third (req_token req) then Body ok_body
  else Body (JObj [("code"%string, JInt (-2))]).

(** A remote whose first call fails in transport and which answers every
    later call with a record. *)
Definition remote_failing_once (hist : list Request) (req : Request) : Response :=
  match hist with
  | [] => TransportFailure
  | _ => Body ok_body
  end.

Section Service.

(** The remote service: its answer may depend on every request seen so far. *)
Variable remote : list Request -> Request -> Response.

(** [SouthDataService._parse_json(json_body, ymob)]: the records it logs and
    the result map it returns or the exception it raises. *)
Variable parse_json : json -> string -> list LogRecord * (exc_class + ResultMap).

(** The part of [_fetch0] after the [try] block: the status code decides. *)
Definition classify (resp : Response) (ymob : string)
  : list LogRecord * (exc_class + ResultMap) :=
  match resp with
  | TransportFailure => ([], inl RuntimeError)
  | Body json_body =>
      match py_getitem json_body "code" with
      | inl e => ([], inl e)
      | inr status =>
          if py_eq_int status (-4) then ([], inl InvalidYMOBException)
          else if py_eq_int status 1 then parse_json json_body ymob
          else if py_eq_int status (-2) then ([], inl InvalidCaptchaException)
          else if py_eq_int status (-3) then ([], inl InvalidSIDException)
          else ([], inl UnknownResponseException)
      end
  end.

(** What the remote call for [req] yields after the requests [hist]. *)
Definition answer (hist : list Request) (req : Request) : exc_class + ResultMap :=
  snd (classify (remote hist req) (req_ymob req)).

(** [_fetch0(sid, ymob, code, t)]. *)
Definition fetch0 (sid ymob code t : string) (st : State)
  : (exc_class + ResultMap) * State :=
  let req := mkRequest sid ymob code t in
  let resp := remote (sent st) req in
  let st1 := record_request req st in
  let st2 := match resp with
             | TransportFailure => log_add (LogErrorOccurred sid ymob code t) st1
             | Body _ => st1
             end in
  let '(logs, r) := classify resp ymob in
  (r, log_all logs st2).

(** [if not captcha_valid: code, t = self._captcha_service.get_captcha_result()]:
    the token the next request carries. *)
Definition current_token (captcha_valid : bool) (tok : Token) (st : State)
  : option (Token * State) :=
  if captcha_valid then Some (tok, st) else get_captcha_result st.

(** The [try] statement inside [while not skip] of [_fetch], lines 471-495.
    [query_set] is the argument of [_fetch], [key] the pair the [for] loop
    is at. *)
Definition try_body (query_set : QuerySet) (key : QueryKey)
    (captcha_valid : bool) (tok : Token) (st : State) : Pass :=
  let '(sid, ymob) := key in
  match current_token captcha_valid tok st with
  | None => Stop Blocked st
  | Some ((code, t), st1) =>
      let st2 := log_add (LogTrying sid ymob code t) st1 in
      match fetch0 sid ymob code t st2 with
      | (inr result_map, st3) =>
          Stop Returned (log_add (LogAdded result_map) (add_result result_map st3))
      | (inl e, st3) =>
          if issubclass e InvalidYMOBException then
            NextKey (code, t) (log_add (LogInvalidYMOB sid ymob) st3)
          else if issubclass e InvalidSIDException then
            Stop Returned (log_add (LogInvalidSID sid) st3)
          else if issubclass e InvalidCaptchaException then
            Again false (code, t) (log_add (LogInvalidCaptcha code t) st3)
          else if issubclass e RuntimeError then
            Stop Returned (submit_fetch query_set (log_add (LogReAdding sid ymob) st3))
          else if issubclass e Exception then
            Again true (code, t) (log_add (LogErrorFetching e) st3)
          else
            Stop (Raised e) st3
      end
  end.

(** [while not skip: ...] for one key; [fuel] bounds the number of passes. *)
Fixpoint while_not_skip (fuel : nat) (query_set : QuerySet) (key : QueryKey)
    (captcha_valid : bool) (tok : Token) (st : State) : KeyResult :=
  match fuel with
  | O => KeyStop OutOfFuel st
  | S fuel' =>
      match try_body query_set key captcha_valid tok st with
      | Again captcha_valid' tok' st' =>
          while_not_skip fuel' query_set key captcha_valid' tok' st'
      | NextKey tok' st' => KeySkipped tok' st'
      | Stop o st' => KeyStop o st'
      end
  end.

(** [if not q_sid: q_sid = sid]. *)
Definition update_q_sid (q_sid : option string) (sid : string) : option string :=
  match q_sid with
  | None | Some EmptyString => Some sid
  | Some s => Some s
  end.

(** [for i, (sid, ymob) in enumerate(query_set): ...] over the keys still to
    come, then the warning after the loop. *)
Fixpoint for_keys (fuel : nat) (query_set : QuerySet) (keys : list QueryKey)
    (q_sid : option string) (tok : Token) (st : State) : Outcome * State :=
  match keys with
  | [] => (Returned, log_add (LogNoValidYMOB q_sid) st)
  | key :: rest =>
      let q_sid := update_q_sid q_sid key.1 in
      match while_not_skip fuel query_set key true tok st with
      | KeySkipped tok' st' => for_keys fuel query_set rest q_sid tok' st'
      | KeyStop o st' => (o, st')
      end
  end.

(** The body of [SouthDataService._fetch]. *)
Definition fetch_body (fuel : nat) (query_set : QuerySet) (st : State)
  : Outcome * State :=
  if negb (running st) then (Returned, st)
  else match get_captcha_result st with
       | None => (Blocked, st)
       | Some (tok, st1) => for_keys fuel query_set query_set None tok st1
       end.

(** [utils.MultithreadingHelper.wrapped]: [except Exception] logs and the
    call returns [None]; any other exception leaves the call. *)
Definition wrapped (r : Outcome * State) : Outcome * State :=
  match r with
  | (Raised e, st) =>
      if issubclass e Exception then (Returned, log_add (LogWrapped e) st)
      else (Raised e, st)
  | _ => r
  end.

(** [SouthDataService._fetch], decorated. *)
Definition fetch (fuel : nat) (query_set : QuerySet) (st : State) : Outcome * State :=
  wrapped (fetch_body fuel query_set st).

(** [AbstractDataService.start] for the query sets the supplier yields (the
    captcha service is started by filling [pool]). *)
Definition start (query_sets : list QuerySet) (st : State) : State :=
  if negb (running st) then
    log_add LogStarted
      (fold_left (fun s qs => submit_fetch qs s) query_sets
                 (set_running true (log_add LogStarting st)))
  else log_add LogAlreadyStarted st.

(** The executor with one worker thread: it runs at most [n] of the pending
    tasks, oldest first; tasks submitted meanwhile join the queue. *)
Fixpoint run_tasks (n : nat) (fuel : nat) (st : State) : list Outcome * State :=
  match n with
  | O => ([], st)
  | S n' =>
      match pending st with
      | [] => ([], st)
      | query_set :: rest =>
          let '(o, st1) := fetch fuel query_set (set_pending rest st) in
          let '(os, st2) := run_tasks n' fuel st1 in
          (o :: os, st2)
      end
  end.


(** The status codes [_fetch0] has a branch for. *)
Definition recognized (status : json) : bool :=
  py_eq_int status (-4) || py_eq_int status 1 ||
  py_eq_int status (-2) || py_eq_int status (-3).

(** The answers to a run of requests made after [hist], in order. *)
Fixpoint answers (hist : list Request) (attempts : list Request)
  : list (exc_class + ResultMap) :=
  match attempts with
  | [] => []
  | req :: rest => answer hist req :: answers (hist ++ [req]) rest
  end.

Definition is_failure (a : exc_class + ResultMap) : Prop :=
  match a with inl _ => True | inr _ => False end.

(** The keys of the requests a task makes follow the supplied order: a key
    is tried, possibly again, and only then its successor. *)
Inductive attempts_in_order : list QueryKey -> list QueryKey -> Prop :=
  | aio_done keys : attempts_in_order [] keys
  | aio_again key atts keys :
      attempts_in_order atts (key :: keys) ->
      attempts_in_order (key :: atts) (key :: keys)
  | aio_next key atts keys :
      attempts_in_order atts keys ->
      attempts_in_order (key :: atts) (key :: keys).

(** From [st] to [st'] the requests [atts] were made, none was answered
    with a record, and the result list is the same. *)
Definition failed_run (st st' : State) (atts : list Request) : Prop :=
  sent st' = sent st ++ atts /\
  results st' = results st /\
  Forall is_failure (answers (sent st) atts).

(** From [st] to [st'] the requests [atts] were made, the last one, and only
    it, was answered with a record, which is the one record appended. *)
Definition successful_run (st st' : State) (atts : list Request) : Prop :=
  exists pre req r,
    atts = pre ++ [req] /\
    sent st' = sent st ++ atts /\
    Forall is_failure (answers (sent st) pre) /\
    answer (sent st ++ pre) req = inr r /\
    results st' = results st ++ [r].

Definition run_of (o : Outcome) (st st' : State) (atts : list Request) : Prop :=
  failed_run st st' atts \/ (o = Returned /\ successful_run st st' atts).

(** What a pass leaves untouched when it sends [req]. *)
Definition sends (st st' : State) (req : Request) : Prop :=
  sent st' = sent st ++ [req] /\ results st' = results st /\
  futures st' = futures st /\ pending st' = pending st /\
  pool st' = pool st /\ running st' = running st.

Lemma fetch0_effect sid ymob code t st :
  let req := mkRequest sid ymob code t in
  let out := fetch0 sid ymob code t st in
  out.1 = answer (sent st) req /\
  sent out.2 = sent st ++ [req] /\ results out.2 = results st /\
  futures out.2 = futures st /\ pending out.2 = pending st /\
  pool out.2 = pool st /\ running out.2 = running st.
Proof.
  unfold fetch0, answer; simpl.
  destruct (remote (sent st) _) as [|b]; destruct (classify _ ymob) as [logs r];
    simpl; auto 10.
Qed.

Lemma current_token_frame cv tok st tok' st1 :
  current_token cv tok st = Some (tok', st1) ->
  sent st1 = sent st /\ results st1 = results st /\ futures st1 = futures st /\
  pending st1 = pending st /\ running st1 = running st /\ log st1 = log st.
Proof.
  unfold current_token, get_captcha_result; destruct cv.
  - intros [= <- <-]; auto 10.
  - destruct (pool st) as [|x rest]; [discriminate|]. intros [= <- <-]; auto 10.
Qed.

Lemma answers_app hist a1 a2 :
  answers hist (a1 ++ a2) = answers hist a1 ++ answers (hist ++ a1) a2.
Proof.
  revert hist; induction a1 as [|x a1 IH]; intros hist; simpl.
  - by rewrite app_nil_r.
  - rewrite IH. by rewrite <- app_assoc.
Qed.

Lemma answers_length hist atts : length (answers hist atts) = length atts.
Proof. revert hist; induction atts as [|x atts IH]; intros; simpl; auto. Qed.

Lemma failed_run_same st st' :
  sent st' = sent st -> results st' = results st -> failed_run st st' [].
Proof. intros Hs Hr. unfold failed_run; simpl. rewrite app_nil_r. auto. Qed.

Lemma failed_run_refl st : failed_run st st [].
Proof. by apply failed_run_same. Qed.

Lemma failed_run_trans st st1 st2 a1 a2 :
  failed_run st st1 a1 -> failed_run st1 st2 a2 -> failed_run st st2 (a1 ++ a2).
Proof.
  intros (Hs1 & Hr1 & Hf1) (Hs2 & Hr2 & Hf2). unfold failed_run.
  rewrite Hs2, Hs1, Hr2, Hr1, answers_app, app_assoc. repeat split; auto.
  apply Forall_app; split; auto. by rewrite <- Hs1.
Qed.

Lemma failed_then_successful st st1 st2 a1 a2 :
  failed_run st st1 a1 -> successful_run st1 st2 a2 -> successful_run st st2 (a1 ++ a2).
Proof.
  intros (Hs1 & Hr1 & Hf1) (pre & req & r & -> & Hs2 & Hf2 & Ha & Hr2).
  exists (a1 ++ pre), req, r.
  rewrite Hs2, Hs1, Hr2, Hr1, answers_app, !app_assoc. repeat split; auto.
  - apply Forall_app; split; auto. by rewrite <- Hs1.
  - by rewrite <- Hs1.
Qed.

Lemma run_of_trans o st st1 st2 a1 a2 :
  failed_run st st1 a1 -> run_of o st1 st2 a2 -> run_of o st st2 (a1 ++ a2).
Proof.
  intros H1 [H2 | [-> H2]]; [left | right; split; auto].
  - eapply failed_run_trans; eauto.
  - eapply failed_then_successful; eauto.
Qed.

(** The log is not part of a run: logging keeps it. *)
Lemma run_of_log o st st' atts r :
  run_of o st st' atts -> run_of o st (log_add r st') atts.
Proof. intros H; exact H. Qed.

(** One pass makes at most one request, for the key it was given. *)
Lemma try_body_run query_set key cv tok st :
  match try_body query_set key cv tok st with
  | Again _ _ st' | NextKey _ st' =>
      exists req, req_key req = key /\ failed_run st st' [req]
  | Stop o st' =>
      (o = Blocked /\ st' = st) \/
      (exists req, req_key req = key /\ run_of o st st' [req])
  end.
Proof.
  destruct key as [sid ymob]. unfold try_body.
  destruct (current_token cv tok st) as [[[code t] st1]|] eqn:Htok; [|by left].
  apply current_token_frame in Htok as (Hs & Hr & _).
  pose proof (fetch0_effect sid ymob code t (log_add (LogTrying sid ymob code t) st1))
    as (Hans & Hsent & Hres & _).
  destruct (fetch0 _ _ _ _ _) as [[e|result_map] st3]; simpl in *.
  - assert (Hfail : failed_run st st3 [mkRequest sid ymob code t]).
    { unfold failed_run; simpl. rewrite Hsent, Hres, Hs, Hr. repeat split; auto.
      constructor; [|constructor]. rewrite <- Hs, <- Hans. exact I. }
    repeat match goal with
           | |- context [if issubclass e ?c then _ else _] => destruct (issubclass e c)
           end;
      first [ exists (mkRequest sid ymob code t); split; [reflexivity|exact Hfail]
            | right; exists (mkRequest sid ymob code t); split; [reflexivity|];
              left; exact Hfail ].
  - right. exists (mkRequest sid ymob code t). split; [reflexivity|].
    right; split; [reflexivity|].
    exists [], (mkRequest sid ymob code t), result_map; simpl.
    rewrite Hsent, Hres, Hs, Hr, app_nil_r. repeat split; auto.
    rewrite <- Hs; auto.
Qed.

Lemma while_not_skip_run fuel query_set key cv tok st :
  match while_not_skip fuel query_set key cv tok st with
  | KeySkipped _ st' =>
      exists atts, atts <> [] /\ Forall (fun r => req_key r = key) atts /\
                   failed_run st st' atts
  | KeyStop o st' =>
      exists atts, Forall (fun r => req_key r = key) atts /\ run_of o st st' atts
  end.
Proof.
  revert cv tok st; induction fuel as [|fuel IH]; intros cv tok st; simpl.
  - exists []. split; [constructor|]. left; apply failed_run_refl.
  - pose proof (try_body_run query_set key cv tok st) as Hpass.
    destruct (try_body query_set key cv tok st) as [cv' tok' st1|tok' st1|o st1].
    + destruct Hpass as (req & Hk & Hf).
      specialize (IH cv' tok' st1).
      destruct (while_not_skip fuel query_set key cv' tok' st1) as [tok2 st2|o st2].
      * destruct IH as (atts & _ & Hall & Hrun). exists ([req] ++ atts).
        split; [discriminate|]. split; [by constructor|].
        eapply failed_run_trans; eauto.
      * destruct IH as (atts & Hall & Hrun). exists ([req] ++ atts).
        split; [by constructor|]. eapply run_of_trans; eauto.
    + destruct Hpass as (req & Hk & Hf). exists [req].
      split; [discriminate|]. split; [by repeat constructor|done].
    + destruct Hpass as [[-> ->]|(req & Hk & Hrun)].
      * exists []. split; [constructor|]. left; apply failed_run_refl.
      * exists [req]. split; [by repeat constructor|done].
Qed.

Lemma attempts_in_order_same key atts keys :
  Forall (fun r => req_key r = key) atts ->
  attempts_in_order (req_key <$> atts) (key :: keys).
Proof.
  induction 1 as [|r atts Hk _ IH]; simpl; [constructor|].
  rewrite Hk. by apply aio_again.
Qed.

Lemma attempts_in_order_then key a1 a2 keys :
  a1 <> [] -> Forall (fun r => req_key r = key) a1 ->
  attempts_in_order (req_key <$> a2) keys ->
  attempts_in_order (req_key <$> (a1 ++ a2)) (key :: keys).
Proof.
  intros Hne Hall H2. induction Hall as [|r a1 Hk Hall IH]; [done|].
  simpl. rewrite Hk. destruct a1 as [|r' a1].
  - simpl. by apply aio_next.
  - apply aio_again. apply IH. discriminate.
Qed.

Lemma for_keys_run fuel query_set keys q_sid tok st :
  let out := for_keys fuel query_set keys q_sid tok st in
  exists atts, attempts_in_order (req_key <$> atts) keys /\ run_of out.1 st out.2 atts.
Proof.
  revert q_sid tok st; induction keys as [|key rest IH]; intros q_sid tok st; simpl.
  - exists []. split; [constructor|]. left. by apply failed_run_same.
  - pose proof (while_not_skip_run fuel query_set key true tok st) as Hkey.
    destruct (while_not_skip fuel query_set key true tok st) as [tok' st1|o st1].
    + destruct Hkey as (a1 & Hne & Hall & Hf).
      destruct (IH (update_q_sid q_sid key.1) tok' st1) as (a2 & Hord & Hrun).
      exists (a1 ++ a2). split; [by apply attempts_in_order_then|].
      eapply run_of_trans; eauto.
    + destruct Hkey as (a1 & Hall & Hrun). exists a1. split; [|done].
      by apply attempts_in_order_same.
Qed.

Lemma fetch_run fuel query_set st :
  let out := fetch fuel query_set st in
  exists atts, attempts_in_order (req_key <$> atts) query_set /\
               run_of out.1 st out.2 atts.
Proof.
  unfold fetch, fetch_body.
  destruct (running st); simpl;
    [|exists []; split; [constructor|left; apply failed_run_refl]].
  unfold get_captcha_result.
  destruct (pool st) as [|tok rest] eqn:Hpool; simpl;
    [exists []; split; [constructor|left; apply failed_run_refl]|].
  destruct (for_keys_run fuel query_set query_set None tok (set_pool rest st))
    as (atts & Hord & Hrun).
  exists atts. split; [done|].
  destruct (for_keys _ _ _ _ _ _) as [o st']; simpl in *.
  assert (Hrun' : run_of o st st' atts) by exact Hrun.
  destruct o as [|e| |]; simpl; try done.
  destruct (issubclass e Exception); simpl; [|done].
  destruct Hrun' as [Hf|[? ?]]; [left; exact Hf|done].
Qed.

(** The handlers of the [try] statement, by the class of the answer. *)
Lemma try_body_cases query_set sid ymob cv tok st code t st1 :
  current_token cv tok st = Some ((code, t), st1) ->
  exists st3,
    sends st1 st3 (mkRequest sid ymob code t) /\
    try_body query_set (sid, ymob) cv tok st =
      match answer (sent st1) (mkRequest sid ymob code t) with
      | inr result_map =>
          Stop Returned (log_add (LogAdded result_map) (add_result result_map st3))
      | inl e =>
          if issubclass e InvalidYMOBException then
            NextKey (code, t) (log_add (LogInvalidYMOB sid ymob) st3)
          else if issubclass e InvalidSIDException then
            Stop Returned (log_add (LogInvalidSID sid) st3)
          else if issubclass e InvalidCaptchaException then
            Again false (code, t) (log_add (LogInvalidCaptcha code t) st3)
          else if issubclass e RuntimeError then
            Stop Returned (submit_fetch query_set (log_add (LogReAdding sid ymob) st3))
          else if issubclass e Exception then
            Again true (code, t) (log_add (LogErrorFetching e) st3)
          else
            Stop (Raised e) st3
      end.
Proof.
  intros Htok. unfold try_body. rewrite Htok.
  pose proof (fetch0_effect sid ymob code t (log_add (LogTrying sid ymob code t) st1))
    as (Hans & Hframe).
  destruct (fetch0 _ _ _ _ _) as [a st3]; simpl in *.
  exists st3. split; [exact Hframe|]. rewrite <- Hans. by destruct a.
Qed.

Lemma try_body_no_token query_set key tok1 tok2 st :
  try_body query_set key false tok1 st = try_body query_set key false tok2 st.
Proof. destruct key; reflexivity. Qed.

Lemma while_not_skip_S fuel query_set key cv tok st :
  while_not_skip (S fuel) query_set key cv tok st =
    match try_body query_set key cv tok st with
    | Again cv' tok' st' => while_not_skip fuel query_set key cv' tok' st'
    | NextKey tok' st' => KeySkipped tok' st'
    | Stop o st' => KeyStop o st'
    end.
Proof. reflexivity. Qed.

(** What a run says about the record of a task: a request answered with a
    record is the last request, the task returns and that record is the one
    record appended; without such an answer the result list is unchanged. *)
Lemma run_of_first_success o st st' attempts :
  run_of o st st' attempts ->
  sent st' = sent st ++ attempts /\
  (forall i r, answers (sent st) attempts !! i = Some (inr r) ->
     S i = length attempts /\ o = Returned /\
     results st' = results st ++ [r]) /\
  ((forall i r, answers (sent st) attempts !! i <> Some (inr r)) ->
     results st' = results st).
Proof.
  intros [(Hs & Hr & Hf)|(Ho & pre & req & r & -> & Hs & Hf & Ha & Hr)].
  - split; [done|]. split; [|done]. intros i r Hi.
    eapply Forall_lookup_1 in Hf; [|exact Hi]. destruct Hf.
  - rewrite answers_app in *. simpl in *. rewrite Ha in *.
    assert (Hlen : length (answers (sent st) pre) = length pre)
      by apply answers_length.
    split; [done|]. split.
    + intros i r' Hi.
      destruct (decide (i < length pre)%nat) as [Hlt|Hge].
      * rewrite lookup_app_l in Hi by lia.
        eapply Forall_lookup_1 in Hf; [|exact Hi]. destruct Hf.
      * rewrite lookup_app_r in Hi by lia. rewrite length_app. simpl.
        destruct (i - length (answers (sent st) pre))%nat as [|k] eqn:Hk;
          [|by destruct k].
        simpl in Hi. injection Hi as <-. split; [lia|]. split; [done|exact Hr].
    + intros Hnone. exfalso. apply (Hnone (length pre) r).
      rewrite lookup_app_r by lia. by rewrite Hlen, Nat.sub_diag.
Qed.

(** C1 (as the code has it). When the answer carries a status code that
    [_fetch0] has no branch for, [UnknownResponseException] is raised; it is
    a [BaseException] and not an [Exception], so no handler of [_fetch] and
    not the decorator catches it: the pass, the loop over the key and the
    task end with that exception after this one request, nothing but the
    'Trying to fetch' line is logged, no record is appended and no task is
    submitted. *)
Theorem unknown_status_ends_task query_set sid ymob cv tok st code t st1
    json_body status :
  current_token cv tok st = Some ((code, t), st1) ->
  remote (sent st1) (mkRequest sid ymob code t) = Body json_body ->
  py_getitem json_body "code" = inr status ->
  recognized status = false ->
  exists st',
    try_body query_set (sid, ymob) cv tok st
      = Stop (Raised UnknownResponseException) st' /\
    (forall fuel, while_not_skip (S fuel) query_set (sid, ymob) cv tok st
                  = KeyStop (Raised UnknownResponseException) st') /\
    (forall fuel rest q_sid, cv = true ->
       for_keys (S fuel) query_set ((sid, ymob) :: rest) q_sid tok st
       = (Raised UnknownResponseException, st')) /\
    wrapped (Raised UnknownResponseException, st')
      = (Raised UnknownResponseException, st') /\
    sent st' = sent st ++ [mkRequest sid ymob code t] /\
    log st' = log st ++ [LogTrying sid ymob code t] /\
    results st' = results st /\ futures st' = futures st /\
    pending st' = pending st.
Proof.
  intros Htok Hremote Hcode Hrec.
  unfold recognized in Hrec.
  apply orb_false_elim in Hrec as [Hrec H3].
  apply orb_false_elim in Hrec as [Hrec H2].
  apply orb_false_elim in Hrec as [H4 H1].
  assert (Hpass : try_body query_set (sid, ymob) cv tok st =
    Stop (Raised UnknownResponseException)
      (record_request (mkRequest sid ymob code t)
         (log_add (LogTrying sid ymob code t) st1))).
  { unfold try_body. rewrite Htok. unfold fetch0. simpl. rewrite Hremote.
    unfold classify. rewrite Hcode, H4, H1, H2, H3. simpl.
    unfold log_all, record_request, log_add; simpl. by rewrite app_nil_r. }
  apply current_token_frame in Htok as (Hs & Hr & Hf & Hp & _ & Hl).
  eexists. split; [exact Hpass|].
  split; [intros fuel; by rewrite while_not_skip_S, Hpass|].
  split; [intros fuel rest q_sid ->; cbn [for_keys];
          by rewrite while_not_skip_S, Hpass|].
  simpl. rewrite Hs, Hl, Hr, Hf, Hp. auto 10.
Qed.

Lemma sends_log st st' req r : sends st st' req -> sends st (log_add r st') req.
Proof. intros H; exact H. Qed.

Lemma try_body_invalid_captcha query_set sid ymob cv tok st code t st1 :
  current_token cv tok st = Some ((code, t), st1) ->
  answer (sent st1) (mkRequest sid ymob code t) = inl InvalidCaptchaException ->
  exists st2,
    try_body query_set (sid, ymob) cv tok st = Again false (code, t) st2 /\
    sends st1 st2 (mkRequest sid ymob code t).
Proof.
  intros Htok Hans.
  destruct (try_body_cases query_set sid ymob cv tok st code t st1 Htok)
    as (st3 & Hsends & ->).
  rewrite Hans. eexists. split; [reflexivity|]. by apply sends_log.
Qed.

Lemma try_body_success query_set sid ymob cv tok st code t st1 r :
  current_token cv tok st = Some ((code, t), st1) ->
  answer (sent st1) (mkRequest sid ymob code t) = inr r ->
  exists st2,
    try_body query_set (sid, ymob) cv tok st = Stop Returned st2 /\
    sent st2 = sent st1 ++ [mkRequest sid ymob code t] /\
    results st2 = results st1 ++ [r] /\
    futures st2 = futures st1 /\ pending st2 = pending st1 /\
    pool st2 = pool st1 /\ running st2 = running st1.
Proof.
  intros Htok Hans.
  destruct (try_body_cases query_set sid ymob cv tok st code t st1 Htok)
    as (st3 & (Hs & Hr & Hf & Hp & Hpool & Hrun) & ->).
  rewrite Hans. eexists. split; [reflexivity|]. simpl. rewrite Hr. auto 10.
Qed.

Lemma try_body_transport query_set sid ymob cv tok st code t st1 :
  current_token cv tok st = Some ((code, t), st1) ->
  remote (sent st1) (mkRequest sid ymob code t) = TransportFailure ->
  exists st2,
    try_body query_set (sid, ymob) cv tok st = Stop Returned st2 /\
    sent st2 = sent st1 ++ [mkRequest sid ymob code t] /\
    results st2 = results st1 /\
    futures st2 = futures st1 ++ [query_set] /\
    pending st2 = pending st1 ++ [query_set] /\
    pool st2 = pool st1 /\ running st2 = running st1.
Proof.
  intros Htok Hremote.
  destruct (try_body_cases query_set sid ymob cv tok st code t st1 Htok)
    as (st3 & (Hs & Hr & Hf & Hp & Hpool & Hrun) & ->).
  unfold answer. rewrite Hremote. simpl.
  eexists. split; [reflexivity|]. simpl. rewrite Hf, Hp. auto 10.
Qed.

Lemma current_token_refresh tok tok' rest st :
  pool st = tok' :: rest ->
  current_token false tok st = Some (tok', set_pool rest st).
Proof. intros H. unfold current_token, get_captcha_result. by rewrite H. Qed.

(** The first pass of a running task whose captcha queue holds a token. *)
Lemma fetch_unfold fuel query_set st tok rest :
  running st = true -> pool st = tok :: rest ->
  fetch fuel query_set st =
    wrapped (for_keys fuel query_set query_set None tok (set_pool rest st)).
Proof.
  intros Hrun Hpool. unfold fetch, fetch_body, get_captcha_result.
  by rewrite Hrun, Hpool.
Qed.

Lemma run_tasks_idle n fuel st : pending st = [] -> run_tasks n fuel st = ([], st).
Proof. intros H. destruct n; simpl; [done|by rewrite H]. Qed.

Lemma run_tasks_S n fuel st query_set rest :
  pending st = query_set :: rest ->
  run_tasks (S n) fuel st =
    (let '(o, st1) := fetch fuel query_set (set_pending rest st) in
     let '(os, st2) := run_tasks n fuel st1 in (o :: os, st2)).
Proof. intros H. simpl. by rewrite H. Qed.

(** C6. When the answer to a request is "invalid captcha", the pass ends
    with [captcha_valid = False] and the loop stays on the same key; the
    next pass does not depend on the old token in any way, takes the oldest
    token of the captcha queue (or blocks on an empty queue) and sends the
    same key with it.  With a queue that yields two tokens the remote
    rejects and then one it accepts, the task returns after exactly three
    requests for its first key, carrying the three tokens in turn, and has
    appended the record answered to the third. *)
Theorem invalid_token_refreshes_and_retries :
  (forall query_set sid ymob cv tok st code t st1,
     current_token cv tok st = Some ((code, t), st1) ->
     answer (sent st1) (mkRequest sid ymob code t) = inl InvalidCaptchaException ->
     exists st2,
       try_body query_set (sid, ymob) cv tok st = Again false (code, t) st2 /\
       sends st1 st2 (mkRequest sid ymob code t) /\
       (forall fuel,
          while_not_skip (S fuel) query_set (sid, ymob) cv tok st
          = while_not_skip fuel query_set (sid, ymob) false (code, t) st2) /\
       (forall fuel tok_any,
          while_not_skip fuel query_set (sid, ymob) false tok_any st2
          = while_not_skip fuel query_set (sid, ymob) false (code, t) st2) /\
       (pool st2 = [] ->
        try_body query_set (sid, ymob) false (code, t) st2 = Stop Blocked st2) /\
       (forall code' t' rest, pool st2 = (code', t') :: rest ->
          exists st3 st4,
            current_token false (code, t) st2 = Some ((code', t'), st3) /\
            pool st3 = rest /\
            sends st3 st4 (mkRequest sid ymob code' t') /\
            match try_body query_set (sid, ymob) false (code, t) st2 with
            | Again _ tok' _ | NextKey tok' _ => tok' = (code', t')
            | Stop _ _ => True
            end)) /\
  (forall (valid : Token -> bool) sid ymob keys st t1 t2 t3 rest
          json_ok logs r fuel,
     running st = true ->
     pool st = t1 :: t2 :: t3 :: rest ->
     valid t1 = false -> valid t2 = false -> valid t3 = true ->
     (forall hist tok,
        remote hist (mkRequest sid ymob tok.1 tok.2) =
          if valid tok then Body json_ok
          else Body (JObj [("code"%string, JInt (-2))])) ->
     py_getitem json_ok "code" = inr (JInt 1) ->
     parse_json json_ok ymob = (logs, inr r) ->
     (3 <= fuel)%nat ->
     exists st',
       fetch fuel ((sid, ymob) :: keys) st = (Returned, st') /\
       sent st' = sent st ++ [mkRequest sid ymob t1.1 t1.2;
                               mkRequest sid ymob t2.1 t2.2;
                               mkRequest sid ymob t3.1 t3.2] /\
       results st' = results st ++ [r] /\
       pool st' = rest /\ futures st' = futures st).
Proof.
  split.
  - intros query_set sid ymob cv tok st code t st1 Htok Hans.
    destruct (try_body_invalid_captcha query_set sid ymob cv tok st code t st1
                Htok Hans) as (st2 & Hpass & Hsends).
    exists st2. split; [done|]. split; [done|].
    split; [intros fuel; by rewrite while_not_skip_S, Hpass|]. split; [|split].
    + intros [|fuel] tok_any; [done|].
      by rewrite !while_not_skip_S,
           (try_body_no_token query_set (sid, ymob) tok_any (code, t)).
    + intros Hempty. unfold try_body, current_token, get_captcha_result.
      by rewrite Hempty.
    + intros code' t' rest Hpool.
      pose proof (current_token_refresh (code, t) _ _ _ Hpool) as Hnext.
      destruct (try_body_cases query_set sid ymob false (code, t) st2 code' t'
                  _ Hnext) as (st4 & Hs4 & Hcase).
      exists (set_pool rest st2), st4. split; [done|]. split; [done|].
      split; [done|]. rewrite Hcase.
      destruct (answer (sent (set_pool rest st2)) _) as [e|?]; [|done].
      repeat match goal with
             | |- context [if issubclass e ?c then _ else _] =>
                 destruct (issubclass e c)
             end; done.
  - intros valid sid ymob keys st [c1 u1] [c2 u2] [c3 u3] rest json_ok logs r
      fuel Hrun Hpool Hv1 Hv2 Hv3 Hremote Hcode Hparse Hfuel.
    destruct fuel as [|[|[|fuel]]]; [lia..|].
    assert (Hbad : forall hist c u, valid (c, u) = false ->
              answer hist (mkRequest sid ymob c u) = inl InvalidCaptchaException).
    { intros hist c u Hv. unfold answer.
      pose proof (Hremote hist (c, u)) as Hr. simpl in Hr.
      rewrite Hr, Hv. reflexivity. }
    assert (Hgood : forall hist, answer hist (mkRequest sid ymob c3 u3) = inr r).
    { intros hist. unfold answer.
      pose proof (Hremote hist (c3, u3)) as Hr. simpl in Hr.
      rewrite Hr, Hv3. unfold classify. rewrite Hcode. simpl. by rewrite Hparse. }
    rewrite (fetch_unfold _ _ _ _ _ Hrun Hpool). cbn [for_keys].
    set (qs := (sid, ymob) :: keys). rewrite while_not_skip_S.
    match goal with
    | |- context [try_body qs _ true _ ?sa] =>
        destruct (try_body_invalid_captcha qs sid ymob true (c1, u1) sa c1 u1 sa
                    eq_refl (Hbad _ _ _ Hv1))
          as (sb & Hp1 & (Hs1 & Hr1 & Hf1 & _ & Hpool1 & _))
    end.
    rewrite Hp1. simpl in Hs1, Hr1, Hf1, Hpool1.
    pose proof (current_token_refresh (c1, u1) (c2, u2) ((c3, u3) :: rest) sb
                  Hpool1) as Htok2.
    destruct (try_body_invalid_captcha qs sid ymob false (c1, u1) sb c2 u2 _
                Htok2 (Hbad _ _ _ Hv2))
      as (sc & Hp2 & (Hs2 & Hr2 & Hf2 & _ & Hpool2 & _)).
    rewrite while_not_skip_S, Hp2.
    pose proof (current_token_refresh (c2, u2) (c3, u3) rest sc Hpool2) as Htok3.
    destruct (try_body_success qs sid ymob false (c2, u2) sc c3 u3 _ r
                Htok3 (Hgood _))
      as (sd & Hp3 & Hs3 & Hr3 & Hf3 & _ & Hpool3 & _).
    rewrite while_not_skip_S, Hp3. simpl.
    exists sd. split; [done|].
    rewrite Hs3, Hr3, Hf3, Hpool3; simpl. rewrite Hs2, Hr2, Hf2; simpl.
    rewrite Hs1, Hr1, Hf1; simpl. rewrite <- !app_assoc. auto.
Qed.

(** A query set that is a tuple or a list, on an executor that has not been
    shut down.  When the remote call of a pass fails (the request or the
    decoding of the body raised), the task returns at once: no record is
    appended and exactly one new task, for the whole query set the task was
    given, is submitted and appended to the futures.  When the first remote
    call for a query set fails and the second is answered with a record,
    running the executor until it is idle leaves exactly one record and two
    scheduled tasks for the query set. *)
Theorem transport_failure_resubmits :
  (forall query_set sid ymob cv tok st code t st1,
     current_token cv tok st = Some ((code, t), st1) ->
     remote (sent st1) (mkRequest sid ymob code t) = TransportFailure ->
     exists st',
       try_body query_set (sid, ymob) cv tok st = Stop Returned st' /\
       (forall fuel, while_not_skip (S fuel) query_set (sid, ymob) cv tok st
                     = KeyStop Returned st') /\
       (forall fuel rest q_sid, cv = true ->
          for_keys (S fuel) query_set ((sid, ymob) :: rest) q_sid tok st
          = (Returned, st')) /\
       sent st' = sent st ++ [mkRequest sid ymob code t] /\
       results st' = results st /\
       futures st' = futures st ++ [query_set] /\
       pending st' = pending st ++ [query_set]) /\
  (forall sid ymob keys st t1 t2 rest json_ok logs r n fuel,
     running st = false -> pending st = [] ->
     pool st = t1 :: t2 :: rest ->
     remote (sent st) (mkRequest sid ymob t1.1 t1.2) = TransportFailure ->
     remote (sent st ++ [mkRequest sid ymob t1.1 t1.2])
            (mkRequest sid ymob t2.1 t2.2) = Body json_ok ->
     py_getitem json_ok "code" = inr (JInt 1) ->
     parse_json json_ok ymob = (logs, inr r) ->
     (2 <= n)%nat -> (1 <= fuel)%nat ->
     exists st',
       run_tasks n fuel (start [(sid, ymob) :: keys] st)
         = ([Returned; Returned], st') /\
       results st' = results st ++ [r] /\
       futures st' = futures st ++ [(sid, ymob) :: keys; (sid, ymob) :: keys] /\
       pending st' = []).
Proof.
  split.
  - intros query_set sid ymob cv tok st code t st1 Htok Hremote.
    destruct (try_body_transport query_set sid ymob cv tok st code t st1
                Htok Hremote) as (st' & Hpass & Hs & Hr & Hf & Hp & _).
    apply current_token_frame in Htok as (Hs1 & Hr1 & Hf1 & Hp1 & _).
    exists st'. split; [done|].
    split; [intros fuel; by rewrite while_not_skip_S, Hpass|].
    split; [intros fuel rest q_sid ->; cbn [for_keys];
            by rewrite while_not_skip_S, Hpass|].
    rewrite Hs, Hr, Hf, Hp, Hs1, Hr1, Hf1, Hp1. auto.
  - intros sid ymob keys st [c1 u1] [c2 u2] rest json_ok logs r n fuel
      Hrun Hpend Hpool Hfail Hok Hcode Hparse Hn Hfuel.
    destruct n as [|[|n]]; [lia..|]. destruct fuel as [|fuel]; [lia|].
    unfold start. rewrite Hrun. cbn [negb fold_left].
    erewrite run_tasks_S; [|simpl; rewrite Hpend; reflexivity].
    erewrite fetch_unfold; [|reflexivity|simpl; exact Hpool].
    cbn [for_keys]. rewrite while_not_skip_S.
    match goal with
    | |- context [try_body ?qs _ true _ ?s1] =>
        destruct (try_body_transport qs sid ymob true (c1, u1) s1 c1 u1 s1
                    eq_refl Hfail)
          as (s2 & Hp1 & Hs2 & Hr2 & Hf2 & Hpend2 & Hpool2 & Hrun2)
    end.
    rewrite Hp1. cbn [wrapped].
    simpl in Hpend2, Hrun2, Hpool2, Hs2, Hr2, Hf2.
    erewrite run_tasks_S; [|exact Hpend2].
    erewrite fetch_unfold; [|exact Hrun2|exact Hpool2].
    cbn [for_keys]. rewrite while_not_skip_S.
    match goal with
    | |- context [try_body ?qs _ true _ ?s3] =>
        assert (Hans : answer (sent s3) (mkRequest sid ymob c2 u2) = inr r);
        [ unfold answer; simpl; rewrite Hs2; simpl; simpl in Hok; rewrite Hok;
          unfold classify; rewrite Hcode; simpl; by rewrite Hparse
        | destruct (try_body_success qs sid ymob true (c2, u2) s3 c2 u2 s3 r
                      eq_refl Hans)
            as (s4 & Hp3 & Hs4 & Hr4 & Hf4 & Hpend4 & _) ]
    end.
    rewrite Hp3. cbn [wrapped].
    simpl in Hpend4, Hr4, Hf4. rewrite (run_tasks_idle _ _ _ Hpend4).
    exists s4. split; [done|].
    rewrite Hr4, Hf4, Hpend4, Hr2, Hf2. rewrite <- !app_assoc. auto.
Qed.

(** X5. "Invalid secondary key": the loop leaves the key and the [for] loop goes
    on with the next key and the token in use. *)
Theorem invalid_ymob_moves_to_next_key query_set sid ymob cv tok st code t st1 :
  current_token cv tok st = Some ((code, t), st1) ->
  answer (sent st1) (mkRequest sid ymob code t) = inl InvalidYMOBException ->
  exists st',
    try_body query_set (sid, ymob) cv tok st = NextKey (code, t) st' /\
    sends st1 st' (mkRequest sid ymob code t) /\
    forall fuel rest q_sid, cv = true ->
      for_keys (S fuel) query_set ((sid, ymob) :: rest) q_sid tok st
      = for_keys (S fuel) query_set rest (update_q_sid q_sid sid) (code, t) st'.
Proof.
  intros Htok Hans.
  destruct (try_body_cases query_set sid ymob cv tok st code t st1 Htok)
    as (st3 & Hsends & Hcases).
  assert (Hpass : try_body query_set (sid, ymob) cv tok st
                  = NextKey (code, t) (log_add (LogInvalidYMOB sid ymob) st3))
    by (rewrite Hcases, Hans; reflexivity).
  eexists. split; [exact Hpass|]. split; [by apply sends_log|].
  intros fuel rest q_sid ->. cbn [for_keys].
  by rewrite while_not_skip_S, Hpass.
Qed.

(** X6. "Invalid primary key": the task returns at once; it appends no record
    and submits no task. *)
Theorem invalid_sid_abandons_task query_set sid ymob cv tok st code t st1 :
  current_token cv tok st = Some ((code, t), st1) ->
  answer (sent st1) (mkRequest sid ymob code t) = inl InvalidSIDException ->
  exists st',
    try_body query_set (sid, ymob) cv tok st = Stop Returned st' /\
    sends st1 st' (mkRequest sid ymob code t) /\
    forall fuel rest q_sid, cv = true ->
      for_keys (S fuel) query_set ((sid, ymob) :: rest) q_sid tok st
      = (Returned, st').
Proof.
  intros Htok Hans.
  destruct (try_body_cases query_set sid ymob cv tok st code t st1 Htok)
    as (st3 & Hsends & Hcases).
  assert (Hpass : try_body query_set (sid, ymob) cv tok st
                  = Stop Returned (log_add (LogInvalidSID sid) st3))
    by (rewrite Hcases, Hans; reflexivity).
  eexists. split; [exact Hpass|]. split; [by apply sends_log|].
  intros fuel rest q_sid ->. cbn [for_keys].
  by rewrite while_not_skip_S, Hpass.
Qed.

(** X7. Any other [Exception] raised while a key is tried (a missing field of
    the body, say) is logged and the same key is tried again with the same
    token: the loop goes on with [captcha_valid] still true. *)
Theorem unexpected_exception_retries_same_key query_set sid ymob cv tok st
    code t st1 e :
  current_token cv tok st = Some ((code, t), st1) ->
  answer (sent st1) (mkRequest sid ymob code t) = inl e ->
  issubclass e Exception = true ->
  issubclass e RuntimeError = false ->
  exists st3,
    sends st1 st3 (mkRequest sid ymob code t) /\
    try_body query_set (sid, ymob) cv tok st
    = Again true (code, t) (log_add (LogErrorFetching e) st3).
Proof.
  intros Htok Hans Hexc Hrt.
  destruct (try_body_cases query_set sid ymob cv tok st code t st1 Htok)
    as (st3 & Hsends & Hpass).
  rewrite Hans in Hpass. exists st3. split; [done|]. rewrite Hpass.
  destruct e; try discriminate; reflexivity.
Qed.

(** A task that starts when the service is not running does nothing. *)
Theorem stopped_service_fetches_nothing fuel query_set st :
  running st = false -> fetch fuel query_set st = (Returned, st).
Proof. intros Hrun. unfold fetch, fetch_body. by rewrite Hrun. Qed.

End Service.

(** *** The examples of the specification, on concrete remotes *)

(** C1, counterexample. The remote answers with status code 0: the task
    does not retry the key (one request is sent although the fuel allows
    ten passes), it ends with the exception, and nothing but the 'Trying to
    fetch' line is logged. *)
Lemma unknown_status_is_not_retried :
  fetch remote_status_0 example_parse_json 10 example_set
        (running_with [("aaaa", "t1")]%string)
  = (Raised UnknownResponseException,
     mkState true [] [] [] []
       [LogTrying "0101000001" "9801" "aaaa" "t1"]
       [mkRequest "0101000001" "9801" "aaaa" "t1"]).
Proof. vm_compute. reflexivity. Qed.

Lemma unknown_status_ends_task_witness :
  exists st',
    try_body remote_status_0 example_parse_json example_set
      ("0101000001", "9801")%string true ("aaaa", "t1")%string
      (running_with []) = Stop (Raised UnknownResponseException) st' /\
    results st' = [] /\ futures st' = [] /\ pending st' = [].
Proof.
  destruct (unknown_status_ends_task remote_status_0 example_parse_json
              example_set "0101000001" "9801" true ("aaaa", "t1")%string
              (running_with []) "aaaa" "t1" (running_with [])
              (JObj [("code"%string, JInt 0)]) (JInt 0)
              eq_refl eq_refl eq_refl eq_refl)
    as (st' & Hpass & _ & _ & _ & _ & _ & Hr & Hf & Hp).
  exists st'. auto.
Defined.

Lemma invalid_token_refreshes_and_retries_witness :
  (exists st2,
     try_body remote_accepting_third example_parse_json example_set
       ("0101000001", "9801")%string true ("aaaa", "t1")%string
       (running_with [("bbbb", "t2")]%string)
     = Again false ("aaaa", "t1")%string st2 /\
     pool st2 = [("bbbb", "t2")%string]) /\
  (exists st',
     fetch remote_accepting_third example_parse_json 3 example_set
       (running_with [("aaaa", "t1"); ("bbbb", "t2"); ("cccc", "t3")]%string)
     = (Returned, st') /\
     results st' = [ok_record] /\ pool st' = []).
Proof.
  pose proof (invalid_token_refreshes_and_retries remote_accepting_third
                example_parse_json) as [Hgen Hex].
  split.
  - destruct (Hgen example_set "0101000001" "9801" true ("aaaa", "t1")
                (running_with [("bbbb", "t2")]) "aaaa" "t1"
                (running_with [("bbbb", "t2")]) eq_refl eq_refl)%string
      as (st2 & Hpass & (_ & _ & _ & _ & Hpool & _) & _).
    exists st2. split; [exact Hpass|exact Hpool].
  - destruct (Hex is_third "0101000001" "9801" [("0101000001", "9802")]
                (running_with [("aaaa", "t1"); ("bbbb", "t2"); ("cccc", "t3")])
                ("aaaa", "t1") ("bbbb", "t2") ("cccc", "t3") [] ok_body
                [LogParse "Unable to extract major from json"] ok_record 3%nat
                eq_refl eq_refl eq_refl eq_refl eq_refl
                (fun hist tok => match tok with (c, u) => eq_refl end)
                eq_refl eq_refl (le_n 3))%string
      as (st' & Hfetch & _ & Hres & Hpool & _).
    exists st'. split; [exact Hfetch|]. split; [exact Hres|exact Hpool].
Defined.

Lemma transport_failure_resubmits_witness :
  (exists st',
     try_body remote_failing_once example_parse_json example_set
       ("0101000001", "9801")%string true ("aaaa", "t1")%string
       (running_with [])
     = Stop Returned st' /\
     results st' = [] /\ futures st' = [example_set]) /\
  (exists st',
     run_tasks remote_failing_once example_parse_json 5 2
       (start [example_set] (stopped_with [("aaaa", "t1"); ("bbbb", "t2")]%string))
     = ([Returned; Returned], st') /\
     results st' = [ok_record] /\ futures st' = [example_set; example_set]).
Proof.
  pose proof (transport_failure_resubmits remote_failing_once
                example_parse_json) as [Hgen Hex].
  split.
  - destruct (Hgen example_set "0101000001" "9801" true ("aaaa", "t1")
                (running_with []) "aaaa" "t1" (running_with [])
                eq_refl eq_refl)%string
      as (st' & Hpass & _ & _ & _ & Hr & Hf & _).
    exists st'. split; [exact Hpass|]. split; [exact Hr|exact Hf].
  - destruct (Hex "0101000001" "9801" [("0101000001", "9802")]
                (stopped_with [("aaaa", "t1"); ("bbbb", "t2")])
                ("aaaa", "t1") ("bbbb", "t2") [] ok_body
                [LogParse "Unable to extract major from json"] ok_record
                5%nat 2%nat
                eq_refl eq_refl eq_refl eq_refl eq_refl eq_refl eq_refl
                (le_S _ _ (le_S _ _ (le_S _ _ (le_n 2)))) (le_S _ _ (le_n 1)))%string
      as (st' & Hrun & Hres & Hfut & _).
    exists st'. split; [exact Hrun|]. split; [exact Hres|exact Hfut].
Defined.

Lemma invalid_ymob_moves_to_next_key_witness :
  exists st',
    try_body (remote_with_status (-4)) example_parse_json example_set
      ("0101000001", "9801")%string true ("aaaa", "t1")%string (running_with [])
    = NextKey ("aaaa", "t1")%string st' /\
    results st' = [].
Proof.
  destruct (invalid_ymob_moves_to_next_key (remote_with_status (-4))
              example_parse_json example_set "0101000001" "9801" true
              ("aaaa", "t1")%string (running_with []) "aaaa" "t1"
              (running_with []) eq_refl eq_refl)
    as (st' & Hpass & (_ & Hres & _) & _).
  exists st'. split; [exact Hpass|exact Hres].
Defined.

Lemma invalid_sid_abandons_task_witness :
  exists st',
    try_body (remote_with_status (-3)) example_parse_json example_set
      ("0101000001", "9801")%string true ("aaaa", "t1")%string (running_with [])
    = Stop Returned st' /\
    results st' = [] /\ futures st' = [].
Proof.
  destruct (invalid_sid_abandons_task (remote_with_status (-3))
              example_parse_json example_set "0101000001" "9801" true
              ("aaaa", "t1")%string (running_with []) "aaaa" "t1"
              (running_with []) eq_refl eq_refl)
    as (st' & Hpass & (_ & Hres & Hfut & _) & _).
  exists st'. split; [exact Hpass|]. split; [exact Hres|exact Hfut].
Defined.

Lemma unexpected_exception_retries_same_key_witness :
  exists st',
    try_body remote_without_code example_parse_json example_set
      ("0101000001", "9801")%string true ("aaaa", "t1")%string (running_with [])
    = Again true ("aaaa", "t1")%string st'.
Proof.
  destruct (unexpected_exception_retries_same_key remote_without_code
              example_parse_json example_set "0101000001" "9801" true
              ("aaaa", "t1")%string (running_with []) "aaaa" "t1"
              (running_with []) KeyError eq_refl eq_refl eq_refl eq_refl)
    as (st3 & _ & Hpass).
  eexists. exact Hpass.
Defined.

Lemma stopped_service_fetches_nothing_witness :
  fetch remote_status_0 example_parse_json 5 example_set
        (stopped_with [("aaaa", "t1")%string])
  = (Returned, stopped_with [("aaaa", "t1")%string]).
Proof.
  exact (stopped_service_fetches_nothing remote_status_0 example_parse_json 5
           example_set (stopped_with [("aaaa", "t1")%string]) eq_refl).
Defined.

End Fetch.

(** ** The captcha solver: [southocr/southocr.py] *)

Module Ocr.
Import PyExc.
#[local] Open Scope nat_scope.

(** A decoded image in PIL's sense: its [size] is [(width, height)] and
    [rows] holds the pixel values row by row, top to bottom.  Python
    [bytes] values (an image buffer, a digest) are byte strings. *)
Record Image := mkImage {
  size : nat * nat;
  rows : list (list Z)
}.

(** [px[x, y]] for [px = img.load()].  The solver reads only inside the
    image, where the default is never returned. *)
Definition px (img : Image) (x y : nat) : Z := nth x (nth y (rows img) []) 0%Z.

(** [img.point(f, mode='1')]. *)
Definition point (f : Z -> Z) (img : Image) : Image :=
  mkImage (size img) (map (map f) (rows img)).

(** [lambda x: 1 if x >= 160 else 0]. *)
Definition threshold (x : Z) : Z := if (160 <=? x)%Z then 1%Z else 0%Z.

(** [img.crop((left, upper, right, lower))] for a box inside the image. *)
Definition crop (img : Image) (left upper right lower : nat) : Image :=
  mkImage (right - left, lower - upper)
    (map (fun row => take (right - left) (drop left row))
         (take (lower - upper) (drop upper (rows img)))).

Inductive Stage := STAGE_SEARCHING_FOR_CHAR | STAGE_PROCESSING_CHAR.

Definition Box : Type := nat * nat.

(** [append_to_char_boxes_LR(lst, left, right)]. *)
Definition append_to_char_boxes_LR (lst : list Box) (left right : nat) : list Box :=
  if 8 <? right - left then          (* maximum char width == 8 *)
    let mid := (left + right) / 2 in
    lst ++ [(left, mid); (mid, right)]
  else lst ++ [(left, right)].

(** [char_boxes_UL.append((upper, lower))]. *)
Definition append_to_char_boxes_UL (lst : list Box) (upper lower : nat) : list Box :=
  lst ++ [(upper, lower)].

(** The inner loop over a column: is some [px[x, y] == 0] for
    [y in range(img_height)]? *)
Definition column_has_ink (img : Image) (img_height x : nat) : bool :=
  existsb (fun y => (px img x y =? 0)%Z) (seq 0 img_height).

(** The inner loop over a row: is some [px[x, y] == 0] for
    [x in range(left, right)]? *)
Definition row_has_ink (img : Image) (left right y : nat) : bool :=
  existsb (fun x => (px img x y =? 0)%Z) (seq left (right - left)).

(** One turn of either outer loop of [solve] (lines 95-114 and 123-141, which
    differ in the line scanned and in the box appended): position [i] of [n],
    [has_ink i] tells whether the inner loop found a black pixel. *)
Definition scan_step (has_ink : nat -> bool) (n : nat)
    (append : list Box -> nat -> nat -> list Box)
    (s : Stage * nat * list Box) (i : nat) : Stage * nat * list Box :=
  let '(stage, first, boxes) := s in
  let empty := negb (has_ink i) in
  let '(stage, first) :=
    match empty, stage with
    | false, STAGE_SEARCHING_FOR_CHAR => (STAGE_PROCESSING_CHAR, i)
    | _, _ => (stage, first)
    end in
  match stage with
  | STAGE_PROCESSING_CHAR =>
      if empty then (STAGE_SEARCHING_FOR_CHAR, first, append boxes first i)
      else if i =? n - 1 then (STAGE_SEARCHING_FOR_CHAR, first, append boxes first n)
      else (stage, first, boxes)
  | STAGE_SEARCHING_FOR_CHAR => (stage, first, boxes)
  end.

(** The first loop of [solve]: left and right boundary of each char. *)
Definition scan_columns (img : Image) (img_width img_height : nat) : list Box :=
  (fold_left (scan_step (column_has_ink img img_height) img_width append_to_char_boxes_LR)
             (seq 0 img_width) (STAGE_SEARCHING_FOR_CHAR, 0, [])).2.

(** The second loop of [solve]: for each box, upper and lower boundary;
    [stage], [upper] and the list live across the boxes. *)
Definition scan_rows (img : Image) (img_height : nat) (char_boxes_LR : list Box)
  : list Box :=
  (fold_left
     (fun s (box : Box) =>
        fold_left (scan_step (row_has_ink img box.1 box.2) img_height
                     append_to_char_boxes_UL)
                  (seq 0 img_height) s)
     char_boxes_LR (STAGE_SEARCHING_FOR_CHAR, 0, [])).2.

(** [+1] when both pixels are black, [-1] when they differ. *)
Definition pixel_score (cdxy sdxy : Z) : Z :=
  if (cdxy =? sdxy)%Z then (if (cdxy =? 0)%Z then 1 else 0)%Z else (-1)%Z.

(** The two nested loops over [x in range(cwidth)], [y in range(cheight)];
    both branches of [calculate_similarity] read [cdata[x, y]] and
    [sdata[x, y]], whatever the offsets are. *)
Definition overlay_score (cdata sdata : Image) (cwidth cheight : nat) : Z :=
  fold_left
    (fun score x =>
       fold_left (fun score y => (score + pixel_score (px cdata x y) (px sdata x y))%Z)
                 (seq 0 cheight) score)
    (seq 0 cwidth) 0%Z.

(** [max(l)] and [max(l, key=...)]: the first of the largest elements;
    [ValueError] on an empty list. *)
Fixpoint max_from {A} (key : A -> Z) (best : A) (l : list A) : A :=
  match l with
  | [] => best
  | x :: l' => max_from key (if (key best <? key x)%Z then x else best) l'
  end.

Definition py_max {A} (key : A -> Z) (l : list A) : exc_class + A :=
  match l with
  | [] => inl ValueError
  | x :: l' => inr (max_from key x l')
  end.

(** [calculate_similarity(cdata, csize, sdata, ssize)]. *)
Definition calculate_similarity (cdata : Image) (csize : nat * nat)
    (sdata : Image) (ssize : nat * nat) : exc_class + Z :=
  let '(cwidth, cheight) := csize in
  let '(swidth, sheight) := ssize in
  if decide (csize = ssize) then inr (overlay_score cdata sdata cwidth cheight)
  else if (swidth <? cwidth) || (sheight <? cheight) then inr (-100)%Z
  else
    py_max id
      (flat_map (fun xoffset =>
                   map (fun yoffset => overlay_score cdata sdata cwidth cheight)
                       (seq 0 (sheight - cheight + 1)))
                (seq 0 (swidth - cwidth + 1))).

(** An item of [samples]: [(char_name, data, size)]. *)
Record Sample := mkSample {
  char_name : string;
  sdata : Image;
  ssize : nat * nat
}.

(** How one glyph is scored against one sample; [calculate_similarity] in
    the program. *)
Definition Similarity : Type :=
  Image -> nat * nat -> Image -> nat * nat -> exc_class + Z.

Fixpoint score_all (similarity : Similarity) (cimg : Image) (samples : list Sample)
  : exc_class + list (Z * string) :=
  match samples with
  | [] => inr []
  | s :: rest =>
      match similarity cimg (size cimg) (sdata s) (ssize s) with
      | inl e => inl e
      | inr score =>
          match score_all similarity cimg rest with
          | inl e => inl e
          | inr l => inr ((score, char_name s) :: l)
          end
      end
  end.

(** [visual_recognise_char_img(cimg)], with the scoring function named. *)
Definition visual_recognise_with (similarity : Similarity) (samples : list Sample)
    (cimg : Image) : exc_class + string :=
  match score_all similarity cimg samples with
  | inl e => inl e
  | inr score_list =>
      match py_max fst score_list with
      | inl e => inl e
      | inr best => inr best.2
      end
  end.

Definition visual_recognise_char_img (samples : list Sample) (cimg : Image)
  : exc_class + string :=
  visual_recognise_with calculate_similarity samples cimg.

(** [if res:] for the value [sample_hashmap.get(sha1)] returned. *)
Definition truthy (res : option string) : bool :=
  match res with
  | Some (String _ _) => true
  | _ => false
  end.

(** *** The segmentation in the words of the specification *)

(** The maximal runs of positions [i <= j < i + k] with [f j = true], as
    half-open spans; [cur] is the start of the run position [i] continues. *)
Fixpoint runs_aux (f : nat -> bool) (cur : option nat) (i k : nat) : list Box :=
  match k with
  | O => match cur with Some first => [(first, i)] | None => [] end
  | S k' =>
      match cur, f i with
      | None, false => runs_aux f None (S i) k'
      | None, true => runs_aux f (Some i) (S i) k'
      | Some first, true => runs_aux f (Some first) (S i) k'
      | Some first, false => (first, i) :: runs_aux f None (S i) k'
      end
  end.

Definition maximal_runs (f : nat -> bool) (n : nat) : list Box := runs_aux f None 0 n.

(** [[first, last)] is a maximal run of [f] below [n]. *)
Definition is_maximal_run (f : nat -> bool) (n : nat) (b : Box) : Prop :=
  b.1 < b.2 <= n /\
  (forall j, b.1 <= j < b.2 -> f j = true) /\
  (forall j, S j = b.1 -> f j = false) /\
  (b.2 < n -> f b.2 = false).

(** The span [b] continues the run that is open at position [i]. *)
Definition continues (f : nat -> bool) (first i n : nat) (b : Box) : Prop :=
  b.1 = first /\ i <= b.2 <= n /\
  (forall j, i <= j < b.2 -> f j = true) /\ (b.2 < n -> f b.2 = false).

(** The span [b] starts at or after position [i]. *)
Definition starts (f : nat -> bool) (cur : option nat) (i n : nat) (b : Box) : Prop :=
  i <= b.1 /\ b.1 < b.2 <= n /\
  (forall j, b.1 <= j < b.2 -> f j = true) /\
  (forall j, i <= j -> S j = b.1 -> f j = false) /\
  (b.1 = i -> cur = None) /\ (b.2 < n -> f b.2 = false).

(** The span [a] ends before the span [b] begins. *)
Definition apart (a b : Box) : Prop := a.2 < b.1.

(** The glyph-column spans: maximal runs of columns that contain ink. *)
Definition ink_column_spans (img : Image) : list Box :=
  maximal_runs (column_has_ink img (size img).2) (size img).1.

(** A span wider than 8 px is split at its midpoint. *)
Definition split_wide (b : Box) : list Box :=
  if 8 <? b.2 - b.1 then [(b.1, (b.1 + b.2) / 2); ((b.1 + b.2) / 2, b.2)] else [b].

(** The vertical extents of the ink inside one column span. *)
Definition ink_row_spans (img : Image) (b : Box) : list Box :=
  maximal_runs (row_has_ink img b.1 b.2) (size img).2.

(** *** Concrete images and samples for the examples *)

(** One bit per pixel, the leftmost pixel in the most significant bit, each
    row padded to whole bytes: the buffer of a bilevel image. *)
Definition pack_byte (ps : list Z) : Ascii.ascii :=
  Ascii.ascii_of_nat
    (fold_left (fun acc p => 2 * acc + (if (p =? 0)%Z then 0 else 1))
               (ps ++ replicate (8 - length ps) 0%Z) 0).

Fixpoint pack_row (fuel : nat) (row : list Z) : string :=
  match fuel, row with
  | S fuel', _ :: _ => String (pack_byte (take 8 row)) (pack_row fuel' (drop 8 row))
  | _, _ => EmptyString
  end.

Definition tobytes_bilevel (img : Image) : string :=
  String.concat "" (map (fun row => pack_row (length row) row) (rows img)).

(** A stand-in for the digest in the examples: the buffer itself. *)
Definition digest_id (buffer : string) : string := buffer.

(** A row of luminance values: [n] black pixels, [n] white pixels. *)
Definition black (n : nat) : list Z := replicate n 0%Z.
Definition white (n : nat) : list Z := replicate n 255%Z.

(** Four glyphs one pixel wide, one pixel apart. *)
Definition four_glyphs : Image :=
  mkImage (8, 1) [black 1 ++ white 1 ++ black 1 ++ white 1 ++
                  black 1 ++ white 1 ++ black 1 ++ white 1].

(** Two runs of ink, each ten pixels wide. *)
Definition two_wide_runs : Image :=
  mkImage (22, 1) [black 10 ++ white 1 ++ black 10 ++ white 1].

(** A run of ink twenty pixels wide and two runs one pixel wide. *)
Definition one_wide_run : Image :=
  mkImage (25, 1) [black 20 ++ white 1 ++ black 1 ++ white 1 ++ black 1 ++ white 1].

Definition dot : Image := mkImage (1, 1) [[0%Z]].
Definition bar5 : Image := mkImage (5, 1) [black 5].

Definition files_7 : list (string * Image) := [("7.png"%string, dot)].
Definition files_a : list (string * Image) := [("a.png"%string, bar5)].
Definition files_ab : list (string * Image) :=
  [("a.png"%string, bar5); ("b.png"%string, bar5)].

(** Four glyphs of 5 x 7 pixels (0 is ink, 1 is background), a challenge
    image that shows them side by side with gaps of two pixels and a margin
    of one pixel, and the same image with one pixel of the first glyph
    flipped. *)
Definition glyph_1 : list (list Z) :=
  [[1;1;0;1;1]; [1;0;0;1;1]; [0;1;0;1;1]; [1;1;0;1;1]; [1;1;0;1;1]; [1;1;0;1;1];
   [0;0;0;0;0]]%Z.
Definition glyph_2 : list (list Z) :=
  [[1;0;0;0;1]; [0;1;1;1;0]; [1;1;1;1;0]; [1;1;1;0;1]; [1;1;0;1;1]; [1;0;1;1;1];
   [0;0;0;0;0]]%Z.
Definition glyph_3 : list (list Z) :=
  [[0;0;0;0;1]; [1;1;1;1;0]; [1;1;1;1;0]; [1;0;0;0;1]; [1;1;1;1;0]; [1;1;1;1;0];
   [0;0;0;0;1]]%Z.
Definition glyph_4 : list (list Z) :=
  [[1;1;1;0;1]; [1;1;0;0;1]; [1;0;1;0;1]; [0;1;1;0;1]; [0;0;0;0;0]; [1;1;1;0;1];
   [1;1;1;0;1]]%Z.

Definition luminance (rs : list (list Z)) : list (list Z) :=
  map (map (fun v => if (v =? 0)%Z then 0%Z else 255%Z)) rs.

Definition beside (a b : list (list Z)) : list (list Z) := zip_with app a b.

Definition gap (width : nat) : list (list Z) := replicate 7 (white width).

Definition challenge_rows (first : list (list Z)) : list (list Z) :=
  [white 28] ++
  beside (gap 1) (beside (luminance first) (beside (gap 2)
    (beside (luminance glyph_2) (beside (gap 2) (beside (luminance glyph_3)
      (beside (gap 2) (beside (luminance glyph_4) (gap 1)))))))) ++
  [white 28].

Definition challenge_1234 : Image := mkImage (28, 9) (challenge_rows glyph_1).

Definition glyph_1_noisy : list (list Z) :=
  [[1;1;0;1;1]; [1;0;0;1;1]; [0;1;0;1;1]; [1;1;0;1;1]; [1;1;0;1;0]; [1;1;0;1;1];
   [0;0;0;0;0]]%Z.

Definition challenge_noisy : Image := mkImage (28, 9) (challenge_rows glyph_1_noisy).

Definition files_1234 : list (string * Image) :=
  [("1.png", mkImage (5, 7) glyph_1); ("2.png", mkImage (5, 7) glyph_2);
   ("3.png", mkImage (5, 7) glyph_3); ("4.png", mkImage (5, 7) glyph_4)]%string.

(** A scoring function that raises whenever it is called. *)
Definition raising_similarity : Similarity := fun _ _ _ _ => inl RuntimeError.

(** A glyph 2 px wide, a sample 1 px wide and a sample of the glyph's size. *)
Definition glyph_2x1 : Image := mkImage (2, 1) [[0%Z; 0%Z]].
Definition sample_small : Sample := mkSample "s" dot (1, 1).
Definition sample_equal : Sample := mkSample "e" glyph_2x1 (2, 1).

(** A glyph of 11 x 11 black pixels and a sample of that size, all white. *)
Definition glyph_11x11 : Image := mkImage (11, 11) (replicate 11 (black 11)).
Definition sample_white : Sample :=
  mkSample "w" (mkImage (11, 11) (replicate 11 (replicate 11 1%Z))) (11, 11).

Section Solver.

(** The image as the caller has it, and PIL's [convert('L')]. *)
Variable RawImage : Type.
Variable convert_L : RawImage -> Image.

(** PIL's [img.tobytes()] and [hashlib.sha1(...).digest()]. *)
Variable tobytes : Image -> string.
Variable sha1 : string -> string.

(** The files [os.walk('southocr/samples')] yields, in order: name and
    decoded image. *)
Variable files : list (string * Image).

(** [fle[:1]]. *)
Definition label_of (fle : string) : string := String.substring 0 1 fle.

(** One turn of the module-level loop that fills [samples] and
    [sample_hashmap], and the loop over the files [fs]. *)
Definition load_sample (acc : list Sample * gmap string string)
    (file : string * Image) : list Sample * gmap string string :=
  (acc.1 ++ [mkSample (label_of file.1) file.2 (size file.2)],
   <[sha1 (tobytes file.2) := label_of file.1]> acc.2).

Definition load_samples (fs : list (string * Image))
  : list Sample * gmap string string :=
  fold_left load_sample fs ([], ∅).

Definition samples : list Sample := (load_samples files).1.
Definition sample_hashmap : gmap string string := (load_samples files).2.

(** The quick match of one glyph: [sample_hashmap.get(sha1(cimg.tobytes()))]. *)
Definition quick_match (cimg : Image) : option string :=
  sample_hashmap !! sha1 (tobytes cimg).

(** One turn of the last loop of [solve]: a hit of the quick match stays,
    anything else is recognised visually. *)
Definition resolve_with (similarity : Similarity) (cimg : Image)
    (res : option string) : exc_class + string :=
  match res with
  | Some (String a s) => inr (String a s)
  | _ => visual_recognise_with similarity samples cimg
  end.

Fixpoint resolve_all (similarity : Similarity) (l : list (Image * option string))
  : exc_class + list string :=
  match l with
  | [] => inr []
  | (cimg, res) :: rest =>
      match resolve_with similarity cimg res with
      | inl e => inl e
      | inr c =>
          match resolve_all similarity rest with
          | inl e => inl e
          | inr cs => inr (c :: cs)
          end
      end
  end.

(** The image [solve] works on after its first two lines. *)
Definition binarize (img : RawImage) : Image := point threshold (convert_L img).

(** The loop that crops all characters out. *)
Definition crop_all (img : Image) (char_boxes_LR char_boxes_UL : list Box)
  : list Image :=
  map (fun b : Box * Box => crop img b.1.1 b.2.1 b.1.2 b.2.2)
      (zip char_boxes_LR char_boxes_UL).

(** [solve(img)], with the scoring function named: [inr None] is the
    [return None] of the program, [inl e] an exception that leaves it. *)
Definition solve_with (similarity : Similarity) (img : RawImage)
  : exc_class + option string :=
  let img := binarize img in
  let '(img_width, img_height) := size img in
  let char_boxes_LR := scan_columns img img_width img_height in
  if negb (length char_boxes_LR =? 4) then inr None
  else
    let char_boxes_UL := scan_rows img img_height char_boxes_LR in
    if negb (length char_boxes_UL =? 4) then inr None
    else
      let char_images := crop_all img char_boxes_LR char_boxes_UL in
      let result_list := map quick_match char_images in
      match resolve_all similarity (zip char_images result_list) with
      | inl e => inl e
      | inr result_list => inr (Some (String.concat "" result_list))
      end.

Definition solve (img : RawImage) : exc_class + option string :=
  solve_with calculate_similarity img.

(** *** What the lemmas below speak of *)

(** The run a scanning loop is inside of, read off its [stage]. *)
Definition open_run (stage : Stage) (first : nat) : option nat :=
  match stage with
  | STAGE_PROCESSING_CHAR => Some first
  | STAGE_SEARCHING_FOR_CHAR => None
  end.

(** The score of a glyph against a sample, as a number. *)
Definition similarity_score (cimg : Image) (s : Sample) : Z :=
  match calculate_similarity cimg (size cimg) (sdata s) (ssize s) with
  | inr score => score
  | inl _ => 0%Z
  end.

(** The key under which a sample file enters [sample_hashmap], and the
    item it adds to [samples]. *)
Definition digest_of (file : string * Image) : string := sha1 (tobytes file.2).

Definition sample_of (file : string * Image) : Sample :=
  mkSample (label_of file.1) file.2 (size file.2).

(** [l] is the name of one of the samples. *)
Definition is_label (l : string) : Prop :=
  exists file, In file files /\ l = label_of file.1.

(** The glyphs [solve] crops out of an image. *)
Definition glyphs (img : RawImage) : list Image :=
  let bin := binarize img in
  let char_boxes_LR := scan_columns bin (size bin).1 (size bin).2 in
  crop_all bin char_boxes_LR (scan_rows bin (size bin).2 char_boxes_LR).

(** *** The scanning loops compute the maximal runs *)

Lemma scan_step_runs f n append (g : Box -> list Box) :
  (forall lst a b, append lst a b = lst ++ g (a, b)) ->
  forall k i stage first boxes,
    i + k = n -> (k = 0 -> stage = STAGE_SEARCHING_FOR_CHAR) ->
    let out := fold_left (scan_step f n append) (seq i k) (stage, first, boxes) in
    out.1.1 = STAGE_SEARCHING_FOR_CHAR /\
    out.2 = boxes ++ flat_map g (runs_aux f (open_run stage first) i k).
Proof.
  intros Happ. induction k as [|k IH]; intros i stage first boxes Hn Hk; simpl.
  - rewrite (Hk eq_refl). simpl. by rewrite app_nil_r.
  - assert (Hlast : (i =? n - 1) = bool_decide (k = 0)).
    { case_bool_decide; [apply Nat.eqb_eq|apply Nat.eqb_neq]; lia. }
    destruct stage, (f i) eqn:Hf; simpl; rewrite ?Hf; simpl; rewrite ?Hlast.
    + destruct k as [|k]; simpl.
      * rewrite Happ. split; [done|]. simpl. rewrite app_nil_r.
        by replace n with (S i) by lia.
      * apply (IH (S i) STAGE_PROCESSING_CHAR i boxes); [lia|discriminate].
    + apply (IH (S i) STAGE_SEARCHING_FOR_CHAR first boxes); [lia|done].
    + destruct k as [|k]; simpl.
      * rewrite Happ. split; [done|]. simpl. rewrite app_nil_r.
        by replace n with (S i) by lia.
      * apply (IH (S i) STAGE_PROCESSING_CHAR first boxes); [lia|discriminate].
    + rewrite Happ.
      destruct (IH (S i) STAGE_SEARCHING_FOR_CHAR first (boxes ++ g (first, i)))
        as [H1 H2]; [lia|done|].
      split; [exact H1|]. rewrite H2. simpl. by rewrite <- app_assoc.
Qed.

Lemma scan_columns_runs img :
  scan_columns img (size img).1 (size img).2
  = flat_map split_wide (ink_column_spans img).
Proof.
  unfold scan_columns, ink_column_spans, maximal_runs.
  destruct (scan_step_runs (column_has_ink img (size img).2) (size img).1
              append_to_char_boxes_LR split_wide) with
    (k := (size img).1) (i := 0) (stage := STAGE_SEARCHING_FOR_CHAR)
    (first := 0) (boxes := @nil Box) as [_ H]; [|done|done|exact H].
  intros lst a b. unfold append_to_char_boxes_LR, split_wide. simpl.
  by destruct (8 <? b - a).
Qed.

Lemma scan_rows_runs img char_boxes_LR :
  scan_rows img (size img).2 char_boxes_LR
  = flat_map (ink_row_spans img) char_boxes_LR.
Proof.
  unfold scan_rows.
  enough (H : forall first boxes,
             let out :=
               fold_left
                 (fun s (box : Box) =>
                    fold_left (scan_step (row_has_ink img box.1 box.2) (size img).2
                                 append_to_char_boxes_UL)
                              (seq 0 (size img).2) s)
                 char_boxes_LR (STAGE_SEARCHING_FOR_CHAR, first, boxes) in
             out.2 = boxes ++ flat_map (ink_row_spans img) char_boxes_LR)
    by apply (H 0 []).
  induction char_boxes_LR as [|box rest IH]; intros first boxes; simpl.
  - by rewrite app_nil_r.
  - destruct (scan_step_runs (row_has_ink img box.1 box.2) (size img).2
                append_to_char_boxes_UL (fun b => [b])) with
      (k := (size img).2) (i := 0) (stage := STAGE_SEARCHING_FOR_CHAR)
      (first := first) (boxes := boxes) as [H1 H2]; [done|done|done|].
    destruct (fold_left _ (seq 0 (size img).2) _) as [[stage first'] boxes'].
    simpl in H1, H2. subst stage boxes'. rewrite IH.
    rewrite <- app_assoc. f_equal. f_equal.
    unfold ink_row_spans, maximal_runs. simpl.
    induction (runs_aux _ _ _ _) as [|b l IHl]; simpl; [done|by rewrite IHl].
Qed.

(** *** Scoring and the choice of the best sample *)

Lemma max_from_spec {A} (key : A -> Z) (l : list A) : forall best,
  let m := max_from key best l in
  (m = best \/ In m l) /\ (key best <= key m)%Z /\
  (forall x, In x l -> (key x <= key m)%Z).
Proof.
  induction l as [|x l IH]; intros best; simpl.
  - split; [by left|]. split; [lia|tauto].
  - destruct (IH (if (key best <? key x)%Z then x else best)) as (Hin & Hle & Hall).
    destruct (Z.ltb_spec (key best) (key x)).
    + split; [destruct Hin as [->|?]; auto|]. split; [lia|].
      intros y [<-|Hy]; [lia|auto].
    + split; [destruct Hin as [->|?]; auto|]. split; [lia|].
      intros y [<-|Hy]; [lia|auto].
Qed.

Lemma py_max_spec {A} (key : A -> Z) (l : list A) m :
  py_max key l = inr m -> In m l /\ forall x, In x l -> (key x <= key m)%Z.
Proof.
  destruct l as [|x l]; [discriminate|]. intros [= <-].
  destruct (max_from_spec key l x) as (Hin & Hle & Hall).
  split; [destruct Hin as [->|?]; simpl; auto|].
  intros y [<-|Hy]; [done|auto].
Qed.

Lemma calculate_similarity_total cdata csize sdata ssize :
  exists score, calculate_similarity cdata csize sdata ssize = inr score.
Proof.
  unfold calculate_similarity.
  destruct csize as [cwidth cheight], ssize as [swidth sheight].
  destruct (decide _); [eauto|].
  destruct (_ || _); [eauto|].
  rewrite !Nat.add_1_r. simpl. eauto.
Qed.

Lemma score_all_calculate cimg smpls :
  score_all calculate_similarity cimg smpls
  = inr (map (fun s => (similarity_score cimg s, char_name s)) smpls).
Proof.
  induction smpls as [|s rest IH]; simpl; [done|].
  unfold similarity_score at 1.
  destruct (calculate_similarity_total cimg (size cimg) (sdata s) (ssize s))
    as [score ->].
  by rewrite IH.
Qed.

(** The visual recognition returns the name of a sample whose score no
    sample exceeds; it raises [ValueError] when there is no sample. *)
Lemma visual_recognise_best smpls cimg :
  smpls <> [] ->
  exists w, In w smpls /\
            visual_recognise_char_img smpls cimg = inr (char_name w) /\
            forall x, In x smpls -> (similarity_score cimg x <= similarity_score cimg w)%Z.
Proof.
  intros Hne. unfold visual_recognise_char_img, visual_recognise_with.
  rewrite score_all_calculate.
  destruct (py_max fst _) as [e|best] eqn:Hmax.
  - destruct smpls; [done|discriminate].
  - apply py_max_spec in Hmax as [Hin Hall].
    apply in_map_iff in Hin as (w & <- & Hw).
    exists w. split; [done|]. split; [done|].
    intros x Hx. apply (Hall (similarity_score cimg x, char_name x)).
    apply in_map_iff. eauto.
Qed.

(** C4 (as the code has it). A sample that the glyph exceeds in width or in
    height is scored with exactly -100; whenever some sample scores above
    -100, the name returned is the name of a sample that scores above -100
    and that no sample exceeds, so the oversized sample is not the one
    chosen. *)
Theorem oversized_sample_scores_sentinel smpls cimg s :
  In s smpls ->
  (ssize s).1 < (size cimg).1 \/ (ssize s).2 < (size cimg).2 ->
  calculate_similarity cimg (size cimg) (sdata s) (ssize s) = inr (-100)%Z /\
  (forall s', In s' smpls -> (-100 < similarity_score cimg s')%Z ->
     exists w, In w smpls /\
       visual_recognise_char_img smpls cimg = inr (char_name w) /\
       (similarity_score cimg s < similarity_score cimg w)%Z /\
       forall x, In x smpls ->
         (similarity_score cimg x <= similarity_score cimg w)%Z).
Proof.
  intros Hs Hbig.
  assert (Hsent : calculate_similarity cimg (size cimg) (sdata s) (ssize s)
                  = inr (-100)%Z).
  { unfold calculate_similarity.
    destruct (size cimg) as [cwidth cheight], (ssize s) as [swidth sheight].
    simpl in Hbig.
    destruct (decide _) as [[= -> ->]|_]; [lia|].
    destruct (Nat.ltb_spec swidth cwidth), (Nat.ltb_spec sheight cheight);
      simpl; [done..|lia]. }
  split; [exact Hsent|]. intros s' Hs' Hscore.
  destruct (visual_recognise_best smpls cimg) as (w & Hw & Hres & Hall);
    [by destruct smpls|].
  exists w. split; [done|]. split; [done|]. split; [|done].
  specialize (Hall s' Hs'). unfold similarity_score at 1. rewrite Hsent. lia.
Qed.

(** *** The samples and the hash table *)

Lemma load_samples_snoc fs file :
  load_samples (fs ++ [file]) = load_sample (load_samples fs) file.
Proof. unfold load_samples. by rewrite fold_left_app. Qed.

Lemma load_samples_list fs : (load_samples fs).1 = map sample_of fs.
Proof.
  induction fs as [|file fs IH] using rev_ind; [done|].
  rewrite load_samples_snoc, map_app. simpl. by rewrite IH.
Qed.

(** The table maps a digest to the name of the last file that has it. *)
Lemma load_samples_lookup fs d :
  (load_samples fs).2 !! d = None /\ Forall (fun g => digest_of g <> d) fs \/
  exists pre file post,
    fs = pre ++ file :: post /\ digest_of file = d /\
    Forall (fun g => digest_of g <> d) post /\
    (load_samples fs).2 !! d = Some (label_of file.1).
Proof.
  induction fs as [|file fs IH] using rev_ind; [left; split; [done|constructor]|].
  rewrite load_samples_snoc. simpl.
  destruct (decide (digest_of file = d)) as [Heq|Hne].
  - right. exists fs, file, []. split; [done|]. split; [done|].
    split; [constructor|]. unfold digest_of in Heq. rewrite Heq.
    apply lookup_insert_eq.
  - rewrite lookup_insert_ne by exact Hne.
    destruct IH as [[Hnone Hall]|(pre & f & post & -> & Hd & Hall & Hget)].
    + left. split; [done|]. apply Forall_app; split; [done|by constructor].
    + right. exists pre, f, (post ++ [file]). rewrite <- app_assoc. simpl.
      split; [done|]. split; [done|]. split; [|done].
      apply Forall_app; split; [done|by constructor].
Qed.

Lemma label_of_length fle : fle <> ""%string -> String.length (label_of fle) = 1.
Proof. destruct fle as [|a fle]; [done|]. intros _. by destruct fle. Qed.

Lemma quick_match_label cimg l : quick_match cimg = Some l -> is_label l.
Proof.
  unfold quick_match, sample_hashmap. intros Hget.
  destruct (load_samples_lookup files (sha1 (tobytes cimg)))
    as [[Hnone _]|(pre & file & post & Hfs & _ & _ & Hsome)]; [congruence|].
  exists file. split; [rewrite Hfs; apply in_elt|congruence].
Qed.

Lemma resolve_label cimg :
  files <> [] ->
  exists l, resolve_with calculate_similarity cimg (quick_match cimg) = inr l /\
            is_label l.
Proof.
  intros Hne. unfold resolve_with.
  destruct (quick_match cimg) as [[|a l]|] eqn:Hq;
    try (destruct (visual_recognise_best samples cimg) as (w & Hw & Hres & _);
         [unfold samples; rewrite load_samples_list; by destruct files|];
         exists (char_name w); split; [exact Hres|];
         unfold samples in Hw; rewrite load_samples_list in Hw;
         apply in_map_iff in Hw as (file & <- & Hfile); by exists file).
  exists (String a l). split; [done|]. by apply (quick_match_label cimg).
Qed.

Lemma resolve_all_labels imgs :
  files <> [] ->
  exists ls, resolve_all calculate_similarity (zip imgs (map quick_match imgs)) = inr ls /\
             length ls = length imgs /\ Forall is_label ls.
Proof.
  intros Hne. induction imgs as [|cimg imgs (ls & Hres & Hlen & Hall)]; simpl.
  - exists []. auto.
  - destruct (resolve_label cimg Hne) as (l & Hl1 & Hl). rewrite Hl1, Hres.
    exists (l :: ls). simpl. auto.
Qed.

Lemma string_length_app (a b : string) :
  String.length (a ++ b) = String.length a + String.length b.
Proof. induction a as [|c a IH]; simpl; [done|by rewrite IH]. Qed.

Lemma concat_unit_length (ls : list string) :
  Forall (fun l => String.length l = 1) ls ->
  String.length (String.concat "" ls) = length ls.
Proof.
  induction 1 as [|l ls Hl _ IH]; [done|].
  destruct ls as [|l' ls]; [exact Hl|].
  change (String.concat "" (l :: l' :: ls))
    with (l ++ "" ++ String.concat "" (l' :: ls))%string.
  by rewrite !string_length_app, Hl, IH.
Qed.

Lemma crop_all_length img lr ul :
  length (crop_all img lr ul) = Nat.min (length lr) (length ul).
Proof. unfold crop_all. by rewrite length_map, length_zip_with. Qed.

Lemma split_wide_narrow (spans : list Box) :
  Forall (fun b : Box => b.2 - b.1 <= 8) spans ->
  flat_map split_wide spans = spans.
Proof.
  induction 1 as [|b l Hb _ IH]; [done|]. simpl. rewrite IH.
  unfold split_wide. destruct (Nat.ltb_spec 8 (b.2 - b.1)); [lia|done].
Qed.

Lemma solve_returns_code img :
  files <> [] ->
  Forall (fun file => file.1 <> ""%string) files ->
  let bin := binarize img in
  let boxes := flat_map split_wide (ink_column_spans bin) in
  length boxes = 4 ->
  length (flat_map (ink_row_spans bin) boxes) = 4 ->
  exists code, solve img = inr (Some code) /\ String.length code = 4.
Proof.
  intros Hne Hnames bin boxes Hb Hr.
  unfold solve, solve_with. fold bin.
  pose proof (scan_columns_runs bin) as Hcols.
  pose proof (scan_rows_runs bin boxes) as Hrows.
  destruct (size bin) as [img_width img_height] eqn:Hsize. simpl in Hcols, Hrows.
  rewrite Hcols. fold boxes. rewrite Hrows, Hb, Hr. simpl.
  destruct (resolve_all_labels
              (crop_all bin boxes (flat_map (ink_row_spans bin) boxes)) Hne)
    as (ls & -> & Hlen & Hall).
  exists (String.concat "" ls). split; [done|].
  rewrite concat_unit_length.
  - by rewrite Hlen, crop_all_length, Hb, Hr.
  - eapply Forall_impl; [exact Hall|].
    intros l (file & Hin & ->). apply label_of_length.
    rewrite Forall_forall in Hnames. apply Hnames. by apply list_elem_of_In.
Qed.

Lemma solve_returns_none img :
  let bin := binarize img in
  let boxes := flat_map split_wide (ink_column_spans bin) in
  length boxes <> 4 \/ length (flat_map (ink_row_spans bin) boxes) <> 4 ->
  solve img = inr None.
Proof.
  intros bin boxes Hno.
  unfold solve, solve_with. fold bin.
  pose proof (scan_columns_runs bin) as Hcols.
  pose proof (scan_rows_runs bin boxes) as Hrows.
  destruct (size bin) as [img_width img_height] eqn:Hsize. simpl in Hcols, Hrows.
  rewrite Hcols. fold boxes. rewrite Hrows.
  destruct (Nat.eqb_spec (length boxes) 4) as [Hb|Hb]; simpl; [|done].
  destruct (Nat.eqb_spec (length (flat_map (ink_row_spans bin) boxes)) 4)
    as [Hr|Hr]; simpl; [|done].
  by destruct Hno.
Qed.

(** C3 (as the code has it). With at least one sample file, and file names
    that are not empty: [solve] returns a string of four characters when the
    ink-column spans, each span wider than 8 px split at its midpoint, make
    exactly four boxes and the ink-row spans inside these boxes are four in
    all; for every other image it returns [None]. *)
Theorem solve_four_boxes img :
  files <> [] ->
  Forall (fun file => file.1 <> ""%string) files ->
  let bin := binarize img in
  let boxes := flat_map split_wide (ink_column_spans bin) in
  let row_spans := flat_map (ink_row_spans bin) boxes in
  if (length boxes =? 4) && (length row_spans =? 4)
  then exists code, solve img = inr (Some code) /\ String.length code = 4
  else solve img = inr None.
Proof.
  intros Hne Hnames bin boxes row_spans.
  destruct (Nat.eqb_spec (length boxes) 4) as [Hb|Hb]; simpl.
  - destruct (Nat.eqb_spec (length row_spans) 4) as [Hr|Hr].
    + by apply solve_returns_code.
    + apply solve_returns_none. by right.
  - apply solve_returns_none. by left.
Qed.

(** X3. Four ink-column spans, none wider than 8 px, with four ink-row
    spans in all, give a string of four characters. *)
Theorem solve_four_narrow_spans img :
  files <> [] ->
  Forall (fun file => file.1 <> ""%string) files ->
  let bin := binarize img in
  length (ink_column_spans bin) = 4 ->
  Forall (fun b : Box => b.2 - b.1 <= 8) (ink_column_spans bin) ->
  length (flat_map (ink_row_spans bin) (ink_column_spans bin)) = 4 ->
  exists code, solve img = inr (Some code) /\ String.length code = 4.
Proof.
  intros Hne Hnames bin Hlen Hnarrow Hrows.
  pose proof (split_wide_narrow _ Hnarrow) as Hsame.
  apply solve_returns_code; [done|done|..]; fold bin; by rewrite Hsame.
Qed.

(** C8 (as the code has it). When the pixel buffer of a glyph equals the
    buffer of a sample file, the quick match finds the name stored for that
    hash, and the glyph is resolved to it whatever the scoring function is
    (the scoring is not consulted): the name of the last file with that
    hash, which is the name of the sample itself whenever the files with
    that hash have the same name. *)
Theorem hash_hit_skips_scoring similarity cimg file :
  In file files ->
  tobytes cimg = tobytes file.2 ->
  Forall (fun g => g.1 <> ""%string) files ->
  exists pre last post,
    files = pre ++ last :: post /\
    digest_of last = sha1 (tobytes cimg) /\
    Forall (fun g => digest_of g <> sha1 (tobytes cimg)) post /\
    quick_match cimg = Some (label_of last.1) /\
    resolve_with similarity cimg (quick_match cimg) = inr (label_of last.1) /\
    ((forall g, In g files -> digest_of g = sha1 (tobytes cimg) ->
                label_of g.1 = label_of file.1) ->
     resolve_with similarity cimg (quick_match cimg) = inr (label_of file.1)).
Proof.
  intros Hin Hbytes Hnames.
  destruct (load_samples_lookup files (sha1 (tobytes cimg)))
    as [[_ Hall]|(pre & f & post & Hfs & Hd & Hall & Hget)].
  - exfalso. rewrite Forall_forall in Hall.
    apply (Hall file); [by apply list_elem_of_In|].
    unfold digest_of. by rewrite Hbytes.
  - assert (Hq : quick_match cimg = Some (label_of f.1)) by exact Hget.
    assert (Hres : resolve_with similarity cimg (quick_match cimg)
                   = inr (label_of f.1)).
    { rewrite Hq. unfold resolve_with.
      assert (Hlen : String.length (label_of f.1) = 1).
      { apply label_of_length. rewrite Forall_forall in Hnames.
        apply Hnames. rewrite Hfs. apply list_elem_of_In, in_elt. }
      by destruct (label_of f.1). }
    exists pre, f, post. split; [done|]. split; [done|]. split; [done|].
    split; [done|]. split; [done|].
    intros Hsame. rewrite Hres. f_equal. apply Hsame; [|done].
    rewrite Hfs. apply in_elt.
Qed.

Lemma resolve_all_hits similarity imgs :
  Forall (fun cimg => truthy (quick_match cimg) = true) imgs ->
  resolve_all similarity (zip imgs (map quick_match imgs))
  = resolve_all calculate_similarity (zip imgs (map quick_match imgs)).
Proof.
  induction 1 as [|cimg imgs Hhit _ IH]; simpl; [done|].
  rewrite IH. by destruct (quick_match cimg) as [[|a l]|].
Qed.

(** X4. When the quick match hits for every glyph of an image, [solve] does
    not depend on the scoring function. *)
Theorem solve_with_hits_ignores_scoring similarity img :
  Forall (fun cimg => truthy (quick_match cimg) = true) (glyphs img) ->
  solve_with similarity img = solve img.
Proof.
  intros Hhits. unfold solve, solve_with, glyphs in *.
  destruct (size (binarize img)) as [img_width img_height]. simpl in Hhits.
  repeat (destruct (negb _); [done|]).
  by rewrite (resolve_all_hits similarity _ Hhits).
Qed.

End Solver.

(** *** The maximal runs are the spans the specification describes *)

Section Runs.
Variable f : nat -> bool.

Ltac pointwise i :=
  intros; subst;
  first
    [ lia | done | congruence
    | match goal with
      | H : forall j, _ |- f _ = _ => apply H; lia
      end
    | match goal with
      | |- f ?j = _ =>
          destruct (decide (j = i)) as [->|];
          [ congruence
          | match goal with H : forall j, _ |- _ => apply H; lia end ]
      end ].

Ltac exclude i :=
  repeat match goal with
    | Hcur : ?l = ?x -> Some _ = None |- _ =>
        assert (l <> x) by (let E := fresh in intros E; by specialize (Hcur E));
        clear Hcur
    | Hfi : f i = true, Hbefore : forall j, _ <= j -> S j = ?l -> f j = false |- _ =>
        lazymatch goal with
        | _ : l <> S i |- _ => fail
        | _ => assert (l <> S i)
                 by (let E := fresh in intros E;
                     rewrite (Hbefore i) in Hfi by lia; discriminate)
        end
    | Hfi : f i = false, Hall : forall j, ?l <= j < ?r -> f j = true |- _ =>
        lazymatch goal with
        | _ : ~ (l <= i < r) |- _ => fail
        | _ => assert (~ (l <= i < r))
                 by (let E := fresh in intros E;
                     rewrite (Hall i) in Hfi by lia; discriminate)
        end
    end.

Lemma runs_aux_spec k : forall cur i b,
  In b (runs_aux f cur i k) <->
  (exists first, cur = Some first /\ continues f first i (i + k) b) \/
  starts f cur i (i + k) b.
Proof.
  induction k as [|k IH]; intros cur i [l r]; unfold continues, starts; simpl.
  - rewrite Nat.add_0_r. destruct cur as [first|]; simpl; split.
    + intros [[= <- <-]|[]]. left. exists first. repeat split; auto; lia.
    + intros [(x & [= <-] & Hl & ? & _)|?]; [left; f_equal; lia|lia].
    + intros [].
    + intros [(x & [=] & _)|?]. lia.
  - replace (i + S k) with (S i + k) by lia.
    destruct cur as [first|], (f i) eqn:Hfi; simpl; rewrite ?IH;
      unfold continues, starts; simpl.
    + (* inside a run, ink *)
      split.
      * intros [(x & [= <-] & Hl & Hr & Hall & Hend)|(Hl & Hlr & Hall & Hbefore & Hcur & Hend)].
        -- left. exists first. repeat split; try pointwise i.
        -- right. exclude i. repeat split; try pointwise i.
      * intros [(x & [= <-] & Hl & Hr & Hall & Hend)|(Hl & Hlr & Hall & Hbefore & Hcur & Hend)].
        -- left. exists first.
           assert (r <> i) by (intros ->; rewrite Hend in Hfi by lia; done).
           repeat split; try pointwise i.
        -- right. exclude i. repeat split; try pointwise i.
    + (* inside a run, no ink: the run ends here *)
      split.
      * intros [[= <- <-]|[(x & [=] & _)|(Hl & Hlr & Hall & Hbefore & Hcur & Hend)]].
        -- left. exists first. repeat split; try pointwise i.
        -- right. repeat split; try pointwise i.
      * intros [(x & [= <-] & Hl & Hr & Hall & Hend)|(Hl & Hlr & Hall & Hbefore & Hcur & Hend)].
        -- left. subst l. f_equal. destruct (decide (r = i)) as [->|]; [done|].
           rewrite (Hall i) in Hfi by lia. done.
        -- right. right. exclude i. repeat split; try pointwise i.
    + (* outside a run, ink: a run starts here *)
      split.
      * intros [(x & [= <-] & Hl & Hr & Hall & Hend)|(Hl & Hlr & Hall & Hbefore & Hcur & Hend)].
        -- right. repeat split; try pointwise i.
        -- right. exclude i. repeat split; try pointwise i.
      * intros [(x & [=] & _)|(Hl & Hlr & Hall & Hbefore & Hcur & Hend)].
        destruct (decide (l = i)) as [->|].
        -- left. exists i. repeat split; try pointwise i.
        -- right. exclude i. repeat split; try pointwise i.
    + (* outside a run, no ink *)
      split.
      * intros [(x & [=] & _)|(Hl & Hlr & Hall & Hbefore & Hcur & Hend)].
        right. repeat split; try pointwise i.
      * intros [(x & [=] & _)|(Hl & Hlr & Hall & Hbefore & Hcur & Hend)].
        right. exclude i. repeat split; try pointwise i.
Qed.

Lemma maximal_runs_spec n b :
  In b (maximal_runs f n) <-> is_maximal_run f n b.
Proof.
  unfold maximal_runs, is_maximal_run. rewrite runs_aux_spec.
  unfold starts. simpl. split.
  - intros [(x & [=] & _)|(Hl & Hlr & Hall & Hbefore & Hcur & Hend)].
    repeat split; auto; try lia. intros j Hj. apply Hbefore; [lia|done].
  - intros (Hlr & Hall & Hbefore & Hend). right. repeat split; auto; try lia.
Qed.

(** The runs come in increasing order, each one ending before the next
    begins: no run is listed twice. *)
Lemma runs_aux_sorted k : forall cur i,
  StronglySorted apart (runs_aux f cur i k).
Proof.
  induction k as [|k IH]; intros cur i; simpl.
  - destruct cur; repeat constructor.
  - destruct cur as [first|], (f i); try apply IH.
    constructor; [apply IH|]. apply List.Forall_forall. intros b Hb.
    apply runs_aux_spec in Hb as [(x & [=] & _)|(Hl & _)].
    unfold apart. simpl. lia.
Qed.

Lemma maximal_runs_sorted n : StronglySorted apart (maximal_runs f n).
Proof. apply runs_aux_sorted. Qed.

End Runs.

(** X1. The list of boxes the first loop of [solve] builds is the list of
    the maximal runs of ink columns, from left to right and each run once,
    in which a run wider than 8 px is replaced by its two halves. *)
Theorem column_boxes_are_split_maximal_runs img :
  scan_columns img (size img).1 (size img).2
  = flat_map split_wide (ink_column_spans img) /\
  StronglySorted apart (ink_column_spans img) /\
  (forall span,
     In span (ink_column_spans img) <->
     is_maximal_run (column_has_ink img (size img).2) (size img).1 span).
Proof.
  split; [apply scan_columns_runs|]. split; [apply maximal_runs_sorted|].
  intros span. apply maximal_runs_spec.
Qed.

(** X2. The list of boxes the second loop of [solve] builds is, for the
    column boxes in their order (a box that occurs twice counts twice), the
    list of the maximal runs of rows with ink inside the box, from top to
    bottom and each run once. *)
Theorem row_boxes_are_maximal_runs img char_boxes_LR :
  scan_rows img (size img).2 char_boxes_LR
  = flat_map (ink_row_spans img) char_boxes_LR /\
  (forall box,
     StronglySorted apart (ink_row_spans img box) /\
     (forall b,
        In b (ink_row_spans img box) <->
        is_maximal_run (row_has_ink img box.1 box.2) (size img).2 b)).
Proof.
  split; [apply scan_rows_runs|]. intros box.
  split; [apply maximal_runs_sorted|]. intros b. apply maximal_runs_spec.
Qed.

(** *** The examples *)

Lemma solve_four_boxes_witness :
  files_7 <> [] /\
  Forall (fun file : string * Image => file.1 <> ""%string) files_7 /\
  exists code,
    solve Image id tobytes_bilevel digest_id files_7 four_glyphs = inr (Some code) /\
    String.length code = 4.
Proof.
  split; [discriminate|]. split; [by repeat constructor|].
  exact (solve_four_boxes Image id tobytes_bilevel digest_id files_7 four_glyphs
           ltac:(discriminate) ltac:(by repeat constructor)).
Defined.

(** C3, counterexample. The binarized image has three ink-column spans, one
    of them twenty pixels wide; [solve] cuts that one in two, works on four
    boxes of which two are ten pixels wide, and returns a string of four
    characters, not [None]. *)
Lemma solve_splits_wide_runs :
  ink_column_spans (binarize Image id one_wide_run) = [(0, 20); (21, 22); (23, 24)] /\
  scan_columns (binarize Image id one_wide_run) 25 1
    = [(0, 10); (10, 20); (21, 22); (23, 24)] /\
  solve Image id tobytes_bilevel digest_id files_a one_wide_run
  = inr (Some "aaaa"%string).
Proof. repeat split; vm_compute; reflexivity. Qed.

Lemma oversized_sample_scores_sentinel_witness :
  In sample_small [sample_small; sample_equal] /\
  ((ssize sample_small).1 < (size glyph_2x1).1 \/
   (ssize sample_small).2 < (size glyph_2x1).2) /\
  calculate_similarity glyph_2x1 (size glyph_2x1) (sdata sample_small)
    (ssize sample_small) = inr (-100)%Z /\
  exists w, In w [sample_small; sample_equal] /\
    visual_recognise_char_img [sample_small; sample_equal] glyph_2x1
    = inr (char_name w) /\
    (similarity_score glyph_2x1 sample_small < similarity_score glyph_2x1 w)%Z.
Proof.
  assert (Hin : In sample_small [sample_small; sample_equal]) by (left; reflexivity).
  assert (Hbig : (ssize sample_small).1 < (size glyph_2x1).1 \/
                 (ssize sample_small).2 < (size glyph_2x1).2)
    by (left; simpl; lia).
  destruct (oversized_sample_scores_sentinel [sample_small; sample_equal]
              glyph_2x1 sample_small Hin Hbig) as [Hsent Hwin].
  destruct (Hwin sample_equal ltac:(right; left; reflexivity)
              ltac:(vm_compute; reflexivity)) as (w & Hw & Hres & Hlt & _).
  split; [exact Hin|]. split; [exact Hbig|]. split; [exact Hsent|].
  exists w. split; [exact Hw|]. split; [exact Hres|exact Hlt].
Defined.

(** C4, counterexample. A sample smaller than the glyph is the one chosen
    when it is the only sample, and also when the other sample has the
    glyph's size and scores -121, which is below the sentinel -100. *)
Lemma oversized_sample_wins :
  (ssize sample_small).1 < (size glyph_2x1).1 /\
  visual_recognise_char_img [sample_small] glyph_2x1 = inr (char_name sample_small) /\
  (ssize sample_small).1 < (size glyph_11x11).1 /\
  calculate_similarity glyph_11x11 (size glyph_11x11) (sdata sample_white)
    (ssize sample_white) = inr (-121)%Z /\
  visual_recognise_char_img [sample_white; sample_small] glyph_11x11
  = inr (char_name sample_small).
Proof. repeat split; vm_compute; reflexivity || lia. Qed.

Lemma hash_hit_skips_scoring_witness :
  In ("a.png"%string, bar5) files_a /\
  resolve_with tobytes_bilevel digest_id files_a raising_similarity bar5
    (quick_match tobytes_bilevel digest_id files_a bar5) = inr "a"%string.
Proof.
  assert (Hin : In ("a.png"%string, bar5) files_a) by (left; reflexivity).
  destruct (hash_hit_skips_scoring tobytes_bilevel digest_id files_a
              raising_similarity bar5 ("a.png"%string, bar5) Hin eq_refl
              ltac:(by repeat constructor))
    as (pre & last & post & _ & _ & _ & _ & _ & Hsame).
  split; [exact Hin|]. apply Hsame.
  intros g [<-|[]] _. reflexivity.
Defined.

(** C8, counterexample. Two sample files have the same pixel buffer and the
    names 'a' and 'b'; a glyph with that buffer is byte-identical to sample
    'a' and is resolved to 'b', and so are the four glyphs of an image. *)
Lemma hash_hit_takes_last_name :
  In ("a.png"%string, bar5) files_ab /\
  label_of "a.png" = "a"%string /\
  resolve_with tobytes_bilevel digest_id files_ab calculate_similarity bar5
    (quick_match tobytes_bilevel digest_id files_ab bar5) = inr "b"%string /\
  solve Image id tobytes_bilevel digest_id files_ab two_wide_runs
  = inr (Some "bbbb"%string).
Proof. repeat split; vm_compute; auto. Qed.

Lemma solve_four_narrow_spans_witness :
  length (ink_column_spans (binarize Image id four_glyphs)) = 4 /\
  exists code,
    solve Image id tobytes_bilevel digest_id files_7 four_glyphs = inr (Some code) /\
    String.length code = 4.
Proof.
  split; [vm_compute; reflexivity|].
  apply (solve_four_narrow_spans Image id tobytes_bilevel digest_id files_7
           four_glyphs).
  - discriminate.
  - by repeat constructor.
  - vm_compute; reflexivity.
  - vm_compute. repeat constructor.
  - vm_compute; reflexivity.
Defined.

Lemma solve_with_hits_ignores_scoring_witness :
  solve_with Image id tobytes_bilevel digest_id files_7 raising_similarity four_glyphs
  = inr (Some "7777"%string).
Proof.
  rewrite (solve_with_hits_ignores_scoring Image id tobytes_bilevel digest_id
             files_7 raising_similarity four_glyphs).
  - vm_compute; reflexivity.
  - vm_compute. repeat constructor.
Defined.

(** The end-to-end scenario: four samples '1' to '4' of 5 x 7 pixels
    and an image that shows the four glyphs from left to right give "1234",
    by the quick match alone when the glyphs are the samples, and by the
    scoring when a pixel of the first glyph is flipped. *)
Theorem solve_reads_1234 :
  scan_columns (binarize Image id challenge_1234) 28 9
    = [(1, 6); (8, 13); (15, 20); (22, 27)] /\
  solve_with Image id tobytes_bilevel digest_id files_1234 raising_similarity
    challenge_1234 = inr (Some "1234"%string) /\
  solve Image id tobytes_bilevel digest_id files_1234 challenge_1234
    = inr (Some "1234"%string) /\
  quick_match tobytes_bilevel digest_id files_1234
    (crop (binarize Image id challenge_noisy) 1 1 6 8) = None /\
  solve Image id tobytes_bilevel digest_id files_1234 challenge_noisy
    = inr (Some "1234"%string).
Proof. repeat split; vm_compute; reflexivity. Qed.

End Ocr.

(** ** The captcha services and their token buffer: [captchaservice.py] *)

Module Captcha.

(** [queue.Queue(maxsize)]: first in, first out; a [maxsize] of zero or
    less means no bound. *)
Record Queue (A : Type) := mkQueue {
  maxsize : Z;
  queue : list A
}.
Arguments mkQueue {A}.
Arguments maxsize {A}.
Arguments queue {A}.

Definition Queue_init {A} (maxsize : Z) : Queue A := mkQueue maxsize [].

Definition qsize {A} (q : Queue A) : nat := length (queue q).

(** [Queue.full()]: [0 < maxsize <= qsize]. *)
Definition full {A} (q : Queue A) : bool :=
  (0 <? maxsize q)%Z && (maxsize q <=? Z.of_nat (qsize q))%Z.

(** [Queue.put(item)]: [None] when the caller has to wait for a free slot. *)
Definition put {A} (item : A) (q : Queue A) : option (Queue A) :=
  if full q then None else Some (mkQueue (maxsize q) (queue q ++ [item])).

(** [Queue.get()]: [None] when the caller has to wait for an item. *)
Definition get {A} (q : Queue A) : option (A * Queue A) :=
  match queue q with
  | [] => None
  | item :: rest => Some (item, mkQueue (maxsize q) rest)
  end.

(** A captcha result [(code, t)]. *)
Definition Token : Type := string * string.

(** The attributes [AbstractCaptchaService.__init__] sets (the worker
    threads are [_worker_count] in number). *)
Record CaptchaService := mkCaptchaService {
  _worker_count : nat;
  _max_pool_size : Z;
  _captcha_result_pool : Queue Token;
  _running : bool
}.

(** [AbstractCaptchaService.__init__(self, worker_count, maxsize=40)]; an
    argument that is not passed is [None] here. *)
Definition AbstractCaptchaService_init (worker_count : nat) (maxsize : option Z)
  : CaptchaService :=
  let maxsize := default 40%Z maxsize in
  mkCaptchaService worker_count maxsize (Queue_init maxsize) false.

(** [SouthCaptchaService.__init__(self, worker_count, maxsize=40)]: its body
    is [super().__init__(worker_count)]. *)
Definition SouthCaptchaService_init (worker_count : nat) (maxsize : option Z)
  : CaptchaService :=
  AbstractCaptchaService_init worker_count None.

(** [SouthEnrollmentCaptchaService.__init__], with the same body. *)
Definition SouthEnrollmentCaptchaService_init (worker_count : nat)
    (maxsize : option Z) : CaptchaService :=
  AbstractCaptchaService_init worker_count None.

(** What the threads do to the buffer: a worker puts a solved captcha
    (line 154), a query task gets one ([get_captcha_result]). *)
Inductive Op :=
  | Put (tok : Token)
  | Get.

(** One operation; a caller that has to wait leaves the buffer as it is. *)
Definition step (q : Queue Token) (op : Op) : Queue Token :=
  match op with
  | Put tok => default q (put tok q)
  | Get => match get q with Some (_, q') => q' | None => q end
  end.

(** The buffer after the operations [ops], in the order they took effect. *)
Definition run (q : Queue Token) (ops : list Op) : Queue Token :=
  fold_left step ops q.

Lemma step_maxsize q op : maxsize (step q op) = maxsize q.
Proof.
  destruct op as [tok|]; simpl.
  - unfold put. by destruct (full q).
  - unfold get. by destruct (queue q).
Qed.

Lemma run_maxsize ops : forall q, maxsize (run q ops) = maxsize q.
Proof.
  unfold run. induction ops as [|op ops IH]; intros q; simpl; [done|].
  by rewrite IH, step_maxsize.
Qed.

(** A bounded queue never holds more items than its bound. *)
Lemma step_bounded q op :
  (0 < maxsize q)%Z -> (Z.of_nat (qsize q) <= maxsize q)%Z ->
  (Z.of_nat (qsize (step q op)) <= maxsize q)%Z.
Proof.
  intros Hpos Hle. destruct op as [tok|]; simpl.
  - unfold put, full.
    destruct (Z.ltb_spec 0 (maxsize q)); [|lia].
    destruct (Z.leb_spec (maxsize q) (Z.of_nat (qsize q))); simpl; [done|].
    unfold qsize in *. simpl. rewrite length_app. simpl. lia.
  - unfold get. destruct (queue q) as [|item rest] eqn:Hq; simpl; [done|].
    unfold qsize in *. rewrite Hq in Hle. simpl in *. lia.
Qed.

Lemma run_bounded ops : forall q,
  (0 < maxsize q)%Z -> (Z.of_nat (qsize q) <= maxsize q)%Z ->
  (Z.of_nat (qsize (run q ops)) <= maxsize q)%Z.
Proof.
  unfold run. induction ops as [|op ops IH]; intros q Hpos Hle; simpl; [done|].
  rewrite <- (step_maxsize q op).
  apply IH; rewrite step_maxsize; [done|by apply step_bounded].
Qed.

(** X8. The buffer of the base class holds at most the configured number
    of tokens (for a positive capacity). *)
Theorem abstract_service_respects_capacity worker_count capacity ops :
  (0 < capacity)%Z ->
  (Z.of_nat (qsize (run (_captcha_result_pool
       (AbstractCaptchaService_init worker_count (Some capacity))) ops))
   <= capacity)%Z.
Proof.
  intros Hpos.
  apply (run_bounded ops (Queue_init capacity)); [done|].
  unfold qsize; simpl; lia.
Qed.

(** The buffer of a South service is bounded by 40 whatever capacity
    was passed. *)
Theorem south_service_capacity_is_40 worker_count capacity ops :
  maxsize (_captcha_result_pool (SouthCaptchaService_init worker_count capacity)) = 40%Z /\
  maxsize (_captcha_result_pool
             (SouthEnrollmentCaptchaService_init worker_count capacity)) = 40%Z /\
  (Z.of_nat (qsize (run (_captcha_result_pool
       (SouthCaptchaService_init worker_count capacity)) ops)) <= 40)%Z.
Proof.
  split; [done|]. split; [done|].
  apply (run_bounded ops (Queue_init 40)); [done|]. unfold qsize; simpl; lia.
Qed.

(** C2, at the failing input. [SouthCaptchaService(1, maxsize=5)] and
    [SouthEnrollmentCaptchaService(1, maxsize=5)] build a buffer of capacity
    40; after seven puts and no get it holds seven tokens, more than
    5 + 1. *)
Lemma south_service_exceeds_configured_capacity :
  qsize (run (_captcha_result_pool (SouthCaptchaService_init 1 (Some 5%Z)))
             (replicate 7 (Put ("code", "t")%string))) = 7%nat /\
  qsize (run (_captcha_result_pool (SouthEnrollmentCaptchaService_init 1 (Some 5%Z)))
             (replicate 7 (Put ("code", "t")%string))) = 7%nat /\
  qsize (run (_captcha_result_pool (AbstractCaptchaService_init 1 (Some 5%Z)))
             (replicate 7 (Put ("code", "t")%string))) = 5%nat.
Proof. repeat split; vm_compute; reflexivity. Qed.

Lemma abstract_service_respects_capacity_witness :
  (0 < 5)%Z /\
  (Z.of_nat (qsize (run (_captcha_result_pool
       (AbstractCaptchaService_init 2 (Some 5%Z)))
       (replicate 9 (Put ("code", "t")%string)))) <= 5)%Z.
Proof.
  split; [lia|].
  apply (abstract_service_respects_capacity 2 5
           (replicate 9 (Put ("code", "t")%string))). lia.
Defined.

End Captcha.

(** ** The result sink and its accessor: objects with identity *)

Module Sink.

(** The identity of a Python object. *)
Definition loc : Type := positive.

(** The objects [self._results] is made of: the list holds references to
    the result maps, a result map holds immutable values. *)
Inductive Obj :=
  | OList (items : list loc)
  | ODict (content : Fetch.ResultMap).

(** A new object gets an identity no live object has. *)
Definition new_object (o : Obj) (h : gmap loc Obj) : loc * gmap loc Obj :=
  let l := fresh (dom h) in (l, <[l := o]> h).

(** [lst.append(x)]. *)
Definition list_append (lst x : loc) (h : gmap loc Obj) : option (gmap loc Obj) :=
  match h !! lst with
  | Some (OList items) => Some (<[lst := OList (items ++ [x])]> h)
  | _ => None
  end.

(** [_add_result(result)]: [self._results.append(result)]. *)
Definition add_result (results result : loc) (h : gmap loc Obj)
  : option (gmap loc Obj) :=
  list_append results result h.

(** [copy.deepcopy] of one element of the list: an object already copied is
    found in [memo], a result map is copied into a new object (its keys and
    values are immutable and are shared). *)
Definition deepcopy_item (memo : gmap loc loc) (h : gmap loc Obj) (x : loc)
  : option (loc * gmap loc loc * gmap loc Obj) :=
  match memo !! x with
  | Some y => Some (y, memo, h)
  | None =>
      match h !! x with
      | Some (ODict content) =>
          let '(y, h') := new_object (ODict content) h in
          Some (y, <[x := y]> memo, h')
      | _ => None
      end
  end.

Fixpoint deepcopy_items (memo : gmap loc loc) (h : gmap loc Obj) (items : list loc)
  : option (list loc * gmap loc loc * gmap loc Obj) :=
  match items with
  | [] => Some ([], memo, h)
  | x :: rest =>
      match deepcopy_item memo h x with
      | Some (y, memo1, h1) =>
          match deepcopy_items memo1 h1 rest with
          | Some (ys, memo2, h2) => Some (y :: ys, memo2, h2)
          | None => None
          end
      | None => None
      end
  end.

(** [copy.deepcopy(x)] for a list of result maps: the new list is entered
    in the memo first, then filled with the copies of the elements. *)
Definition deepcopy (x : loc) (h : gmap loc Obj) : option (loc * gmap loc Obj) :=
  match h !! x with
  | Some (OList items) =>
      let '(y, h1) := new_object (OList []) h in
      match deepcopy_items {[x := y]} h1 items with
      | Some (ys, _, h2) => Some (y, <[y := OList ys]> h2)
      | None => None
      end
  | _ => None
  end.

(** [get_result_list(self, copy=True)], for [self._results] at [results]. *)
Definition get_result_list (results : loc) (copy : bool) (h : gmap loc Obj)
  : option (loc * gmap loc Obj) :=
  if copy then deepcopy results h else Some (results, h).

(** What a reader sees through a reference to a list of result maps. *)
Definition read_dict (h : gmap loc Obj) (l : loc) : option Fetch.ResultMap :=
  match h !! l with
  | Some (ODict content) => Some content
  | _ => None
  end.

Definition contents (h : gmap loc Obj) (lst : loc) : option (list Fetch.ResultMap) :=
  match h !! lst with
  | Some (OList items) => mapM (read_dict h) items
  | _ => None
  end.

(** The objects a list of result maps consists of: the list and its
    elements. *)
Definition footprint (h : gmap loc Obj) (lst : loc) : gset loc :=
  match h !! lst with
  | Some (OList items) => {[lst]} ∪ list_to_set items
  | _ => {[lst]}
  end.

(** A sink with two result maps, for the examples. *)
Definition record_1 : Fetch.ResultMap := [("sid", Fetch.JStr "0101000001")]%string.
Definition record_2 : Fetch.ResultMap := [("sid", Fetch.JStr "0101000002")]%string.

Definition example_heap : gmap loc Obj :=
  <[1%positive := OList [2%positive; 3%positive]]>
    (<[2%positive := ODict record_1]> (<[3%positive := ODict record_2]> ∅)).

(** [memo] maps objects of [h0] to new objects of [h] with the same
    content. *)
Definition memo_ok (h0 h : gmap loc Obj) (memo : gmap loc loc) : Prop :=
  forall x y, memo !! x = Some y ->
    (y ∉ dom h0) /\ (forall c, read_dict h0 x = Some c -> read_dict h y = Some c).

Lemma read_dict_weaken h h' l c :
  h ⊆ h' -> read_dict h l = Some c -> read_dict h' l = Some c.
Proof.
  unfold read_dict. intros Hsub Hr.
  destruct (h !! l) as [[items|content]|] eqn:Hl; try discriminate.
  by rewrite (lookup_weaken _ _ _ _ Hl Hsub).
Qed.

Lemma new_object_fresh o h : h !! (new_object o h).1 = None.
Proof. simpl. apply not_elem_of_dom, is_fresh. Qed.

Lemma deepcopy_item_spec h0 memo h x c :
  h0 ⊆ h -> memo_ok h0 h memo -> read_dict h0 x = Some c ->
  exists y memo1 h1,
    deepcopy_item memo h x = Some (y, memo1, h1) /\
    h ⊆ h1 /\ memo_ok h0 h1 memo1 /\ read_dict h1 y = Some c /\ y ∉ dom h0.
Proof.
  intros Hsub Hmemo Hx. unfold deepcopy_item.
  destruct (memo !! x) as [y|] eqn:Hm.
  - destruct (Hmemo x y Hm) as [Hfresh Hcopy].
    exists y, memo, h. split; [done|]. split; [done|]. split; [done|].
    split; [by apply Hcopy|done].
  - pose proof (read_dict_weaken _ _ _ _ Hsub Hx) as Hx'.
    unfold read_dict in Hx'.
    destruct (h !! x) as [[items|content]|] eqn:Hl; try discriminate.
    injection Hx' as ->. simpl.
    pose proof (new_object_fresh (ODict c) h) as Hnew. simpl in Hnew.
    set (y := fresh (dom h)) in *.
    assert (Hsub1 : h ⊆ <[y := ODict c]> h) by (by apply insert_subseteq).
    assert (Hy0 : y ∉ dom h0).
    { intros Hin. apply elem_of_dom in Hin as [o Ho].
      by rewrite (lookup_weaken _ _ _ _ Ho Hsub) in Hnew. }
    exists y, (<[x := y]> memo), (<[y := ODict c]> h).
    split; [done|]. split; [done|]. split; [|split; [|done]].
    + intros x' y' Hm'. destruct (decide (x = x')) as [<-|Hne].
      * rewrite lookup_insert_eq in Hm'. injection Hm' as <-.
        split; [done|]. intros c' Hc'. rewrite Hx in Hc'. injection Hc' as <-.
        unfold read_dict. by rewrite lookup_insert_eq.
      * rewrite lookup_insert_ne in Hm' by done.
        destruct (Hmemo x' y' Hm') as [Hf Hc]. split; [done|].
        intros c' Hc'. eapply read_dict_weaken; [exact Hsub1|by apply Hc].
    + unfold read_dict. by rewrite lookup_insert_eq.
Qed.

Lemma deepcopy_items_spec h0 items : forall cs memo h,
  Forall2 (fun x c => read_dict h0 x = Some c) items cs ->
  h0 ⊆ h -> memo_ok h0 h memo ->
  exists ys memo' h',
    deepcopy_items memo h items = Some (ys, memo', h') /\
    h ⊆ h' /\
    Forall2 (fun y c => read_dict h' y = Some c) ys cs /\
    Forall (fun y => y ∉ dom h0) ys.
Proof.
  induction items as [|x rest IH]; intros cs memo h Hitems Hsub Hmemo.
  - apply Forall2_nil_inv_l in Hitems as ->.
    exists [], memo, h. simpl. auto.
  - apply Forall2_cons_inv_l in Hitems as (c & cs' & Hx & Hrest & ->).
    destruct (deepcopy_item_spec h0 memo h x c Hsub Hmemo Hx)
      as (y & memo1 & h1 & Hitem & Hsub1 & Hmemo1 & Hy & Hy0).
    destruct (IH cs' memo1 h1 Hrest) as (ys & memo2 & h2 & Hcopy & Hsub2 & Hys & Hys0);
      [by etrans|done|].
    exists (y :: ys), memo2, h2. simpl. rewrite Hitem, Hcopy.
    split; [done|]. split; [by etrans|]. split; [|by constructor].
    constructor; [|done]. by eapply read_dict_weaken.
Qed.

(** Reading a list depends on its footprint only. *)
Lemma contents_agree h h' lst items :
  h !! lst = Some (OList items) ->
  h' !! lst = h !! lst ->
  (forall x, x ∈ items -> h' !! x = h !! x) ->
  contents h' lst = contents h lst.
Proof.
  intros Hl Hl' Hitems. unfold contents. rewrite Hl', Hl.
  apply Forall_mapM_ext, Forall_forall. intros x Hx.
  unfold read_dict. by rewrite (Hitems x Hx).
Qed.

(** C10. With [copy=True] the accessor returns a new list object holding
    new result maps with the contents of the sink, and the two lists share
    no object; whatever is done to the objects of the returned list (the
    list itself and the maps in it) and whatever objects are created, the
    sink reads as before, and appending a result to the sink afterwards
    leaves the returned list as it was. *)
Theorem result_list_copy_is_independent (h : gmap loc Obj) (results : loc)
    (records : list Fetch.ResultMap) :
  contents h results = Some records ->
  exists copy h',
    get_result_list results true h = Some (copy, h') /\
    contents h' copy = Some records /\
    contents h' results = Some records /\
    footprint h' copy ## footprint h' results /\
    (forall h'',
       (forall l o, l ∉ footprint h' copy -> h' !! l = Some o -> h'' !! l = Some o) ->
       contents h'' results = Some records) /\
    (forall result h'', add_result results result h' = Some h'' ->
       contents h'' copy = Some records).
Proof.
  intros Hcontents. unfold contents in Hcontents.
  destruct (h !! results) as [[items|?]|] eqn:Hres; try discriminate.
  apply mapM_Some_1 in Hcontents.
  unfold get_result_list, deepcopy. rewrite Hres. simpl.
  pose proof (new_object_fresh (OList []) h) as Hnew. simpl in Hnew.
  set (y := fresh (dom h)) in *.
  assert (Hsub1 : h ⊆ <[y := OList []]> h) by (by apply insert_subseteq).
  assert (Hmemo : memo_ok h (<[y := OList []]> h) {[results := y]}).
  { intros x' y' Hm. apply lookup_singleton_Some in Hm as [<- <-].
    split; [by apply not_elem_of_dom|].
    intros c Hc. unfold read_dict in Hc. by rewrite Hres in Hc. }
  destruct (deepcopy_items_spec h items records _ _ Hcontents Hsub1 Hmemo)
    as (ys & memo' & h2 & -> & Hsub2 & Hys & Hys0).
  assert (Hy2 : h2 !! y = Some (OList [])).
  { eapply lookup_weaken; [|exact Hsub2]. apply lookup_insert_eq. }
  assert (Hys_ne : forall x, x ∈ ys -> x <> y).
  { intros x Hx ->. apply list_elem_of_lookup in Hx as [i Hi].
    destruct (Forall2_lookup_l _ _ _ _ _ Hys Hi) as (c & _ & Hc).
    unfold read_dict in Hc. by rewrite Hy2 in Hc. }
  assert (Hold : forall l o, h !! l = Some o ->
                   l <> y /\ (l ∉ ys) /\ h2 !! l = Some o).
  { intros l o Hl. split; [|split].
    - intros ->. by rewrite Hnew in Hl.
    - intros Hin. rewrite Forall_forall in Hys0.
      apply (Hys0 l Hin). apply elem_of_dom. eauto.
    - eapply lookup_weaken; [exact Hl|]. by etrans. }
  assert (Hitems_old : forall x, x ∈ items -> exists o, h !! x = Some o).
  { intros x Hx. apply list_elem_of_lookup in Hx as [i Hi].
    destruct (Forall2_lookup_l _ _ _ _ _ Hcontents Hi) as (c & _ & Hc).
    unfold read_dict in Hc. destruct (h !! x); [eauto|done]. }
  set (h' := <[y := OList ys]> h2).
  assert (Hcopy : contents h' y = Some records).
  { unfold contents, h'. rewrite lookup_insert_eq.
    rewrite <- (mapM_Some_2 _ _ _ Hys).
    apply Forall_mapM_ext, Forall_forall. intros x Hx.
    unfold read_dict. rewrite lookup_insert_ne; [done|].
    intros Heq. exact (Hys_ne x Hx (eq_sym Heq)). }
  assert (Hres' : h' !! results = Some (OList items)).
  { destruct (Hold _ _ Hres) as (Hne & _ & H2).
    unfold h'. by rewrite lookup_insert_ne. }
  assert (Hitems' : forall x, x ∈ items -> h' !! x = h !! x).
  { intros x Hx. destruct (Hitems_old x Hx) as [o Ho].
    destruct (Hold _ _ Ho) as (Hne & _ & H2).
    unfold h'. rewrite lookup_insert_ne by done. by rewrite H2, Ho. }
  assert (Hsink : contents h' results = Some records).
  { rewrite (contents_agree h h' results items Hres); [| by rewrite Hres' |done].
    unfold contents. rewrite Hres. by apply mapM_Some. }
  assert (Hfoot : footprint h' y = {[y]} ∪ list_to_set ys).
  { unfold footprint, h'. by rewrite lookup_insert_eq. }
  assert (Hout : forall l o, h !! l = Some o -> l ∉ footprint h' y).
  { intros l o Hl. destruct (Hold _ _ Hl) as (Hne & Hnin & _).
    rewrite Hfoot. intros Hin. apply elem_of_union in Hin as [Hin|Hin].
    - by apply elem_of_singleton in Hin.
    - by apply elem_of_list_to_set in Hin. }
  exists y, h'. split; [done|]. split; [done|]. split; [done|].
  split; [|split].
  - unfold footprint at 2. rewrite Hres'.
    intros l Hl1 Hl2. apply elem_of_union in Hl2 as [Hl2|Hl2].
    + apply elem_of_singleton in Hl2 as ->. by apply (Hout _ _ Hres).
    + apply elem_of_list_to_set in Hl2.
      destruct (Hitems_old l Hl2) as [o Ho]. by apply (Hout _ _ Ho).
  - intros h'' Hframe. rewrite <- Hsink.
    apply (contents_agree h' h'' results items Hres').
    + rewrite Hres'. apply Hframe; [|done]. by apply (Hout _ _ Hres).
    + intros x Hx. destruct (Hitems_old x Hx) as [o Ho].
      rewrite (Hitems' x Hx), Ho. apply Hframe; [by apply (Hout _ _ Ho)|].
      by rewrite (Hitems' x Hx).
  - intros result h'' Hadd. unfold add_result, list_append in Hadd.
    rewrite Hres' in Hadd. injection Hadd as <-.
    destruct (Hold _ _ Hres) as (Hne & Hnin & _).
    rewrite <- Hcopy. apply (contents_agree h' _ y ys).
    + unfold h'. apply lookup_insert_eq.
    + by rewrite lookup_insert_ne.
    + intros x Hx. rewrite lookup_insert_ne; [done|]. by intros ->.
Qed.

Lemma result_list_copy_is_independent_witness :
  contents example_heap 1%positive = Some [record_1; record_2] /\
  exists copy h',
    get_result_list 1%positive true example_heap = Some (copy, h') /\
    contents h' copy = Some [record_1; record_2] /\
    forall result h'', add_result 1%positive result h' = Some h'' ->
      contents h'' copy = Some [record_1; record_2].
Proof.
  assert (Hc : contents example_heap 1%positive = Some [record_1; record_2])
    by (vm_compute; reflexivity).
  split; [exact Hc|].
  destruct (result_list_copy_is_independent example_heap 1%positive
              [record_1; record_2] Hc)
    as (copy & h' & Hget & Hcopy & _ & _ & _ & Happend).
  exists copy, h'. split; [exact Hget|]. split; [exact Hcopy|exact Happend].
Defined.

(** With [copy=False] the accessor returns the sink's own list: a
    result appended afterwards is seen through the reference returned
    before. *)
Theorem result_list_reference_is_shared :
  get_result_list 1%positive false example_heap = Some (1%positive, example_heap) /\
  (h ← add_result 1%positive 2%positive example_heap; contents h 1%positive)
  = Some [record_1; record_2; record_1].
Proof. split; vm_compute; reflexivity. Qed.

End Sink.

(** ** Query sets that are generators: [DefaultBruteForceQuerySupplier] *)

Module Generator.
Import PyExc Fetch.

Section GeneratorService.

Variable remote : list Request -> Request -> Response.
Variable parse_json : json -> string -> list LogRecord * (exc_class + ResultMap).

(** [_fetch] for a [query_set] that is a generator object, which is what
    [DefaultBruteForceQuerySupplier._get_query_set_for] returns.  The [for]
    loop draws the keys from the generator, and
    [self._thread_pool_executor.submit(self._fetch, query_set)] hands the
    same object to the new task: it yields the keys it has not yielded yet.
    A generator is the list of the keys it still has to yield; the task that
    resubmits it returns at once and draws no further key. *)
Fixpoint for_keys_generator (fuel : nat) (keys : list QueryKey)
    (q_sid : option string) (tok : Token) (st : State) : Outcome * State :=
  match keys with
  | [] => (Returned, log_add (LogNoValidYMOB q_sid) st)
  | key :: rest =>
      let q_sid := update_q_sid q_sid key.1 in
      match while_not_skip remote parse_json fuel rest key true tok st with
      | KeySkipped tok' st' => for_keys_generator fuel rest q_sid tok' st'
      | KeyStop o st' => (o, st')
      end
  end.

Definition fetch_generator (fuel : nat) (query_set : QuerySet) (st : State)
  : Outcome * State :=
  wrapped
    (if negb (running st) then (Returned, st)
     else match get_captcha_result st with
          | None => (Blocked, st)
          | Some (tok, st1) => for_keys_generator fuel query_set None tok st1
          end).

(** The executor with one worker thread, for tasks whose query sets are
    generators. *)
Fixpoint run_tasks_generator (n : nat) (fuel : nat) (st : State)
  : list Outcome * State :=
  match n with
  | O => ([], st)
  | S n' =>
      match pending st with
      | [] => ([], st)
      | query_set :: rest =>
          let '(o, st1) := fetch_generator fuel query_set (set_pending rest st) in
          let '(os, st2) := run_tasks_generator n' fuel st1 in
          (o :: os, st2)
      end
  end.

Lemma for_keys_generator_run fuel keys q_sid tok st :
  let out := for_keys_generator fuel keys q_sid tok st in
  exists atts, attempts_in_order (req_key <$> atts) keys /\
               run_of remote parse_json out.1 st out.2 atts.
Proof.
  revert q_sid tok st; induction keys as [|key rest IH]; intros q_sid tok st; simpl.
  - exists []. split; [constructor|]. left. by apply failed_run_same.
  - pose proof (while_not_skip_run remote parse_json fuel rest key true tok st)
      as Hkey.
    destruct (while_not_skip remote parse_json fuel rest key true tok st)
      as [tok' st1|o st1].
    + destruct Hkey as (a1 & Hne & Hall & Hf).
      destruct (IH (update_q_sid q_sid key.1) tok' st1) as (a2 & Hord & Hrun).
      exists (a1 ++ a2). split; [by apply attempts_in_order_then|].
      eapply run_of_trans; eauto.
    + destruct Hkey as (a1 & Hall & Hrun). exists a1. split; [|done].
      by apply attempts_in_order_same.
Qed.

Lemma fetch_generator_run fuel query_set st :
  let out := fetch_generator fuel query_set st in
  exists atts, attempts_in_order (req_key <$> atts) query_set /\
               run_of remote parse_json out.1 st out.2 atts.
Proof.
  unfold fetch_generator.
  destruct (running st); simpl;
    [|exists []; split; [constructor|left; apply failed_run_refl]].
  unfold get_captcha_result.
  destruct (pool st) as [|tok rest] eqn:Hpool; simpl;
    [exists []; split; [constructor|left; apply failed_run_refl]|].
  destruct (for_keys_generator_run fuel query_set None tok (set_pool rest st))
    as (atts & Hord & Hrun).
  exists atts. split; [done|].
  destruct (for_keys_generator _ _ _ _ _) as [o st']; simpl in *.
  assert (Hrun' : run_of remote parse_json o st st' atts) by exact Hrun.
  destruct o as [|e| |]; simpl; try done.
  destruct (issubclass e Exception); simpl; [|done].
  destruct Hrun' as [Hf|[? ?]]; [left; exact Hf|done].
Qed.

Lemma run_of_sent o st st' atts :
  run_of remote parse_json o st st' atts -> sent st' = sent st ++ atts.
Proof. intros [(H & _)|(_ & pre & req & r & -> & H & _)]; exact H. Qed.




End GeneratorService.


End Generator.

(** ** What the similarity score measures *)

Module OcrScore.
Import PyExc Ocr.
#[local] Open Scope nat_scope.

(** The number of black pixels of the glyph: [+1] for every [cdata[x, y] == 0]. *)
Definition ink_score (cdxy : Z) : Z := if (cdxy =? 0)%Z then 1%Z else 0%Z.

Definition ink (cdata : Image) (cwidth cheight : nat) : Z :=
  fold_left
    (fun score x =>
       fold_left (fun score y => (score + ink_score (px cdata x y))%Z)
                 (seq 0 cheight) score)
    (seq 0 cwidth) 0%Z.

(** The glyph and the sample show the same pixels over the area of the
    glyph, the sample being at least as large. *)
Definition shows (cimg : Image) (s : Sample) : Prop :=
  (size cimg).1 <= (ssize s).1 /\ (size cimg).2 <= (ssize s).2 /\
  forall x y, x < (size cimg).1 -> y < (size cimg).2 ->
    px cimg x y = px (sdata s) x y.

Definition sumZ (l : list Z) : Z := foldr Z.add 0%Z l.

Lemma fold_left_add_sumZ {A} (f : A -> Z) (l : list A) (a : Z) :
  fold_left (fun score y => (score + f y)%Z) l a = (a + sumZ (map f l))%Z.
Proof.
  revert a; induction l as [|y l IH]; intros a; simpl; [lia|].
  rewrite IH. lia.
Qed.

Lemma grid_fold_sumZ (f : nat -> nat -> Z) (xs ys : list nat) (a : Z) :
  fold_left (fun score x => fold_left (fun score y => (score + f x y)%Z) ys score)
            xs a
  = (a + sumZ (map (fun x => sumZ (map (f x) ys)) xs))%Z.
Proof.
  revert a; induction xs as [|x xs IH]; intros a; simpl; [lia|].
  rewrite IH, fold_left_add_sumZ. lia.
Qed.

Lemma sumZ_le {A} (f g : A -> Z) (l : list A) :
  (forall y, In y l -> (f y <= g y)%Z) ->
  (sumZ (map f l) <= sumZ (map g l))%Z.
Proof.
  induction l as [|y l IH]; intros H; simpl; [lia|].
  pose proof (H y (or_introl eq_refl)).
  assert (sumZ (map f l) <= sumZ (map g l))%Z by (apply IH; intros; apply H; by right).
  lia.
Qed.

Lemma sumZ_eq {A} (f g : A -> Z) (l : list A) :
  (forall y, In y l -> (f y <= g y)%Z) ->
  sumZ (map f l) = sumZ (map g l) ->
  forall y, In y l -> f y = g y.
Proof.
  induction l as [|y l IH]; intros H Hsum z Hz; [destruct Hz|].
  simpl in Hsum.
  pose proof (H y (or_introl eq_refl)).
  assert (sumZ (map f l) <= sumZ (map g l))%Z
    by (apply sumZ_le; intros; apply H; by right).
  destruct Hz as [<-|Hz]; [lia|].
  apply IH; [intros; apply H; by right|lia|done].
Qed.

Lemma pixel_score_le_ink cdxy sdxy : (pixel_score cdxy sdxy <= ink_score cdxy)%Z.
Proof.
  unfold pixel_score, ink_score.
  destruct (cdxy =? sdxy)%Z, (cdxy =? 0)%Z; lia.
Qed.

Lemma pixel_score_eq_ink cdxy sdxy :
  pixel_score cdxy sdxy = ink_score cdxy <-> cdxy = sdxy.
Proof.
  unfold pixel_score, ink_score.
  destruct (Z.eqb_spec cdxy sdxy), (cdxy =? 0)%Z; split; (lia || done).
Qed.

Lemma overlay_score_le_ink cdata sdata cwidth cheight :
  (overlay_score cdata sdata cwidth cheight <= ink cdata cwidth cheight)%Z.
Proof.
  unfold overlay_score, ink.
  rewrite (grid_fold_sumZ (fun x y => pixel_score (px cdata x y) (px sdata x y))),
          (grid_fold_sumZ (fun x y => ink_score (px cdata x y))).
  apply Z.add_le_mono_l, sumZ_le. intros x _.
  apply sumZ_le. intros y _. apply pixel_score_le_ink.
Qed.

Lemma overlay_score_eq_ink cdata sdata cwidth cheight :
  overlay_score cdata sdata cwidth cheight = ink cdata cwidth cheight <->
  forall x y, x < cwidth -> y < cheight -> px cdata x y = px sdata x y.
Proof.
  unfold overlay_score, ink.
  rewrite (grid_fold_sumZ (fun x y => pixel_score (px cdata x y) (px sdata x y))),
          (grid_fold_sumZ (fun x y => ink_score (px cdata x y))).
  split.
  - intros Hsum x y Hx Hy.
    apply pixel_score_eq_ink.
    assert (Hrow : sumZ (map (fun y => pixel_score (px cdata x y) (px sdata x y))
                             (seq 0 cheight))
                   = sumZ (map (fun y => ink_score (px cdata x y)) (seq 0 cheight))).
    { apply (sumZ_eq
               (fun x => sumZ (map (fun y => pixel_score (px cdata x y) (px sdata x y))
                                   (seq 0 cheight)))
               (fun x => sumZ (map (fun y => ink_score (px cdata x y)) (seq 0 cheight)))
               (seq 0 cwidth)).
      - intros x' _. apply sumZ_le. intros y' _. apply pixel_score_le_ink.
      - lia.
      - apply in_seq. lia. }
    apply (sumZ_eq (fun y => pixel_score (px cdata x y) (px sdata x y))
                   (fun y => ink_score (px cdata x y)) (seq 0 cheight)).
    + intros y' _. apply pixel_score_le_ink.
    + exact Hrow.
    + apply in_seq. lia.
  - intros Hsame. f_equal. f_equal. apply map_ext_in. intros x Hx.
    f_equal. apply map_ext_in. intros y Hy.
    apply in_seq in Hx, Hy. apply pixel_score_eq_ink, Hsame; lia.
Qed.

Lemma ink_nonneg cdata cwidth cheight : (0 <= ink cdata cwidth cheight)%Z.
Proof.
  unfold ink. rewrite (grid_fold_sumZ (fun x y => ink_score (px cdata x y))).
  assert (H : (sumZ (map (fun _ : nat => 0%Z) (seq 0 cwidth))
               <= sumZ (map (fun x => sumZ (map (fun y => ink_score (px cdata x y))
                                                (seq 0 cheight))) (seq 0 cwidth)))%Z).
  { apply sumZ_le. intros x _.
    transitivity (sumZ (map (fun _ : nat => 0%Z) (seq 0 cheight))).
    - clear. induction (seq 0 cheight); simpl; lia.
    - apply sumZ_le. intros y _. unfold ink_score. destruct (_ =? _)%Z; lia. }
  assert (H0 : sumZ (map (fun _ : nat => 0%Z) (seq 0 cwidth)) = 0%Z)
    by (clear; induction (seq 0 cwidth); simpl; lia).
  lia.
Qed.

Lemma max_from_constant (c : Z) (l : list Z) :
  Forall (eq c) l -> max_from id c l = c.
Proof.
  induction 1 as [|x l <- _ IH]; simpl; [done|].
  by rewrite Z.ltb_irrefl.
Qed.

Lemma py_max_constant (c : Z) (l : list Z) :
  l <> [] -> Forall (eq c) l -> py_max id l = inr c.
Proof.
  destruct l as [|x l]; [done|]. intros _ H.
  apply Forall_cons in H as [<- H]. simpl. f_equal. by apply max_from_constant.
Qed.

Lemma offsets_all_equal (c : Z) (xoffsets yoffsets : list nat) :
  Forall (eq c) (flat_map (fun xoffset => map (fun yoffset => c) yoffsets) xoffsets).
Proof.
  apply Forall_forall. intros z Hz.
  apply list_elem_of_In, in_flat_map in Hz as (? & _ & Hz).
  apply in_map_iff in Hz. by destruct Hz as (? & <- & _).
Qed.

(** The score of a glyph that is not larger than the sample. *)
Lemma calculate_similarity_overlay cdata cwidth cheight sdata swidth sheight :
  cwidth <= swidth -> cheight <= sheight ->
  calculate_similarity cdata (cwidth, cheight) sdata (swidth, sheight)
  = inr (overlay_score cdata sdata cwidth cheight).
Proof.
  intros Hw Hh. unfold calculate_similarity.
  destruct (decide _); [done|].
  destruct (Nat.ltb_spec swidth cwidth); [lia|].
  destruct (Nat.ltb_spec sheight cheight); [lia|]. cbn [orb].
  apply py_max_constant; [|apply offsets_all_equal].
  rewrite !Nat.add_1_r. intros Heq. apply (f_equal length) in Heq.
  simpl in Heq. discriminate.
Qed.

(** X10. Where the glyph is not larger than the sample, the search over
    "all possible positions" never moves the glyph: every offset compares the
    glyph with the top-left corner of the sample, and the score returned is
    that one overlay score, whatever the sizes are. *)
Theorem position_search_never_shifts cdata cwidth cheight sdata swidth sheight :
  cwidth <= swidth -> cheight <= sheight ->
  calculate_similarity cdata (cwidth, cheight) sdata (swidth, sheight)
  = inr (overlay_score cdata sdata cwidth cheight) /\
  (overlay_score cdata sdata cwidth cheight <= ink cdata cwidth cheight)%Z.
Proof.
  intros Hw Hh. split; [by apply calculate_similarity_overlay|].
  apply overlay_score_le_ink.
Qed.

Lemma similarity_score_le_ink cimg s :
  (similarity_score cimg s <= ink cimg (size cimg).1 (size cimg).2)%Z.
Proof.
  unfold similarity_score, calculate_similarity.
  destruct (size cimg) as [cwidth cheight], (ssize s) as [swidth sheight].
  cbn [fst snd]. pose proof (ink_nonneg cimg cwidth cheight).
  destruct (decide _); [apply overlay_score_le_ink|].
  destruct (_ || _); [lia|].
  destruct (py_max id _) as [e|m] eqn:Hmax; [done|].
  apply py_max_spec in Hmax as [Hin _].
  pose proof (offsets_all_equal (overlay_score cimg (sdata s) cwidth cheight)
                (seq 0 (swidth - cwidth + 1)) (seq 0 (sheight - cheight + 1)))
    as Hall.
  rewrite Forall_forall in Hall. apply list_elem_of_In, Hall in Hin as <-.
  apply overlay_score_le_ink.
Qed.

Lemma similarity_score_shows cimg s :
  similarity_score cimg s = ink cimg (size cimg).1 (size cimg).2 <-> shows cimg s.
Proof.
  unfold shows, similarity_score.
  destruct (size cimg) as [cwidth cheight] eqn:Hc,
           (ssize s) as [swidth sheight] eqn:Hs.
  cbn [fst snd]. split.
  - intros Hscore.
    destruct (Nat.le_gt_cases cwidth swidth) as [Hw|Hw];
      [destruct (Nat.le_gt_cases cheight sheight) as [Hh|Hh]|].
    + rewrite calculate_similarity_overlay in Hscore by done.
      split; [done|]. split; [done|]. by apply overlay_score_eq_ink.
    + exfalso. pose proof (ink_nonneg cimg cwidth cheight).
      unfold calculate_similarity in Hscore.
      destruct (decide _) as [[= ? ?]|]; [lia|].
      destruct (Nat.ltb_spec sheight cheight); [|lia].
      rewrite orb_true_r in Hscore. lia.
    + exfalso. pose proof (ink_nonneg cimg cwidth cheight).
      unfold calculate_similarity in Hscore.
      destruct (decide _) as [[= ? ?]|]; [lia|].
      destruct (Nat.ltb_spec swidth cwidth); [|lia].
      cbn [orb] in Hscore. lia.
  - intros (Hw & Hh & Hsame).
    rewrite calculate_similarity_overlay by done.
    by apply overlay_score_eq_ink.
Qed.

(** X11. When some sample shows exactly the glyph (pixel for pixel over the
    area of the glyph, from its top-left corner), visual recognition answers
    with the name of a sample that shows exactly the glyph: one wrong pixel
    costs a sample its place. *)
Theorem exact_sample_is_recognised smpls cimg s :
  In s smpls -> shows cimg s ->
  exists w, In w smpls /\
            visual_recognise_char_img smpls cimg = inr (char_name w) /\
            shows cimg w.
Proof.
  intros Hs Hshows.
  destruct (visual_recognise_best smpls cimg) as (w & Hw & Hres & Hmax);
    [by destruct smpls|].
  exists w. split; [done|]. split; [done|].
  apply similarity_score_shows.
  apply similarity_score_shows in Hshows.
  pose proof (Hmax s Hs). pose proof (similarity_score_le_ink cimg w). lia.
Qed.

Lemma position_search_never_shifts_witness :
  calculate_similarity dot (1, 1) bar5 (5, 1) = inr 1%Z /\
  (1 <= ink dot 1 1)%Z.
Proof.
  exact (position_search_never_shifts dot 1 1 bar5 5 1
           ltac:(lia) ltac:(lia)).
Defined.

Lemma exact_sample_is_recognised_witness :
  exists w, In w [sample_small; sample_equal] /\
            visual_recognise_char_img [sample_small; sample_equal] glyph_2x1
            = inr (char_name w) /\
            shows glyph_2x1 w.
Proof.
  apply (exact_sample_is_recognised [sample_small; sample_equal] glyph_2x1
           sample_equal).
  - right. by left.
  - split; [simpl; lia|]. split; [simpl; lia|]. done.
Defined.

End OcrScore.

(** ** The result list handed out without a copy *)

Module SinkReference.
Import Sink.

Lemma read_dict_insert_list h lst items x :
  (exists items0, h !! lst = Some (OList items0)) ->
  read_dict (<[lst := OList items]> h) x = read_dict h x.
Proof.
  intros [items0 Hlst]. unfold read_dict.
  destruct (decide (lst = x)) as [<-|Hne].
  - by rewrite lookup_insert_eq, Hlst.
  - by rewrite lookup_insert_ne.
Qed.

(** X12. With [copy=False], [get_result_list] returns the list of the
    service itself and allocates nothing: a record the service appends
    afterwards is seen through the reference that was returned before, at
    the end of what was seen until then. *)
Theorem result_list_reference_sees_later_results h results seen result c :
  contents h results = Some seen ->
  read_dict h result = Some c ->
  get_result_list results false h = Some (results, h) /\
  exists h',
    add_result results result h = Some h' /\
    contents h' results = Some (seen ++ [c]).
Proof.
  intros Hseen Hc. split; [done|].
  unfold contents in Hseen. unfold add_result, list_append.
  destruct (h !! results) as [[items|content]|] eqn:Hlst; try discriminate.
  eexists. split; [reflexivity|].
  unfold contents. rewrite lookup_insert_eq.
  apply mapM_Some. apply mapM_Some in Hseen.
  apply Forall2_app.
  - eapply Forall2_impl; [exact Hseen|]. intros x y Hx.
    rewrite read_dict_insert_list; [done|eauto].
  - constructor; [|constructor]. rewrite read_dict_insert_list; [done|eauto].
Qed.

Lemma result_list_reference_sees_later_results_witness :
  get_result_list 1%positive false example_heap = Some (1%positive, example_heap) /\
  exists h',
    add_result 1%positive 2%positive example_heap = Some h' /\
    contents h' 1%positive = Some ([record_1; record_2] ++ [record_1]).
Proof.
  apply (result_list_reference_sees_later_results example_heap 1%positive
           [record_1; record_2] 2%positive record_1); vm_compute; reflexivity.
Defined.

End SinkReference.

(** ** The worker threads of the captcha services *)

Module Worker.
Import PyExc Captcha.

Inductive WorkerLog :=
  | LogPreparing (size : nat)          (* debug 'Preparing to add captcha to pool' *)
  | LogErrorExecuting (e : exc_class)  (* exception 'Error executing _add_captcha_to_pool' *)
  | LogAdding (code t : string).       (* debug 'Adding captcha to pool' *)

(** How a worker leaves its loops. *)
Inductive WorkerEnd :=
  | WorkerReturned                     (* the service is not running *)
  | WorkerRaised (e : exc_class)       (* an exception no handler of the loop catches *)
  | WorkerWaits (tok : Token)          (* [put] waits for a free slot *)
  | WorkerFetching.                    (* the remote has not answered yet *)

(** How the loop [while not code] ends. *)
Inductive Solved (RawImage : Type) :=
  | Code (code t : string) (rest : list (exc_class + RawImage * string))
         (log : list WorkerLog)
  | Escaped (e : exc_class) (log : list WorkerLog)
  | Starved (log : list WorkerLog).
Arguments Code {RawImage}.
Arguments Escaped {RawImage}.
Arguments Starved {RawImage}.

(** A solver for the examples: the image is the text it shows, a blank is
    not read, and an image of one character makes the solver fail. *)
Definition example_solve (img : string) : exc_class + option string :=
  match img with
  | EmptyString => inr None
  | String _ EmptyString => inl ValueError
  | _ => inr (Some img)
  end.

Section Worker.

Variable RawImage : Type.

(** [southocr.solve]. *)
Variable solve : RawImage -> exc_class + option string.

(** [while not code: try: ... except Exception: ...] of
    [_add_captcha_to_pool], over what the calls of
    [_get_captcha_from_remote] yield from now on: an exception, or an image
    with its [t] (its cookies, for the enrollment service). *)
Fixpoint solve_loop (answers : list (exc_class + RawImage * string))
    (log : list WorkerLog) : Solved RawImage :=
  match answers with
  | [] => Starved log
  | inl e :: rest =>
      if issubclass e Exception then solve_loop rest (log ++ [LogErrorExecuting e])
      else Escaped e log
  | inr (img, t) :: rest =>
      match solve img with
      | inl e =>
          if issubclass e Exception
          then solve_loop rest (log ++ [LogErrorExecuting e])
          else Escaped e log
      | inr None | inr (Some EmptyString) => solve_loop rest log
      | inr (Some code) => Code code t rest log
      end
  end.

(** [_add_captcha_to_pool], before the decorator: one worker, no other
    thread at work; [fuel] bounds the turns of [while self._running].
    ([with self._captcha_result_pool.not_full: pass] takes and drops the
    lock of the queue; it waits for nothing.) *)
Fixpoint add_captcha_to_pool (fuel : nat) (answers : list (exc_class + RawImage * string))
    (svc : CaptchaService) (log : list WorkerLog)
  : WorkerEnd * CaptchaService * list WorkerLog :=
  match fuel with
  | O => (WorkerFetching, svc, log)
  | S fuel' =>
      if negb (_running svc) then (WorkerReturned, svc, log)
      else
        let log := log ++ [LogPreparing (qsize (_captcha_result_pool svc))] in
        match solve_loop answers log with
        | Starved log' => (WorkerFetching, svc, log')
        | Escaped e log' => (WorkerRaised e, svc, log')
        | Code code t rest log' =>
            match put (code, t) (_captcha_result_pool svc) with
            | None => (WorkerWaits (code, t), svc, log')
            | Some pool' =>
                add_captcha_to_pool fuel' rest
                  (mkCaptchaService (_worker_count svc) (_max_pool_size svc) pool'
                                    (_running svc))
                  (log' ++ [LogAdding code t])
            end
        end
  end.

(** A token that pairs a code with the [t] of the image it was read from. *)
Definition paired (answers : list (exc_class + RawImage * string)) (tok : Token)
  : Prop :=
  tok.1 <> ""%string /\
  exists img, inr (img, tok.2) ∈ answers /\ solve img = inr (Some tok.1).

Lemma solve_loop_paired answers log code t rest log' :
  solve_loop answers log = Code code t rest log' ->
  paired answers (code, t) /\ exists used, answers = used ++ rest.
Proof.
  revert log; induction answers as [|a answers IH]; intros log; [done|].
  cbn [solve_loop].
  assert (Hrec : forall log0,
            solve_loop answers log0 = Code code t rest log' ->
            paired (a :: answers) (code, t) /\ exists used, a :: answers = used ++ rest).
  { intros log0 H. destruct (IH log0 H) as [(Hne & img & Hin & Himg) [used ->]].
    split; [|by exists (a :: used)].
    split; [done|]. exists img. split; [by apply list_elem_of_further|done]. }
  destruct a as [e|[img t']].
  - destruct (issubclass e Exception); [apply Hrec|done].
  - destruct (solve img) as [e|[[|c code']|]] eqn:Himg.
    + destruct (issubclass e Exception); [apply Hrec|done].
    + apply Hrec.
    + intros [= <- <- <- <-]. split; [|by exists [inr (img, t')]].
      split; [done|]. exists img. split; [apply list_elem_of_here|done].
    + apply Hrec.
Qed.

(** X24. Whatever the remote and the solver do, every token a worker adds
    to the pool pairs a code with the [t] (the cookies) that came with the
    very image the code was read from, and the code is not empty: a failed
    download, a failed recognition and an image the solver gives up on are
    skipped, together with their [t].  The tokens that were in the pool
    stay in front, in order. *)
Theorem worker_pairs_code_with_its_t fuel answers svc log :
  let out := add_captcha_to_pool fuel answers svc log in
  exists added,
    queue (_captcha_result_pool out.1.2) = queue (_captcha_result_pool svc) ++ added /\
    Forall (paired answers) added /\
    match out.1.1 with
    | WorkerWaits tok => paired answers tok
    | _ => True
    end.
Proof.
  cbv zeta. revert answers svc log.
  induction fuel as [|fuel IH]; intros answers svc log; cbn [add_captcha_to_pool].
  { exists []. by rewrite app_nil_r. }
  destruct (_running svc); cbn [negb]; [|exists []; by rewrite app_nil_r].
  destruct (solve_loop answers _) as [code t rest log'|e log'|log'] eqn:Hloop;
    [|exists []; by rewrite app_nil_r..].
  apply solve_loop_paired in Hloop as [Hpaired [used ->]].
  unfold put. destruct (full _).
  { exists []. rewrite app_nil_r. split; [done|]. split; [constructor|exact Hpaired]. }
  match goal with
  | |- context [add_captcha_to_pool fuel rest ?svc' ?log''] =>
      destruct (IH rest svc' log'') as (added & Hqueue & Hall & Hend)
  end.
  assert (Hweaken : forall tok, paired rest tok -> paired (used ++ rest) tok).
  { intros tok (Hne & img & Hin & Himg). split; [done|]. exists img.
    split; [|done]. apply elem_of_app. by right. }
  exists ((code, t) :: added). split; [|split].
  - rewrite Hqueue. simpl. by rewrite <- app_assoc.
  - constructor; [done|]. eapply Forall_impl; [exact Hall|]. apply Hweaken.
  - destruct (add_captcha_to_pool fuel rest _ _) as [[[| | tok|] svc'] log''];
      try done. by apply Hweaken.
Qed.

End Worker.

(** A download that fails, an image the solver fails on and an image it
    gives up on are skipped; the code read from the fourth image goes into
    the pool with the [t] of that image. *)
Lemma worker_skips_failed_attempts :
  (add_captcha_to_pool string example_solve 3
     [inl RuntimeError; inr ("7", "t1"); inr ("", "t2"); inr ("ab12", "t3")]%string
     (mkCaptchaService 1 40 (Queue_init 40) true) []).1
  = (WorkerFetching,
     mkCaptchaService 1 40 (mkQueue 40 [("ab12", "t3")]%string) true).
Proof. reflexivity. Qed.

End Worker.

(** ** [utils.py]: field tables and the rows of the output file *)

Module Utils.
Import PyExc Fetch.

(** Functions that may raise: [inl e] is the exception. *)
#[global] Instance exc_bind : MBind (sum exc_class) :=
  fun A B f m => match m with inl e => inl e | inr a => f a end.
#[global] Instance exc_ret : MRet (sum exc_class) := fun A a => inr a.

(** A [for] loop whose body may raise. *)
Fixpoint for_each {A S} (body : S -> A -> exc_class + S) (l : list A) (s : S)
  : exc_class + S :=
  match l with
  | [] => inr s
  | x :: l' => s' ← body s x; for_each body l' s'
  end.

(** [s.endswith(suffix)] and [s[: - n]] for [n > 0].  Strings are the UTF-8
    bytes of the Python text; a suffix of the text is a suffix of the
    bytes, and the slices below cut ASCII text. *)
Definition endswith (s suffix : string) : bool :=
  (String.length suffix <=? String.length s)%nat &&
  bool_decide (String.substring (String.length s - String.length suffix)
                                (String.length suffix) s = suffix).

Definition drop_last (n : nat) (s : string) : string :=
  String.substring 0 (String.length s - n) s.

(** [s.zfill(width)]: zeros go between a leading sign and the rest.  The
    length of a string is its number of bytes, which is the number of its
    characters for the ASCII text of a SID or of a YMOB. *)
Definition is_sign (c : Ascii.ascii) : bool :=
  bool_decide (String c "" = "+"%string) || bool_decide (String c "" = "-"%string).

Definition zfill (width : nat) (s : string) : string :=
  let fill := String.concat "" (replicate (width - String.length s) "0"%string) in
  match s with
  | String c rest => if is_sign c then String c (fill ++ rest) else (fill ++ s)%string
  | EmptyString => fill
  end.

(** A record of a result list: a dictionary, read and written by key. *)
Abbreviation Entry := (gmap string json).

(** The dictionary a dictionary display builds. *)
Definition entry_of (r : ResultMap) : Entry := list_to_map r.

(** [d[key]] for an [OrderedDict] of strings. *)
Fixpoint od_get (key : string) (d : list (string * string)) : option string :=
  match d with
  | [] => None
  | (k, v) :: rest => if decide (key = k) then Some v else od_get key rest
  end.

Definition od_getitem (d : list (string * string)) (key : string)
  : exc_class + string :=
  match od_get key d with
  | Some v => inr v
  | None => inl KeyError
  end.

(** [{v: k for k, v in d.items()}]. *)
Definition reverse_dict (d : list (string * string)) : gmap string string :=
  fold_left (fun m (kv : string * string) => <[kv.2 := kv.1]> m) d ∅.

(** *** [DataStructureHelper] *)

Definition construct_enrollment_result_map (sid name ymob type bat uno uname : json)
  : ResultMap :=
  [("sid", sid); ("name", name); ("ymob", ymob); ("type", type); ("bat", bat);
   ("uno", uno); ("uname", uname)]%string.

(** *** [EnrollmentFieldsHelper] *)

Module EnrollmentFieldsHelper.

Definition basic_field_names : list (string * string) :=
  [("sid", "考号"); ("name", "姓名"); ("ymob", "出生年月"); ("type", "计划类别");
   ("bat", "批次"); ("uno", "院校代码"); ("uname", "录取院校")]%string.

Definition basic_field_name_reverse : gmap string string :=
  reverse_dict basic_field_names.

Definition get_field_key_by_name (name : string) : option string :=
  basic_field_name_reverse !! name.

Definition get_output_fields : list string := basic_field_names.*1.

Definition get_output_field_names : list string := basic_field_names.*2.

Definition get_output_field_name (field : string) : exc_class + string :=
  od_getitem basic_field_names field.

End EnrollmentFieldsHelper.

(** *** [FieldsHelper] *)

Module FieldsHelper.

Definition rankable_fields : list string := ["chn"; "mth"; "eng"; "com"; "sum"]%string.

Definition cross_rankable_fields : list string := ["chn"; "eng"]%string.

Definition major_list : list string := ["文科"; "理科"]%string.

Definition basic_field_names : list (string * string) :=
  [("sid", "考号"); ("name", "姓名"); ("ymob", "出生年月"); ("major", "科类");
   ("chn", "语文"); ("mth", "数学"); ("eng", "英语"); ("com", "综合");
   ("sum", "总分")]%string.

Definition basic_field_name_reverse : gmap string string :=
  reverse_dict basic_field_names.

Definition rank_suffix : string := "_rank".
Definition cross_rank_suffix : string := "_rank_cross".
Definition avg_suffix : string := "_avg".
Definition cross_avg_suffix : string := "_avg_cross".

Definition get_field_key_by_name (name : string) : option string :=
  basic_field_name_reverse !! name.

Definition wrap_rank (field : string) : string := (field ++ rank_suffix)%string.
Definition wrap_cross_rank (field : string) : string := (field ++ cross_rank_suffix)%string.
Definition wrap_avg (field : string) : string := (field ++ avg_suffix)%string.
Definition wrap_cross_avg (field : string) : string := (field ++ cross_avg_suffix)%string.

Definition get_output_field_name (field : string) : exc_class + string :=
  if endswith field cross_rank_suffix then
    name ← od_getitem basic_field_names
             (drop_last (String.length cross_rank_suffix) field);
    mret (name ++ "排名")%string
  else if endswith field rank_suffix then
    name ← od_getitem basic_field_names
             (drop_last (String.length rank_suffix) field);
    mret (name ++ "科内排名")%string
  else if endswith field cross_avg_suffix then
    name ← od_getitem basic_field_names
             (drop_last (String.length cross_avg_suffix) field);
    mret (name ++ "平均")%string
  else if endswith field avg_suffix then
    name ← od_getitem basic_field_names
             (drop_last (String.length avg_suffix) field);
    mret (name ++ "科内平均")%string
  else od_getitem basic_field_names field.

Definition get_output_fields (rank avg : bool) : list string :=
  fold_left
    (fun lst (item : string * string) =>
       let field := item.1 in
       let lst := lst ++ [field] in
       if rank || avg then
         let lst :=
           if bool_decide (field ∈ rankable_fields) then
             let lst := if rank then lst ++ [wrap_rank field] else lst in
             if avg then lst ++ [wrap_avg field] else lst
           else lst in
         if bool_decide (field ∈ cross_rankable_fields) then
           let lst := if rank then lst ++ [wrap_cross_rank field] else lst in
           if avg then lst ++ [wrap_cross_avg field] else lst
         else lst
       else lst)
    basic_field_names [].

(** [lst.append(FieldsHelper.get_output_field_name(field))]. *)
Definition append_name (lst : list string) (field : string) : exc_class + list string :=
  name ← get_output_field_name field; mret (lst ++ [name]).

Definition get_output_field_names (rank avg : bool) : exc_class + list string :=
  for_each
    (fun lst (item : string * string) =>
       let '(field, field_name) := item in
       let lst := lst ++ [field_name] in
       if rank || avg then
         lst ← (if bool_decide (field ∈ rankable_fields) then
                  lst ← (if rank then append_name lst (wrap_rank field) else mret lst);
                  if avg then append_name lst (wrap_avg field) else mret lst
                else mret lst);
         if bool_decide (field ∈ cross_rankable_fields) then
           lst ← (if rank then append_name lst (wrap_cross_rank field) else mret lst);
           if avg then append_name lst (wrap_cross_avg field) else mret lst
         else mret lst
       else mret lst)
    basic_field_names [].

End FieldsHelper.

(** *** [OutputHelper] *)

Inductive UtilsLog :=
  | LogWrongLength (entry_len expected : nat) (entry : Entry).
                                     (* warning 'Wrong length %d(expected %d) in entry' *)

(** [row.append(entry.get(key, ''))] for every key. *)
Definition output_row (entry : Entry) (output_fields : list string) : list json :=
  fold_left (fun row key => row ++ [default (JStr "") (entry !! key)])
            output_fields [].

(** [OutputHelper.output_rows]: the warnings logged and the rows returned. *)
Definition output_rows (entries : list Entry) (output_fields : list string)
    (output_field_names : list string) : list UtilsLog * list (list json) :=
  let expected_result_len := length output_fields in
  fold_left
    (fun (acc : list UtilsLog * list (list json)) entry =>
       let entry_len := size entry in
       let log := if decide (entry_len <> expected_result_len)
                  then acc.1 ++ [LogWrongLength entry_len expected_result_len entry]
                  else acc.1 in
       (log, acc.2 ++ [output_row entry output_fields]))
    entries ([], [JStr <$> output_field_names]).

(** *** The rows [persistenceservice.py] writes *)

(** The first statement of [CSVPersistenceService.output] and of
    [CSVEnrollmentPersistenceService.output]: the rows handed to
    [csv.writer].  [get_output_fields()] and [get_output_field_names()] are
    called with their defaults, whatever [rank] and [avg] the service was
    built with. *)
Definition CSVPersistenceService_rows (_results : list Entry)
  : exc_class + list UtilsLog * list (list json) :=
  names ← FieldsHelper.get_output_field_names true true;
  mret (output_rows _results (FieldsHelper.get_output_fields true true) names).

Definition CSVEnrollmentPersistenceService_rows (_results : list Entry)
  : list UtilsLog * list (list json) :=
  output_rows _results EnrollmentFieldsHelper.get_output_fields
              EnrollmentFieldsHelper.get_output_field_names.

(** The keys of the basic fields. *)
Definition basic_fields : list string := FieldsHelper.basic_field_names.*1.


(** *** [RankingHelper] *)

(** [x == y] on decoded values; the keys of a dictionary are distinct. *)
Fixpoint py_eq (a b : json) {struct a} : bool :=
  match a, b with
  | JNull, JNull => true
  | JBool x, JBool y => bool_decide (x = y)
  | JBool x, JInt z | JInt z, JBool x => (z =? (if x then 1 else 0))%Z
  | JInt x, JInt y => (x =? y)%Z
  | JStr s, JStr t => bool_decide (s = t)
  | JList l, JList m =>
      (fix all2 (l m : list json) : bool :=
         match l, m with
         | [], [] => true
         | x :: l', y :: m' => py_eq x y && all2 l' m'
         | _, _ => false
         end) l m
  | JObj f, JObj g =>
      (length f =? length g)%nat &&
      (fix all_in (f : list (string * json)) : bool :=
         match f with
         | [] => true
         | (k, v) :: f' =>
             match assoc_get k g with
             | Some w => py_eq v w
             | None => false
             end && all_in f'
         end) f
  | _, _ => false
  end.

(** [bool(v)]. *)
Definition py_bool (v : json) : bool :=
  match v with
  | JNull => false
  | JBool b => b
  | JInt z => negb (z =? 0)%Z
  | JStr s => negb (bool_decide (s = ""%string))
  | JList l => negb (bool_decide (length l = 0%nat))
  | JObj f => negb (bool_decide (length f = 0%nat))
  end.

Definition num_of (v : json) : option Z :=
  match v with
  | JInt z => Some z
  | JBool b => Some (if b then 1 else 0)
  | _ => None
  end.

(** [a < b]: numbers with numbers, strings with strings (UTF-8 orders the
    bytes as Python orders the code points); [TypeError] for [None], for a
    dictionary and for two values of different kinds.  The order of two
    lists is not modelled ([None]). *)
Definition py_lt (a b : json) : option (exc_class + bool) :=
  match num_of a, num_of b with
  | Some x, Some y => Some (inr (x <? y)%Z)
  | _, _ =>
      match a, b with
      | JStr s, JStr t => Some (inr (String.ltb s t))
      | JList _, JList _ => None
      | _, _ => Some (inl TypeError)
      end
  end.

(** A dictionary of a result list is named by its position in the list:
    lists built from the result list hold positions, and a write to a
    dictionary is a write to the result list at that position. *)
Definition getitem (store : list Entry) (result : nat) (key : string)
  : exc_class + json :=
  match store !! result ≫= (fun entry => entry !! key) with
  | Some v => inr v
  | None => inl KeyError
  end.

Definition setitem (result : nat) (key : string) (v : json) (store : list Entry)
  : list Entry :=
  alter (fun entry => <[key := v]> entry) result store.

(** What a [range_controller] answers, or the exception it raises. *)
Definition Controller : Type := Entry -> exc_class + bool.

(** [[x for x in results if range_controller(x)]], from position [i] on. *)
Fixpoint ranged_from (range_controller : Controller) (i : nat) (results : list Entry)
  : exc_class + list nat :=
  match results with
  | [] => inr []
  | x :: rest =>
      b ← range_controller x;
      l ← ranged_from range_controller (S i) rest;
      mret (if b : bool then i :: l else l)
  end.

(** [RankingHelper.ranged_results]. *)
Definition ranged_results (results : list Entry) (range_controller : option Controller)
  : exc_class + list nat :=
  match range_controller with
  | None => inr (seq 0 (length results))
  | Some rc => ranged_from rc 0 results
  end.

(** [lambda result: result[key_name] if result[key_name] else 0], applied
    to every item of the list before any comparison is made. *)
Fixpoint sort_keys (store : list Entry) (lst : list nat) (key_name : string)
  : exc_class + list (json * nat) :=
  match lst with
  | [] => inr []
  | result :: rest =>
      v ← getitem store result key_name;
      l ← sort_keys store rest key_name;
      mret ((if py_bool v then v else JInt 0, result) :: l)
  end.

(** [sorted(lst, key=..., reverse=True)] on the keyed items: the stable
    descending order.  An item goes behind the items whose key is greater
    and in front of the later items whose key is not.  Any sorting
    procedure compares every item with another one, so it raises
    [TypeError] exactly when the keys are not all numbers or all strings,
    and returns this list otherwise. *)
Fixpoint insert_reverse (x : json * nat) (l : list (json * nat))
  : option (exc_class + list (json * nat)) :=
  match l with
  | [] => Some (inr [x])
  | y :: l' =>
      match py_lt x.1 y.1 with
      | None => None
      | Some (inl e) => Some (inl e)
      | Some (inr true) =>
          match insert_reverse x l' with
          | Some (inr l'') => Some (inr (y :: l''))
          | r => r
          end
      | Some (inr false) => Some (inr (x :: y :: l'))
      end
  end.

Fixpoint sorted_reverse (l : list (json * nat))
  : option (exc_class + list (json * nat)) :=
  match l with
  | [] => Some (inr [])
  | x :: l' =>
      match sorted_reverse l' with
      | Some (inr s) => insert_reverse x s
      | r => r
      end
  end.

(** The [for] loop of [rank_result_list] over
    [zip(lst, range(1, len(lst) + 1))], from [index] on. *)
Fixpoint rank_loop (key_name result_name : string) (lst : list nat) (index : Z)
    (previous_rank : Z) (previous_value : json) (store : list Entry)
  : list Entry * (exc_class + unit) :=
  match lst with
  | [] => (store, inr tt)
  | result :: rest =>
      match getitem store result key_name with
      | inl e => (store, inl e)
      | inr current_value =>
          if (previous_rank =? 0)%Z then           (* Initialise the #1 *)
            rank_loop key_name result_name rest (index + 1) 1 current_value
                      (setitem result result_name (JInt 1) store)
          else if py_eq current_value previous_value then
            rank_loop key_name result_name rest (index + 1)
                      previous_rank previous_value
                      (setitem result result_name (JInt previous_rank) store)
          else
            rank_loop key_name result_name rest (index + 1) index current_value
                      (setitem result result_name (JInt index) store)
      end
  end.

(** [RankingHelper.rank_result_list]: the result list after the call and
    how the call ends; [None] where the order of the keys is not modelled. *)
Definition rank_result_list (store : list Entry) (lst : list nat)
    (key_name result_name : string) : option (list Entry * (exc_class + unit)) :=
  let sorted :=
    match sort_keys store lst key_name with
    | inl e => Some (inl e)
    | inr keyed =>
        match sorted_reverse keyed with
        | Some (inr s) => Some (inr s.*2)
        | Some (inl e) => Some (inl e)
        | None => None
        end
    end in
  match sorted with
  | None => None
  | Some (inr lst') =>
      Some (rank_loop key_name result_name lst' 1 0 (JInt 0) store)
  | Some (inl e) =>
      if issubclass e Exception            (* except Exception: pass *)
      then Some (rank_loop key_name result_name lst 1 0 (JInt 0) store)
      else Some (store, inl e)
  end.

(** [RankingHelper.rank_column]. *)
Definition rank_column (results : list Entry) (key_name result_name : string)
    (range_controller : option Controller)
  : option (list Entry * (exc_class + unit)) :=
  match ranged_results results range_controller with
  | inl e => Some (results, inl e)
  | inr ranged => rank_result_list results ranged key_name result_name
  end.

(** [lambda x: x['major'] == major]. *)
Definition major_is (major : string) : Controller :=
  fun x => match x !! "major"%string with
           | Some v => inr (py_eq v (JStr major))
           | None => inl KeyError
           end.

(** The block under [if self._rank:] of [CSVPersistenceService.process]. *)
Fixpoint rank_majors (key : string) (majors : list string) (results : list Entry)
  : option (list Entry * (exc_class + unit)) :=
  match majors with
  | [] => Some (results, inr tt)
  | major :: rest =>
      match rank_column results key (FieldsHelper.wrap_rank key)
                        (Some (major_is major)) with
      | Some (results', inr _) => rank_majors key rest results'
      | r => r
      end
  end.

Fixpoint rank_within_majors (keys : list string) (results : list Entry)
  : option (list Entry * (exc_class + unit)) :=
  match keys with
  | [] => Some (results, inr tt)
  | key :: rest =>
      match rank_majors key FieldsHelper.major_list results with
      | Some (results', inr _) => rank_within_majors rest results'
      | r => r
      end
  end.

Fixpoint rank_across_majors (keys : list string) (results : list Entry)
  : option (list Entry * (exc_class + unit)) :=
  match keys with
  | [] => Some (results, inr tt)
  | key :: rest =>
      match rank_column results key (FieldsHelper.wrap_cross_rank key) None with
      | Some (results', inr _) => rank_across_majors rest results'
      | r => r
      end
  end.

(** [CSVPersistenceService.process] of a service built with [avg=False]. *)
Definition process (_rank : bool) (_results : list Entry)
  : option (list Entry * (exc_class + unit)) :=
  if _rank then
    match rank_within_majors FieldsHelper.rankable_fields _results with
    | Some (results', inr _) =>
        rank_across_majors FieldsHelper.cross_rankable_fields results'
    | r => r
    end
  else Some (_results, inr tt).

(** *** What the theorems about ranking speak of *)

(** The records a ranking is about. *)
Definition is_selected (range_controller : option Controller) (r : Entry) : bool :=
  match range_controller with
  | None => true
  | Some rc => match rc r with inr true => true | _ => false end
  end.

Fixpoint sel_from (range_controller : option Controller) (i : nat)
    (results : list Entry) : list nat :=
  match results with
  | [] => []
  | x :: rest =>
      if is_selected range_controller x
      then i :: sel_from range_controller (S i) rest
      else sel_from range_controller (S i) rest
  end.

(** The integer a record holds under [key]. *)
Definition score_of (key : string) (r : Entry) : Z :=
  match r !! key with
  | Some (JInt z) => z
  | _ => 0
  end.

Definition score_at (store : list Entry) (key : string) (i : nat) : Z :=
  from_option (score_of key) 0 (store !! i).

(** The number of items of [l] above [z]. *)
Definition count_gt (z : Z) (l : list Z) : Z :=
  Z.of_nat (length (filter (fun z' => z < z') l)).

(** The rank of [r] among the selected records: one more than the number
    of selected records with a higher score. *)
Definition rank_of (range_controller : option Controller) (key : string)
    (results : list Entry) (r : Entry) : Z :=
  1 + count_gt (score_of key r)
               (score_of key <$> filter (fun r' => is_selected range_controller r' = true)
                                        results).

Definition int_keyed (f : nat -> Z) (l : list (json * nat)) : Prop :=
  Forall (fun p => p.1 = JInt (f p.2)) l.

Definition descending (f : nat -> Z) (l : list (json * nat)) : Prop :=
  StronglySorted (fun p q => f q.2 <= f p.2) l.


(** *** The rank block of [process], record by record *)

(** What [rank_column] leaves a record as, read on the list [results]. *)
Definition ranked (range_controller : option Controller) (key_name result_name : string)
    (results : list Entry) (r : Entry) : Entry :=
  if is_selected range_controller r
  then <[result_name := JInt (rank_of range_controller key_name results r)]> r
  else r.

(** The keys the rank block reads. *)
Definition reads : list string := "major"%string :: FieldsHelper.rankable_fields.

(** A record as the decoder of the data service builds it: a major and an
    integer score for every subject. *)
Definition readable (r : Entry) : Prop :=
  is_Some (r !! "major"%string) /\
  forall key, key ∈ FieldsHelper.rankable_fields -> exists z, r !! key = Some (JInt z).

(** [g] changes no key the rank block reads. *)
Definition keeps (g : Entry -> Entry) : Prop :=
  forall r key, key ∈ reads -> g r !! key = r !! key.

(** The controllers of the rank block. *)
Definition block_controller (rc : option Controller) : Prop :=
  rc = None \/ exists major, rc = Some (major_is major).

(** One call of [rank_column] in the block, seen from the records the block
    started with. *)
Definition step_fn (results : list Entry) (rc : option Controller)
    (key_name result_name : string) (g : Entry -> Entry) (r : Entry) : Entry :=
  if is_selected rc r
  then <[result_name := JInt (rank_of rc key_name results r)]> (g r)
  else g r.

Definition majors_fn (results : list Entry) (key : string) (majors : list string)
    (g : Entry -> Entry) : Entry -> Entry :=
  fold_left (fun g major =>
               step_fn results (Some (major_is major)) key (FieldsHelper.wrap_rank key) g)
            majors g.

Definition within_fn (results : list Entry) (keys : list string)
    (g : Entry -> Entry) : Entry -> Entry :=
  fold_left (fun g key => majors_fn results key FieldsHelper.major_list g) keys g.

Definition across_fn (results : list Entry) (keys : list string)
    (g : Entry -> Entry) : Entry -> Entry :=
  fold_left (fun g key => step_fn results None key (FieldsHelper.wrap_cross_rank key) g)
            keys g.

(** A record after the rank block. *)
Definition finish (results : list Entry) : Entry -> Entry :=
  across_fn results FieldsHelper.cross_rankable_fields
    (within_fn results FieldsHelper.rankable_fields id).


(** *** Records for the examples *)

(** A record as [construct_result_map] builds it from integer scores. *)
Definition student (sid major : string) (chn mth eng com sum : Z) : Entry :=
  entry_of (construct_result_map (JStr sid) (JStr "A") (JStr "9801") (JStr major)
              (JInt chn) (JInt mth) (JInt eng) (JInt com) (JInt sum)).

Definition example_results : list Entry :=
  [student "0000000101" "文科" 120 100 110 200 530;
   student "0000000102" "理科" 110 130 120 250 610;
   student "0000000103" "文科" 120 90 100 190 500;
   student "0000000104" "文科" 100 95 105 195 495]%string.

(** *** Lemmas *)

Lemma zfill_length width s : (width <= String.length (zfill width s))%nat.
Proof.
  unfold zfill.
  set (fill := String.concat "" (replicate (width - String.length s) "0"%string)).
  assert (Hfill : String.length fill = (width - String.length s)%nat).
  { unfold fill. rewrite Ocr.concat_unit_length; [by rewrite length_replicate|].
    apply Forall_forall. intros l Hl. by apply elem_of_replicate in Hl as [-> _]. }
  clearbody fill. cbv zeta. destruct s as [|c rest].
  - rewrite Hfill. simpl. lia.
  - destruct (is_sign c).
    + cbn [String.length] in *. rewrite Ocr.string_length_app, Hfill. lia.
    + rewrite Ocr.string_length_app, Hfill. simpl. lia.
Qed.

Lemma output_row_spec entry output_fields :
  output_row entry output_fields
  = (fun key => default (JStr "") (entry !! key)) <$> output_fields.
Proof.
  unfold output_row.
  assert (H : forall row,
             fold_left (fun row key => row ++ [default (JStr "") (entry !! key)])
                       output_fields row
             = row ++ ((fun key => default (JStr "") (entry !! key)) <$> output_fields)).
  { induction output_fields as [|key l IH]; intros row; simpl.
    - by rewrite app_nil_r.
    - rewrite IH. by rewrite <- app_assoc. }
  apply (H []).
Qed.

Lemma output_rows_spec entries output_fields output_field_names :
  output_rows entries output_fields output_field_names
  = ((fun entry => LogWrongLength (size entry) (length output_fields) entry)
       <$> filter (fun entry => size entry <> length output_fields) entries,
     (JStr <$> output_field_names)
       :: ((fun entry => output_row entry output_fields) <$> entries)).
Proof.
  unfold output_rows.
  set (step := fun (acc : list UtilsLog * list (list json)) entry => _).
  assert (H : forall acc,
             fold_left step entries acc
             = (acc.1 ++ ((fun entry => LogWrongLength (size entry)
                                          (length output_fields) entry)
                            <$> filter (fun entry => size entry <> length output_fields)
                                       entries),
                acc.2 ++ ((fun entry => output_row entry output_fields) <$> entries))).
  { induction entries as [|entry l IH]; intros acc; simpl.
    - rewrite !app_nil_r. by destruct acc.
    - rewrite IH. subst step. cbn [fst snd].
      rewrite filter_cons. destruct (decide _); simpl; by rewrite <- !app_assoc. }
  rewrite H. reflexivity.
Qed.

Lemma output_field_names_all :
  exists names,
    FieldsHelper.get_output_field_names true true = inr names /\
    length names = 23%nat.
Proof. eexists. split; vm_compute; reflexivity. Qed.

(** X13. The names of the output columns follow the output fields: for each
    choice of [rank] and [avg], [get_output_field_names] raises nothing and
    its i-th item is the display name of the i-th item of
    [get_output_fields]; no field and no name occurs twice. *)
Theorem output_names_follow_output_fields rank avg :
  exists names,
    FieldsHelper.get_output_field_names rank avg = inr names /\
    Forall2 (fun field name => FieldsHelper.get_output_field_name field = inr name)
            (FieldsHelper.get_output_fields rank avg) names /\
    NoDup (FieldsHelper.get_output_fields rank avg) /\
    NoDup names.
Proof.
  assert (Hdec : forall l : list string, bool_decide (NoDup l) = true -> NoDup l)
    by (intros l H; by apply bool_decide_eq_true in H).
  destruct rank, avg.
  all: eexists; split; [vm_compute; reflexivity|].
  all: split; [repeat constructor|].
  all: split; apply Hdec; vm_compute; reflexivity.
Qed.

(** X14. A header row written with [get_output_field_names] reads back
    through [get_field_key_by_name], as [LocalDataService] and
    [LocalQuerySupplier] read it: the column of a basic field gives the key
    of that field, the column of a rank or of an average gives [None] and is
    skipped. *)
Theorem written_header_reads_back rank avg :
  exists names,
    FieldsHelper.get_output_field_names rank avg = inr names /\
    FieldsHelper.get_field_key_by_name <$> names
    = (fun field => if bool_decide (field ∈ basic_fields) then Some field else None)
        <$> FieldsHelper.get_output_fields rank avg.
Proof.
  destruct rank, avg; eexists; (split; [vm_compute; reflexivity|]);
    vm_compute; reflexivity.
Qed.

(** X15. [output_rows] returns the header row followed by one row per
    entry, in order; every row of an entry has one cell per output field,
    holding the entry's value for that field or the empty string when the
    entry has no such key; keys that are no output field are left out.  A
    warning is logged for each entry whose number of keys differs from the
    number of output fields, in the order of the entries, with the two
    numbers and the entry, and nothing else is logged. *)
Theorem output_rows_shape entries output_fields output_field_names :
  let out := output_rows entries output_fields output_field_names in
  length out.2 = S (length entries) /\
  out.2 !! 0%nat = Some (JStr <$> output_field_names) /\
  (forall i entry, entries !! i = Some entry ->
     exists row, out.2 !! S i = Some row /\
                 length row = length output_fields /\
                 forall j key, output_fields !! j = Some key ->
                   row !! j = Some (default (JStr "") (entry !! key))) /\
  out.1 = (fun entry => LogWrongLength (size entry) (length output_fields) entry)
            <$> filter (fun entry => size entry <> length output_fields) entries.
Proof.
  rewrite output_rows_spec. cbn [fst snd]. split; [|split; [|split]].
  - simpl. by rewrite length_fmap.
  - done.
  - intros i entry Hi. exists (output_row entry output_fields).
    split; [simpl; by rewrite list_lookup_fmap, Hi|].
    rewrite output_row_spec. split; [by rewrite length_fmap|].
    intros j key Hj. by rewrite list_lookup_fmap, Hj.
  - done.
Qed.

(** X16. The table a persistence service writes is rectangular: every row
    of [CSVPersistenceService] has 23 cells and every row of
    [CSVEnrollmentPersistenceService] has 7, whatever keys the records have
    and whatever [rank] and [avg] were given to the service. *)
Theorem written_table_is_rectangular _results :
  (exists log rows,
     CSVPersistenceService_rows _results = inr (log, rows) /\
     Forall (fun row => length row = 23%nat) rows) /\
  Forall (fun row => length row = 7%nat)
         (CSVEnrollmentPersistenceService_rows _results).2.
Proof.
  split.
  - unfold CSVPersistenceService_rows.
    destruct output_field_names_all as (names & -> & Hlen).
    cbn [mbind exc_bind mret exc_ret]. rewrite output_rows_spec.
    eexists _, _. split; [reflexivity|].
    constructor; [by rewrite length_fmap|].
    apply Forall_fmap, Forall_forall. intros entry _. unfold compose.
    by rewrite output_row_spec, length_fmap.
  - unfold CSVEnrollmentPersistenceService_rows. rewrite output_rows_spec.
    cbn [snd]. constructor; [done|].
    apply Forall_fmap, Forall_forall. intros entry _. unfold compose.
    by rewrite output_row_spec, length_fmap.
Qed.

Lemma ranged_from_spec rc i results :
  (forall r, r ∈ results -> exists b, rc r = inr b) ->
  ranged_from rc i results = inr (sel_from (Some rc) i results).
Proof.
  revert i; induction results as [|x rest IH]; intros i Hrc; [done|].
  cbn [ranged_from sel_from is_selected].
  destruct (Hrc x) as [b Hb]; [apply list_elem_of_here|]. rewrite Hb.
  cbn [mbind exc_bind]. rewrite IH
    by (intros r Hr; apply Hrc; by apply list_elem_of_further).
  cbn [mbind exc_bind mret exc_ret]. by destruct b.
Qed.

Lemma seq_sel_from i results : seq i (length results) = sel_from None i results.
Proof.
  revert i; induction results as [|x rest IH]; intros i; simpl; [done|].
  by rewrite IH.
Qed.

Lemma ranged_results_spec results range_controller :
  (forall r, r ∈ results ->
     match range_controller with
     | Some rc => exists b, rc r = inr b
     | None => True
     end) ->
  ranged_results results range_controller
  = inr (sel_from range_controller 0 results).
Proof.
  destruct range_controller as [rc|]; simpl; intros H.
  - by apply ranged_from_spec.
  - by rewrite seq_sel_from.
Qed.

Lemma sel_from_ge rc i results j : j ∈ sel_from rc i results -> (i <= j)%nat.
Proof.
  revert i; induction results as [|x rest IH]; intros i; simpl.
  - intros H. by apply elem_of_nil in H.
  - destruct (is_selected rc x).
    + intros [->|H]%elem_of_cons; [lia|]. apply IH in H. lia.
    + intros H. apply IH in H. lia.
Qed.

Lemma sel_from_NoDup rc i results : NoDup (sel_from rc i results).
Proof.
  revert i; induction results as [|x rest IH]; intros i; simpl; [constructor|].
  destruct (is_selected rc x); [|apply IH].
  constructor; [|apply IH]. intros H. apply sel_from_ge in H. lia.
Qed.

Lemma sel_from_lookup rc pre rest j :
  j ∈ sel_from rc (length pre) rest <->
  (length pre <= j)%nat /\
  exists r, (pre ++ rest) !! j = Some r /\ is_selected rc r = true.
Proof.
  revert pre; induction rest as [|x rest IH]; intros pre; simpl.
  - split; [intros H; by apply elem_of_nil in H|].
    intros (Hle & r & Hr & _). rewrite app_nil_r in Hr.
    apply lookup_lt_Some in Hr. lia.
  - assert (Hx : (pre ++ x :: rest) !! length pre = Some x)
      by (rewrite lookup_app_r by lia; by rewrite Nat.sub_diag).
    specialize (IH (pre ++ [x])). rewrite length_app in IH. simpl in IH.
    rewrite Nat.add_1_r, <- app_assoc in IH. simpl in IH.
    destruct (is_selected rc x) eqn:Hsel.
    + rewrite elem_of_cons, IH. split.
      * intros [->|(Hle & r & Hr & Hs)]; [split; [lia|eauto]|].
        split; [lia|eauto].
      * intros (Hle & r & Hr & Hs).
        destruct (decide (j = length pre)) as [->|Hne]; [by left|].
        right. split; [lia|eauto].
    + rewrite IH. split.
      * intros (Hle & r & Hr & Hs). split; [lia|eauto].
      * intros (Hle & r & Hr & Hs).
        destruct (decide (j = length pre)) as [->|Hne]; [congruence|].
        split; [lia|eauto].
Qed.

Lemma sel_from_entries rc pre rest :
  (fun j => (pre ++ rest) !! j) <$> sel_from rc (length pre) rest
  = Some <$> filter (fun r => is_selected rc r = true) rest.
Proof.
  revert pre; induction rest as [|x rest IH]; intros pre; [done|].
  assert (Hx : (pre ++ x :: rest) !! length pre = Some x)
    by (rewrite lookup_app_r by lia; by rewrite Nat.sub_diag).
  assert (IH' : (fun j => (pre ++ x :: rest) !! j) <$> sel_from rc (S (length pre)) rest
                = Some <$> filter (fun r => is_selected rc r = true) rest).
  { specialize (IH (pre ++ [x])). rewrite length_app, Nat.add_1_r in IH.
    rewrite <- IH. apply list_fmap_ext. intros _ j _.
    by rewrite <- app_assoc. }
  cbn [sel_from]. rewrite filter_cons. destruct (is_selected rc x) eqn:Hsel.
  - rewrite decide_True by done. rewrite !fmap_cons. by rewrite Hx, IH'.
  - rewrite decide_False by done. exact IH'.
Qed.

Lemma sel_from_scores rc key results :
  score_at results key <$> sel_from rc 0 results
  = score_of key <$> filter (fun r => is_selected rc r = true) results.
Proof.
  pose proof (sel_from_entries rc [] results) as H. simpl in H.
  assert (Hmap : score_at results key <$> sel_from rc 0 results
                 = from_option (score_of key) 0
                     <$> ((fun j => results !! j) <$> sel_from rc 0 results))
    by (by rewrite <- list_fmap_compose).
  rewrite Hmap, H, <- list_fmap_compose. done.
Qed.

Lemma sort_keys_spec store lst key_name :
  (forall i, i ∈ lst ->
     exists r z, store !! i = Some r /\ r !! key_name = Some (JInt z)) ->
  sort_keys store lst key_name
  = inr ((fun i => (JInt (score_at store key_name i), i)) <$> lst).
Proof.
  induction lst as [|i rest IH]; intros H; [done|].
  cbn [sort_keys].
  destruct (H i) as (r & z & Hr & Hz); [apply list_elem_of_here|].
  unfold getitem. rewrite Hr. cbn [mbind option_bind]. rewrite Hz.
  cbn [mbind exc_bind].
  rewrite IH by (intros j Hj; apply H; by apply list_elem_of_further).
  cbn [mbind exc_bind mret exc_ret fmap list_fmap]. do 2 f_equal.
  unfold score_at, score_of. rewrite Hr. simpl. rewrite Hz. f_equal.
  cbn [py_bool]. destruct (Z.eqb_spec z 0) as [->|]; done.
Qed.

Lemma int_keyed_perm f l l' : l ≡ₚ l' -> int_keyed f l -> int_keyed f l'.
Proof. intros Hp H. unfold int_keyed. by rewrite <- Hp. Qed.

Lemma insert_reverse_spec f x l :
  x.1 = JInt (f x.2) -> int_keyed f l -> descending f l ->
  exists s, insert_reverse x l = Some (inr s) /\ s ≡ₚ x :: l /\ descending f s.
Proof.
  intros Hx Hkeys Hsorted.
  induction l as [|y l IH]; simpl.
  - exists [x]. split; [done|]. split; [done|]. repeat constructor.
  - apply Forall_cons in Hkeys as [Hy Hkeys].
    apply StronglySorted_inv in Hsorted as [Hsorted Hall].
    rewrite Hx, Hy. cbn [py_lt num_of].
    destruct (Z.ltb_spec (f x.2) (f y.2)) as [Hlt|Hge].
    + destruct (IH Hkeys Hsorted) as (s & -> & Hperm & Hs).
      exists (y :: s). split; [done|].
      split; [rewrite Hperm; apply Permutation_swap|].
      constructor; [done|]. rewrite Hperm. constructor; [lia|done].
    + exists (x :: y :: l). split; [done|]. split; [done|].
      constructor; [by constructor|].
      constructor; [done|].
      eapply Forall_impl; [exact Hall|]. intros q Hq. simpl in Hq. lia.
Qed.

Lemma sorted_reverse_spec f l :
  int_keyed f l ->
  exists s, sorted_reverse l = Some (inr s) /\ s ≡ₚ l /\ descending f s.
Proof.
  induction l as [|x l IH]; intros Hkeys; simpl.
  - exists []. split; [done|]. split; [done|]. constructor.
  - apply Forall_cons in Hkeys as [Hx Hkeys].
    destruct (IH Hkeys) as (s & -> & Hperm & Hs).
    destruct (insert_reverse_spec f x s Hx) as (s' & -> & Hperm' & Hs');
      [by eapply int_keyed_perm|done|].
    exists s'. split; [done|]. split; [by rewrite Hperm', Hperm|done].
Qed.

Lemma count_gt_app z l1 l2 : count_gt z (l1 ++ l2) = count_gt z l1 + count_gt z l2.
Proof. unfold count_gt. rewrite filter_app, length_app. lia. Qed.

Lemma count_gt_none z l : Forall (fun z' => z' <= z) l -> count_gt z l = 0.
Proof.
  unfold count_gt. induction 1 as [|z' l Hz _ IH]; [done|].
  rewrite filter_cons, decide_False by lia. exact IH.
Qed.

Lemma count_gt_all z l :
  Forall (fun z' => z < z') l -> count_gt z l = Z.of_nat (length l).
Proof.
  unfold count_gt. induction 1 as [|z' l Hz _ IH]; [done|].
  rewrite filter_cons, decide_True by lia. simpl. lia.
Qed.

Lemma count_gt_perm z l l' : l ≡ₚ l' -> count_gt z l = count_gt z l'.
Proof. intros H. unfold count_gt. by rewrite H. Qed.

Lemma getitem_int store i key r z :
  store !! i = Some r -> r !! key = Some (JInt z) ->
  getitem store i key = inr (JInt z).
Proof. intros Hr Hz. unfold getitem. rewrite Hr. simpl. by rewrite Hz. Qed.

Lemma setitem_lookup_ne i j key v store :
  i <> j -> setitem i key v store !! j = store !! j.
Proof. intros H. unfold setitem. by rewrite list_lookup_alter_ne. Qed.

Lemma setitem_lookup i key v store r :
  store !! i = Some r -> setitem i key v store !! i = Some (<[key := v]> r).
Proof. intros H. unfold setitem. by rewrite list_lookup_alter_eq, H. Qed.

Lemma setitem_length i key v store : length (setitem i key v store) = length store.
Proof. unfold setitem. by rewrite length_alter. Qed.

(** The loop after its first turn, on positions whose scores descend. *)
Lemma rank_loop_descending key_name result_name (f : nat -> Z)
    (original : list Entry) :
  forall suf done_scores previous_z store,
    NoDup suf ->
    (forall i, i ∈ suf ->
       store !! i = original !! i /\
       exists r, original !! i = Some r /\ r !! key_name = Some (JInt (f i))) ->
    Forall (fun z => previous_z <= z) done_scores ->
    StronglySorted (fun a b => b <= a) (previous_z :: (f <$> suf)) ->
    exists store',
      rank_loop key_name result_name suf (1 + Z.of_nat (length done_scores))
                (1 + count_gt previous_z done_scores) (JInt previous_z) store
      = (store', inr tt) /\
      length store' = length store /\
      (forall i, i ∉ suf -> store' !! i = store !! i) /\
      (forall i r, i ∈ suf -> original !! i = Some r ->
         store' !! i
         = Some (<[result_name :=
                     JInt (1 + count_gt (f i) (done_scores ++ (f <$> suf)))]> r)).
Proof.
  induction suf as [|x suf IH];
    intros done_scores previous_z store Hnodup Hsuf Hdone Hsorted.
  - exists store. split; [done|]. split; [done|]. split; [done|].
    intros i r Hi. by apply elem_of_nil in Hi.
  - apply NoDup_cons in Hnodup as [Hx Hnodup].
    destruct (Hsuf x) as (Hsx & r & Hox & Hrx); [apply list_elem_of_here|].
    rewrite Hox in Hsx.
    assert (Hcount : 0 <= count_gt previous_z done_scores) by (unfold count_gt; lia).
    cbn [rank_loop]. rewrite (getitem_int _ _ _ _ _ Hsx Hrx).
    destruct (Z.eqb_spec (1 + count_gt previous_z done_scores) 0) as [|_]; [lia|].
    cbn [fmap list_fmap] in Hsorted.
    apply StronglySorted_inv in Hsorted as [Hsorted Hle].
    apply Forall_cons in Hle as [Hxle Hle].
    pose proof Hsorted as Hsorted'.
    apply StronglySorted_inv in Hsorted' as [Hsorted' Hxall].
    assert (Hsuf' : forall v i, i ∈ suf ->
              setitem x result_name v store !! i = original !! i /\
              exists r, original !! i = Some r /\ r !! key_name = Some (JInt (f i))).
    { intros v i Hi. destruct (Hsuf i) as [Hs Hr]; [by apply list_elem_of_further|].
      split; [|done]. rewrite setitem_lookup_ne; [done|]. intros ->. done. }
    cbn [py_eq]. destruct (Z.eqb_spec (f x) previous_z) as [Heq|Hne].
    + (* Same value, same rank *)
      destruct (IH (done_scores ++ [f x]) previous_z
                  (setitem x result_name
                     (JInt (1 + count_gt previous_z done_scores)) store))
        as (store' & Hloop & Hlen & Hout & Hin).
      * done.
      * apply Hsuf'.
      * apply Forall_app. split; [done|]. constructor; [lia|done].
      * constructor; [done|done].
      * rewrite length_app in Hloop. simpl in Hloop.
        rewrite count_gt_app in Hloop.
        rewrite (count_gt_none previous_z [f x]) in Hloop
          by (constructor; [lia|done]).
        replace (1 + Z.of_nat (length done_scores + 1))
          with (1 + Z.of_nat (length done_scores) + 1) in Hloop by lia.
        rewrite Z.add_0_r in Hloop.
        exists store'. split; [exact Hloop|].
        split; [by rewrite Hlen, setitem_length|]. split.
        -- intros i Hi. apply not_elem_of_cons in Hi as [Hix Hi].
           rewrite Hout by done. by rewrite setitem_lookup_ne.
        -- intros i r' [->|Hi]%elem_of_cons Hr'.
           ++ rewrite Hout by done. rewrite Hox in Hr'. injection Hr' as <-.
              rewrite (setitem_lookup _ _ _ _ _ Hsx). do 3 f_equal.
              cbn [fmap list_fmap]. rewrite count_gt_app.
              rewrite (count_gt_none (f x) (f x :: (f <$> suf)))
                by (constructor; [lia|done]).
              rewrite Heq. lia.
           ++ rewrite (Hin i r' Hi Hr'). do 3 f_equal.
              rewrite <- app_assoc. done.
    + (* a lower value: the rank is the index *)
      destruct (IH (done_scores ++ [f x]) (f x)
                  (setitem x result_name
                     (JInt (1 + Z.of_nat (length done_scores))) store))
        as (store' & Hloop & Hlen & Hout & Hin).
      * done.
      * apply Hsuf'.
      * apply Forall_app. split; [|constructor; [lia|done]].
        eapply Forall_impl; [exact Hdone|]. intros z Hz. simpl in Hz. lia.
      * done.
      * rewrite length_app in Hloop. simpl in Hloop.
        rewrite count_gt_app in Hloop.
        rewrite (count_gt_none (f x) [f x]) in Hloop by (constructor; [lia|done]).
        rewrite (count_gt_all (f x) done_scores) in Hloop
          by (eapply Forall_impl; [exact Hdone|]; intros z Hz; simpl in Hz; lia).
        replace (1 + Z.of_nat (length done_scores + 1))
          with (1 + Z.of_nat (length done_scores) + 1) in Hloop by lia.
        rewrite Z.add_0_r in Hloop.
        exists store'. split; [exact Hloop|].
        split; [by rewrite Hlen, setitem_length|]. split.
        -- intros i Hi. apply not_elem_of_cons in Hi as [Hix Hi].
           rewrite Hout by done. by rewrite setitem_lookup_ne.
        -- intros i r' [->|Hi]%elem_of_cons Hr'.
           ++ rewrite Hout by done. rewrite Hox in Hr'. injection Hr' as <-.
              rewrite (setitem_lookup _ _ _ _ _ Hsx). do 3 f_equal.
              cbn [fmap list_fmap]. rewrite count_gt_app.
              rewrite (count_gt_none (f x) (f x :: (f <$> suf)))
                by (constructor; [lia|done]).
              rewrite (count_gt_all (f x) done_scores)
                by (eapply Forall_impl; [exact Hdone|]; intros z Hz; simpl in Hz; lia).
              lia.
           ++ rewrite (Hin i r' Hi Hr'). do 3 f_equal.
              rewrite <- app_assoc. done.
Qed.

Lemma rank_loop_sorted key_name result_name (f : nat -> Z) (original : list Entry) srt :
  NoDup srt ->
  (forall i, i ∈ srt ->
     exists r, original !! i = Some r /\ r !! key_name = Some (JInt (f i))) ->
  StronglySorted (fun a b => b <= a) (f <$> srt) ->
  exists store',
    rank_loop key_name result_name srt 1 0 (JInt 0) original = (store', inr tt) /\
    length store' = length original /\
    (forall i, i ∉ srt -> store' !! i = original !! i) /\
    (forall i r, i ∈ srt -> original !! i = Some r ->
       store' !! i
       = Some (<[result_name := JInt (1 + count_gt (f i) (f <$> srt))]> r)).
Proof.
  intros Hnodup Hsrt Hsorted. destruct srt as [|x suf].
  - exists original. split; [done|]. split; [done|]. split; [done|].
    intros i r Hi. by apply elem_of_nil in Hi.
  - apply NoDup_cons in Hnodup as [Hx Hnodup].
    destruct (Hsrt x) as (r & Hox & Hrx); [apply list_elem_of_here|].
    cbn [rank_loop]. rewrite (getitem_int _ _ _ _ _ Hox Hrx).
    cbn [Z.eqb].
    destruct (rank_loop_descending key_name result_name f original suf [f x] (f x)
                (setitem x result_name (JInt 1) original))
      as (store' & Hloop & Hlen & Hout & Hin).
    + done.
    + intros i Hi. split.
      * rewrite setitem_lookup_ne; [done|]. intros ->. done.
      * apply Hsrt. by apply list_elem_of_further.
    + constructor; [lia|done].
    + exact Hsorted.
    + rewrite (count_gt_none (f x) [f x]) in Hloop by (constructor; [lia|done]).
      change (1 + Z.of_nat (length [f x])) with (1 + 1) in Hloop.
      change (1 + 0) with 1 in Hloop.
      exists store'. split; [exact Hloop|].
      split; [by rewrite Hlen, setitem_length|]. split.
      * intros i Hi. apply not_elem_of_cons in Hi as [Hix Hi].
        rewrite Hout by done. by rewrite setitem_lookup_ne.
      * intros i r' [->|Hi]%elem_of_cons Hr'.
        -- rewrite Hout by done. rewrite Hox in Hr'. injection Hr' as <-.
           rewrite (setitem_lookup _ _ _ _ _ Hox). do 3 f_equal.
           cbn [fmap list_fmap] in Hsorted |- *.
           apply StronglySorted_inv in Hsorted as [_ Hle].
           rewrite (count_gt_none (f x) (f x :: (f <$> suf)))
             by (constructor; [lia|done]).
           done.
        -- rewrite (Hin i r' Hi Hr'). done.
Qed.

Lemma descending_scores f (s : list (json * nat)) :
  descending f s -> StronglySorted (fun a b => b <= a) (f <$> s.*2).
Proof.
  induction 1 as [|p s _ IH Hall]; [constructor|].
  rewrite !fmap_cons. constructor; [exact IH|].
  apply Forall_fmap, Forall_fmap. eapply Forall_impl; [exact Hall|]. done.
Qed.

(** [rank_column] on records whose selected members hold integers. *)
Lemma rank_column_spec results key_name result_name range_controller :
  (forall r, r ∈ results ->
     match range_controller with
     | Some rc => exists b, rc r = inr b
     | None => True
     end) ->
  (forall r, r ∈ results -> is_selected range_controller r = true ->
     exists z, r !! key_name = Some (JInt z)) ->
  exists results',
    rank_column results key_name result_name range_controller
    = Some (results', inr tt) /\
    length results' = length results /\
    forall i r, results !! i = Some r ->
      results' !! i
      = Some (if is_selected range_controller r
              then <[result_name :=
                       JInt (rank_of range_controller key_name results r)]> r
              else r).
Proof.
  intros Hrc Hint. unfold rank_column.
  rewrite ranged_results_spec by done.
  set (sel := sel_from range_controller 0 results).
  set (f := score_at results key_name).
  assert (Hsel : forall i, i ∈ sel <->
            exists r, results !! i = Some r /\ is_selected range_controller r = true).
  { intros i. unfold sel.
    rewrite (sel_from_lookup range_controller [] results i). simpl.
    split; [intros (_ & H); exact H|intros H; split; [lia|exact H]]. }
  assert (Hvals : forall i, i ∈ sel ->
            exists r, results !! i = Some r /\ r !! key_name = Some (JInt (f i))).
  { intros i Hi. apply Hsel in Hi as (r & Hr & Hs).
    destruct (Hint r) as [z Hz]; [by eapply list_elem_of_lookup_2|done|].
    exists r. split; [done|]. unfold f, score_at, score_of. rewrite Hr. simpl.
    by rewrite Hz. }
  unfold rank_result_list.
  rewrite sort_keys_spec
    by (intros i Hi; destruct (Hvals i Hi) as (r & Hr & Hz); eauto).
  fold f.
  destruct (sorted_reverse_spec f ((fun i => (JInt (f i), i)) <$> sel))
    as (s & -> & Hperm & Hdesc).
  { apply Forall_fmap, Forall_forall. done. }
  assert (Hsrt : s.*2 ≡ₚ sel).
  { rewrite Hperm, <- list_fmap_compose. by rewrite list_fmap_id. }
  destruct (rank_loop_sorted key_name result_name f results s.*2)
    as (results' & Hloop & Hlen & Hout & Hin).
  { rewrite Hsrt. apply sel_from_NoDup. }
  { intros i Hi. rewrite Hsrt in Hi. by apply Hvals. }
  { by apply descending_scores. }
  exists results'. split; [by rewrite Hloop|]. split; [done|].
  intros i r Hr. destruct (is_selected range_controller r) eqn:Hs.
  - assert (Hi : i ∈ s.*2) by (rewrite Hsrt; apply Hsel; eauto).
    rewrite (Hin i r Hi Hr). do 3 f_equal. unfold rank_of. f_equal.
    rewrite (count_gt_perm _ (f <$> s.*2) (f <$> sel)) by (by rewrite Hsrt).
    unfold f at 2, sel. rewrite sel_from_scores.
    unfold f, score_at. by rewrite Hr.
  - rewrite Hout; [done|]. rewrite Hsrt. intros Hi.
    apply Hsel in Hi as (r' & Hr' & Hs'). congruence.
Qed.

(** X17. [rank_column] gives competition ranks.  When the range controller
    raises on no record and every record it selects holds an integer under
    [key_name], the call returns; every selected record now holds under
    [result_name] one more than the number of selected records with a higher
    score (equal scores share a rank, the next lower score skips the shared
    places); and nothing else changes: no record is added, removed or moved,
    and a record that was not selected is as it was. *)
Theorem rank_column_gives_competition_ranks results key_name result_name
    range_controller :
  (forall r, r ∈ results ->
     match range_controller with
     | Some rc => exists b, rc r = inr b
     | None => True
     end) ->
  (forall r, r ∈ results -> is_selected range_controller r = true ->
     exists z, r !! key_name = Some (JInt z)) ->
  rank_column results key_name result_name range_controller
  = Some ((fun r =>
             if is_selected range_controller r
             then <[result_name :=
                      JInt (1 + count_gt (score_of key_name r)
                                (score_of key_name
                                   <$> filter (fun r' => is_selected range_controller r' = true)
                                              results))]> r
             else r) <$> results,
          inr tt).
Proof.
  intros Hrc Hint.
  destruct (rank_column_spec results key_name result_name range_controller Hrc Hint)
    as (results' & -> & Hlen & Hlookup).
  do 2 f_equal. apply list_eq. intros i. rewrite list_lookup_fmap.
  destruct (results !! i) as [r|] eqn:Hr; simpl.
  - by rewrite (Hlookup i r Hr).
  - apply lookup_ge_None. rewrite Hlen. by apply lookup_ge_None.
Qed.
Lemma rank_column_ranked results key_name result_name range_controller :
  (forall r, r ∈ results ->
     match range_controller with
     | Some rc => exists b, rc r = inr b
     | None => True
     end) ->
  (forall r, r ∈ results -> is_selected range_controller r = true ->
     exists z, r !! key_name = Some (JInt z)) ->
  rank_column results key_name result_name range_controller
  = Some (ranked range_controller key_name result_name results <$> results, inr tt).
Proof.
  intros Hrc Hint.
  destruct (rank_column_spec results key_name result_name range_controller Hrc Hint)
    as (results' & -> & Hlen & Hlookup).
  do 2 f_equal. apply list_eq. intros i. rewrite list_lookup_fmap.
  destruct (results !! i) as [r|] eqn:Hr; simpl.
  - by rewrite (Hlookup i r Hr).
  - apply lookup_ge_None. rewrite Hlen. by apply lookup_ge_None.
Qed.

Lemma is_selected_keeps rc g r :
  block_controller rc -> keeps g -> is_selected rc (g r) = is_selected rc r.
Proof.
  intros [->|[major ->]] Hg; [done|].
  unfold is_selected, major_is. rewrite (Hg r "major"%string); [done|].
  apply list_elem_of_here.
Qed.

Lemma score_of_keeps key g r :
  key ∈ FieldsHelper.rankable_fields -> keeps g -> score_of key (g r) = score_of key r.
Proof.
  intros Hkey Hg. unfold score_of. rewrite (Hg r key); [done|].
  by apply list_elem_of_further.
Qed.

Lemma selected_scores_keeps rc key g (results : list Entry) :
  block_controller rc -> key ∈ FieldsHelper.rankable_fields -> keeps g ->
  score_of key <$> filter (fun r' => is_selected rc r' = true) (g <$> results)
  = score_of key <$> filter (fun r' => is_selected rc r' = true) results.
Proof.
  intros Hrc Hkey Hg. induction results as [|r results IH]; [done|].
  rewrite fmap_cons, !filter_cons, (is_selected_keeps rc g r Hrc Hg).
  destruct (decide _); [|exact IH].
  rewrite !fmap_cons, IH. by rewrite (score_of_keeps key g r Hkey Hg).
Qed.

Lemma rank_of_keeps rc key g (results : list Entry) r :
  block_controller rc -> key ∈ FieldsHelper.rankable_fields -> keeps g ->
  rank_of rc key (g <$> results) (g r) = rank_of rc key results r.
Proof.
  intros Hrc Hkey Hg. unfold rank_of.
  by rewrite (selected_scores_keeps rc key g results Hrc Hkey Hg),
             (score_of_keeps key g r Hkey Hg).
Qed.

Lemma step_fn_keeps results rc key_name result_name g :
  result_name ∉ reads -> keeps g -> keeps (step_fn results rc key_name result_name g).
Proof.
  intros Hname Hg r key Hkey. unfold step_fn.
  destruct (is_selected rc r); cbv iota; [|by apply Hg].
  rewrite lookup_insert_ne; [by apply Hg|]. intros ->. done.
Qed.

(** One call of the block on the records the earlier calls left. *)
Lemma rank_column_step results rc key_name result_name g :
  Forall readable results -> block_controller rc ->
  key_name ∈ FieldsHelper.rankable_fields -> keeps g ->
  rank_column (g <$> results) key_name result_name rc
  = Some (step_fn results rc key_name result_name g <$> results, inr tt).
Proof.
  intros Hread Hrc Hkey Hg.
  rewrite rank_column_ranked.
  - do 2 f_equal. rewrite <- list_fmap_compose. apply list_fmap_ext.
    intros _ r _. unfold compose, ranked, step_fn.
    rewrite (is_selected_keeps rc g r Hrc Hg).
    by rewrite (rank_of_keeps rc key_name g results r Hrc Hkey Hg).
  - intros c Hc. apply list_elem_of_fmap in Hc as (r & -> & Hr).
    destruct Hrc as [->|[major ->]]; [done|].
    rewrite Forall_forall in Hread. destruct (Hread r Hr) as [[m Hm] _].
    unfold major_is. rewrite (Hg r "major"%string) by apply list_elem_of_here.
    rewrite Hm. eauto.
  - intros c Hc _. apply list_elem_of_fmap in Hc as (r & -> & Hr).
    rewrite Forall_forall in Hread. destruct (Hread r Hr) as [_ Hscores].
    destruct (Hscores key_name Hkey) as [z Hz]. exists z.
    rewrite (Hg r key_name); [done|]. by apply list_elem_of_further.
Qed.

Lemma wrap_rank_not_read key :
  key ∈ FieldsHelper.rankable_fields -> FieldsHelper.wrap_rank key ∉ reads.
Proof.
  intros Hkey.
  repeat (apply elem_of_cons in Hkey as [->|Hkey];
          [apply (bool_decide_unpack _); vm_compute; exact I|]).
  by apply elem_of_nil in Hkey.
Qed.

Lemma wrap_cross_rank_not_read key :
  key ∈ FieldsHelper.cross_rankable_fields -> FieldsHelper.wrap_cross_rank key ∉ reads.
Proof.
  intros Hkey.
  repeat (apply elem_of_cons in Hkey as [->|Hkey];
          [apply (bool_decide_unpack _); vm_compute; exact I|]).
  by apply elem_of_nil in Hkey.
Qed.

Lemma cross_rankable_is_rankable key :
  key ∈ FieldsHelper.cross_rankable_fields -> key ∈ FieldsHelper.rankable_fields.
Proof.
  intros Hkey.
  repeat (apply elem_of_cons in Hkey as [->|Hkey];
          [apply (bool_decide_unpack _); vm_compute; exact I|]).
  by apply elem_of_nil in Hkey.
Qed.

Lemma rank_majors_spec results key majors g :
  Forall readable results -> key ∈ FieldsHelper.rankable_fields -> keeps g ->
  rank_majors key majors (g <$> results)
  = Some (majors_fn results key majors g <$> results, inr tt) /\
  keeps (majors_fn results key majors g).
Proof.
  intros Hread Hkey. revert g.
  induction majors as [|major majors IH]; intros g Hg; [done|].
  cbn [rank_majors majors_fn fold_left].
  rewrite rank_column_step by (done || right; eauto).
  apply IH, step_fn_keeps; [by apply wrap_rank_not_read|done].
Qed.

Lemma rank_within_majors_spec results keys g :
  Forall readable results ->
  (forall key, key ∈ keys -> key ∈ FieldsHelper.rankable_fields) -> keeps g ->
  rank_within_majors keys (g <$> results)
  = Some (within_fn results keys g <$> results, inr tt) /\
  keeps (within_fn results keys g).
Proof.
  intros Hread. revert g.
  induction keys as [|key keys IH]; intros g Hkeys Hg; [done|].
  cbn [rank_within_majors within_fn fold_left].
  destruct (rank_majors_spec results key FieldsHelper.major_list g)
    as [-> Hkeeps]; [done|apply Hkeys, list_elem_of_here|done|].
  apply IH; [|done]. intros k Hk. by apply Hkeys, list_elem_of_further.
Qed.

Lemma rank_across_majors_spec results keys g :
  Forall readable results ->
  (forall key, key ∈ keys -> key ∈ FieldsHelper.cross_rankable_fields) -> keeps g ->
  rank_across_majors keys (g <$> results)
  = Some (across_fn results keys g <$> results, inr tt) /\
  keeps (across_fn results keys g).
Proof.
  intros Hread. revert g.
  induction keys as [|key keys IH]; intros g Hkeys Hg; [done|].
  cbn [rank_across_majors across_fn fold_left].
  rewrite rank_column_step
    by (done || (by left)
        || apply cross_rankable_is_rankable, Hkeys, list_elem_of_here).
  apply IH; [intros k Hk; by apply Hkeys, list_elem_of_further|].
  apply step_fn_keeps; [|done].
  apply wrap_cross_rank_not_read, Hkeys, list_elem_of_here.
Qed.

Lemma process_finish results :
  Forall readable results ->
  process true results = Some (finish results <$> results, inr tt).
Proof.
  intros Hread. unfold process, finish.
  destruct (rank_within_majors_spec results FieldsHelper.rankable_fields id)
    as [Hwithin Hkeeps]; [done|done|done|].
  rewrite list_fmap_id in Hwithin. rewrite Hwithin.
  by destruct (rank_across_majors_spec results FieldsHelper.cross_rankable_fields
                 (within_fn results FieldsHelper.rankable_fields id))
    as [-> _].
Qed.

Lemma py_eq_str v s : py_eq v (JStr s) = true <-> v = JStr s.
Proof.
  destruct v; simpl; try (split; [discriminate|done]).
  rewrite bool_decide_eq_true. split; [by intros ->|by intros [= ->]].
Qed.

Lemma is_selected_major r major major' :
  r !! "major"%string = Some (JStr major) ->
  is_selected (Some (major_is major')) r = bool_decide (major = major').
Proof.
  intros Hr. unfold is_selected, major_is. rewrite Hr. simpl.
  by destruct (bool_decide (major = major')).
Qed.

Lemma is_selected_other r major' :
  r !! "major"%string <> Some (JStr major') ->
  is_selected (Some (major_is major')) r = false.
Proof.
  intros Hr. unfold is_selected, major_is.
  destruct (r !! "major"%string) as [v|]; [|done].
  destruct (py_eq v (JStr major')) eqn:Heq; [|done].
  apply py_eq_str in Heq as ->. done.
Qed.

Lemma lookup_step_fn results rc key_name result_name g r k :
  step_fn results rc key_name result_name g r !! k
  = if is_selected rc r && bool_decide (result_name = k)
    then Some (JInt (rank_of rc key_name results r))
    else g r !! k.
Proof.
  unfold step_fn. destruct (is_selected rc r); [|done]. cbn [andb].
  case_bool_decide as Hk.
  - subst. by rewrite lookup_insert_eq.
  - by rewrite lookup_insert_ne.
Qed.

(** The key a field of a finished record is looked up under is compared
    with the twelve names the block writes. *)
Ltac decide_names :=
  repeat match goal with
         | |- context [bool_decide (?a = ?b)] =>
             let v := eval vm_compute in (bool_decide (a = b)) in
             change (bool_decide (a = b)) with v
         end;
  rewrite ?andb_true_r, ?andb_false_r.

Ltac each_key H :=
  repeat (apply elem_of_cons in H as [->|H]); [..|by apply elem_of_nil in H].

(** X18. The rank block of [CSVPersistenceService.process], on records that
    hold a major and an integer score for each of the five subjects.  The
    block returns and keeps the records in place.  A record whose major is
    one of the two majors of [major_list] holds, for every subject, its
    competition rank among the records of its major under [<subject>_rank];
    a record of another major gets no such field.  Every record holds its
    competition rank among all records under [chn_rank_cross] and
    [eng_rank_cross].  The nine basic fields are as they were. *)
Theorem process_ranks_every_subject results :
  Forall readable results ->
  exists results',
    process true results = Some (results', inr tt) /\
    length results' = length results /\
    forall i r, results !! i = Some r ->
      exists r', results' !! i = Some r' /\
        (forall key major,
           key ∈ FieldsHelper.rankable_fields -> major ∈ FieldsHelper.major_list ->
           r !! "major"%string = Some (JStr major) ->
           r' !! FieldsHelper.wrap_rank key
           = Some (JInt (rank_of (Some (major_is major)) key results r))) /\
        (forall key,
           key ∈ FieldsHelper.rankable_fields ->
           (forall major, major ∈ FieldsHelper.major_list ->
              r !! "major"%string <> Some (JStr major)) ->
           r' !! FieldsHelper.wrap_rank key = r !! FieldsHelper.wrap_rank key) /\
        (forall key,
           key ∈ FieldsHelper.cross_rankable_fields ->
           r' !! FieldsHelper.wrap_cross_rank key
           = Some (JInt (rank_of None key results r))) /\
        (forall key, key ∈ basic_fields -> r' !! key = r !! key).
Proof.
  intros Hread. exists (finish results <$> results).
  split; [by apply process_finish|]. split; [by rewrite length_fmap|].
  intros i r Hr. exists (finish results r).
  split; [by rewrite list_lookup_fmap, Hr|].
  unfold finish, across_fn, within_fn, majors_fn.
  cbn [fold_left FieldsHelper.rankable_fields FieldsHelper.cross_rankable_fields
       FieldsHelper.major_list].
  split; [|split; [|split]].
  - intros key major Hkey Hmajor Hm.
    each_key Hmajor; each_key Hkey; rewrite !lookup_step_fn;
      rewrite !(is_selected_major r _ _ Hm); cbn [is_selected]; decide_names;
      reflexivity.
  - intros key Hkey Hother.
    assert (H1 : is_selected (Some (major_is "文科")) r = false)
      by (apply is_selected_other, Hother, list_elem_of_here).
    assert (H2 : is_selected (Some (major_is "理科")) r = false)
      by (apply is_selected_other, Hother, list_elem_of_further, list_elem_of_here).
    each_key Hkey; rewrite !lookup_step_fn, H1, H2; cbn [is_selected];
      decide_names; reflexivity.
  - intros key Hkey.
    each_key Hkey; rewrite !lookup_step_fn; cbn [is_selected]; decide_names;
      reflexivity.
  - intros key Hkey. unfold basic_fields in Hkey.
    cbn [FieldsHelper.basic_field_names fmap list_fmap fst] in Hkey.
    each_key Hkey; rewrite !lookup_step_fn; decide_names; reflexivity.
Qed.

(** *** What a ranking never touches *)

Lemma rank_loop_frame key_name result_name lst :
  forall index previous_rank previous_value store,
    let out := rank_loop key_name result_name lst index previous_rank
                         previous_value store in
    length out.1 = length store /\
    forall i,
      (i ∉ lst -> out.1 !! i = store !! i) /\
      (forall r, store !! i = Some r ->
         exists r', out.1 !! i = Some r' /\
                    forall k, k <> result_name -> r' !! k = r !! k).
Proof.
  induction lst as [|x lst IH]; intros index previous_rank previous_value store.
  - simpl. split; [done|]. intros i. split; [done|]. intros r Hr. eauto.
  - cbn [rank_loop].
    destruct (getitem store x key_name) as [e|current_value].
    { simpl. split; [done|]. intros i. split; [done|]. intros r Hr. eauto. }
    assert (Hstep : forall index' rank' value' v,
              let out := rank_loop key_name result_name lst index' rank' value'
                                   (setitem x result_name v store) in
              length out.1 = length store /\
              forall i,
                (i ∉ x :: lst -> out.1 !! i = store !! i) /\
                (forall r, store !! i = Some r ->
                   exists r', out.1 !! i = Some r' /\
                              forall k, k <> result_name -> r' !! k = r !! k)).
    { intros index' rank' value' v.
      destruct (IH index' rank' value' (setitem x result_name v store))
        as [Hlen Hi].
      split; [by rewrite Hlen, setitem_length|].
      intros i. destruct (Hi i) as [Hout Hin]. split.
      - intros Hnot. apply not_elem_of_cons in Hnot as [Hne Hnot].
        rewrite Hout by done. by rewrite setitem_lookup_ne.
      - intros r Hr. destruct (decide (x = i)) as [->|Hne].
        + destruct (Hin (<[result_name := v]> r)) as (r' & Hr' & Hsame);
            [by apply setitem_lookup|].
          exists r'. split; [done|]. intros k Hk.
          rewrite Hsame by done. by rewrite lookup_insert_ne.
        + apply Hin. by rewrite setitem_lookup_ne. }
    destruct (previous_rank =? 0); [apply Hstep|].
    destruct (py_eq current_value previous_value); apply Hstep.
Qed.

Lemma insert_reverse_perm x l s :
  insert_reverse x l = Some (inr s) -> s ≡ₚ x :: l.
Proof.
  revert s; induction l as [|y l IH]; intros s; simpl.
  - by intros [= <-].
  - destruct (py_lt x.1 y.1) as [[e|[|]]|]; try discriminate.
    + destruct (insert_reverse x l) as [[e|l'']|]; try discriminate.
      intros [= <-]. rewrite (IH l'' eq_refl). apply Permutation_swap.
    + by intros [= <-].
Qed.

Lemma sorted_reverse_perm l s : sorted_reverse l = Some (inr s) -> s ≡ₚ l.
Proof.
  revert s; induction l as [|x l IH]; intros s; simpl.
  - by intros [= <-].
  - destruct (sorted_reverse l) as [[e|s']|]; try discriminate.
    intros H. apply insert_reverse_perm in H. rewrite H. by rewrite (IH s' eq_refl).
Qed.

Lemma sort_keys_positions store lst key_name keyed :
  sort_keys store lst key_name = inr keyed -> keyed.*2 = lst.
Proof.
  revert keyed; induction lst as [|i lst IH]; intros keyed; simpl.
  - by intros [= <-].
  - destruct (getitem store i key_name) as [e|v]; [discriminate|].
    cbn [mbind exc_bind].
    destruct (sort_keys store lst key_name) as [e|l]; [discriminate|].
    cbn [mbind exc_bind mret exc_ret]. intros [= <-].
    rewrite fmap_cons. simpl. by rewrite (IH l eq_refl).
Qed.

Lemma rank_result_list_frame store lst key_name result_name store' o :
  rank_result_list store lst key_name result_name = Some (store', o) ->
  length store' = length store /\
  forall i,
    (i ∉ lst -> store' !! i = store !! i) /\
    (forall r, store !! i = Some r ->
       exists r', store' !! i = Some r' /\
                  forall k, k <> result_name -> r' !! k = r !! k).
Proof.
  unfold rank_result_list.
  pose proof (rank_loop_frame key_name result_name lst 1 0 (JInt 0) store) as Hlst.
  cbv zeta in Hlst.
  assert (Hsame : length store = length store /\
                  forall i,
                    (i ∉ lst -> store !! i = store !! i) /\
                    (forall r, store !! i = Some r ->
                       exists r', store !! i = Some r' /\
                                  forall k, k <> result_name -> r' !! k = r !! k))
    by (split; [done|]; intros i; split; [done|]; eauto).
  destruct (sort_keys store lst key_name) as [e|keyed] eqn:Hkeys.
  - destruct (issubclass e Exception); intros [= H].
    + rewrite H in Hlst. exact Hlst.
    + by subst.
  - destruct (sorted_reverse keyed) as [[e|s]|] eqn:Hsort; [| |discriminate].
    + destruct (issubclass e Exception); intros [= H].
      * rewrite H in Hlst. exact Hlst.
      * by subst.
    + intros [= H].
      pose proof (rank_loop_frame key_name result_name s.*2 1 0 (JInt 0) store)
        as Hs.
      cbv zeta in Hs. rewrite H in Hs. destruct Hs as [Hlen Hi].
      split; [done|]. intros i. destruct (Hi i) as [Hout Hin].
      split; [|done]. intros Hnot. apply Hout.
      apply sorted_reverse_perm in Hsort. apply sort_keys_positions in Hkeys.
      by rewrite Hsort, Hkeys.
Qed.

Lemma ranged_from_selected rc i results ranged j :
  ranged_from rc i results = inr ranged -> j ∈ ranged ->
  exists r, results !! (j - i)%nat = Some r /\ (i <= j)%nat /\ rc r = inr true.
Proof.
  revert i ranged; induction results as [|x rest IH]; intros i ranged; simpl.
  - intros [= <-] Hj. by apply elem_of_nil in Hj.
  - destruct (rc x) as [e|b] eqn:Hx; [discriminate|]. cbn [mbind exc_bind].
    destruct (ranged_from rc (S i) rest) as [e|l] eqn:Hrest; [discriminate|].
    cbn [mbind exc_bind mret exc_ret]. intros [= <-] Hj.
    assert (Hl : j ∈ l ->
              exists r, (x :: rest) !! (j - i)%nat = Some r /\ (i <= j)%nat /\
                        rc r = inr true).
    { intros Hjl. destruct (IH (S i) l Hrest Hjl) as (r & Hr & Hle & Hsel).
      exists r. split; [|split; [lia|done]].
      replace (j - i)%nat with (S (j - S i)) by lia. done. }
    destruct b; [|by apply Hl].
    apply elem_of_cons in Hj as [->|Hj]; [|by apply Hl].
    exists x. rewrite Nat.sub_diag. split; [done|]. split; [lia|done].
Qed.

(** X19. Whatever the records hold and however the call ends (the key may
    be missing, the scores may not be comparable), [rank_column] adds,
    removes and moves no record, changes no field of a record but
    [result_name], and leaves a record the range controller did not select
    exactly as it was. *)
Theorem rank_column_writes_one_field results key_name result_name
    range_controller results' o :
  rank_column results key_name result_name range_controller = Some (results', o) ->
  length results' = length results /\
  forall i r, results !! i = Some r ->
    exists r', results' !! i = Some r' /\
      (forall k, k <> result_name -> r' !! k = r !! k) /\
      (is_selected range_controller r = false -> r' = r).
Proof.
  unfold rank_column.
  destruct (ranged_results results range_controller) as [e|ranged] eqn:Hranged.
  - intros [= <- <-]. split; [done|]. intros i r Hr. eauto.
  - intros Hrun. apply rank_result_list_frame in Hrun as [Hlen Hi].
    split; [done|]. intros i r Hr. destruct (Hi i) as [Hout Hin].
    destruct (Hin r Hr) as (r' & Hr' & Hsame).
    exists r'. split; [done|]. split; [done|].
    intros Hsel. rewrite Hout in Hr'; [congruence|].
    intros Hi'. destruct range_controller as [rc|]; [|done].
    destruct (ranged_from_selected rc 0 results ranged i Hranged Hi')
      as (r0 & Hr0 & _ & Hrc).
    rewrite Nat.sub_0_r, Hr in Hr0. injection Hr0 as <-.
    unfold is_selected in Hsel. by rewrite Hrc in Hsel.
Qed.

(** *** The theorems on the example records *)

Lemma student_readable sid major chn mth eng com sum :
  readable (student sid major chn mth eng com sum).
Proof.
  split; [by eexists|]. intros key Hkey.
  unfold FieldsHelper.rankable_fields in Hkey.
  each_key Hkey; eexists; reflexivity.
Qed.

Lemma rank_column_gives_competition_ranks_witness :
  rank_column example_results "chn" "chn_rank_cross" None
  = Some ((fun r : Entry =>
             <["chn_rank_cross"%string :=
                 JInt (1 + count_gt (score_of "chn" r)
                           (score_of "chn" <$> example_results))]> r)
            <$> example_results,
          inr tt) /\
  (fun r : Entry => 1 + count_gt (score_of "chn" r) (score_of "chn" <$> example_results))
    <$> example_results
  = [1; 3; 1; 4].
Proof.
  split; [|vm_compute; reflexivity].
  apply (rank_column_gives_competition_ranks example_results "chn" "chn_rank_cross"
           None).
  - done.
  - intros r Hr _. unfold example_results in Hr.
    each_key Hr; eexists; reflexivity.
Defined.

Lemma process_ranks_every_subject_witness :
  exists results' r',
    process true example_results = Some (results', inr tt) /\
    results' !! 3%nat = Some r' /\
    r' !! "chn_rank"%string = Some (JInt 3) /\
    r' !! "chn_rank_cross"%string = Some (JInt 4) /\
    r' !! "sid"%string = Some (JStr "0000000104").
Proof.
  destruct (process_ranks_every_subject example_results)
    as (results' & Hrun & _ & Hrec).
  { repeat constructor; apply student_readable. }
  destruct (Hrec 3%nat _ eq_refl) as (r' & Hr' & Hrank & _ & Hcross & Hbasic).
  assert (Hchn : "chn"%string ∈ FieldsHelper.rankable_fields)
    by (apply (bool_decide_unpack _); vm_compute; exact I).
  assert (Hmajor : "文科"%string ∈ FieldsHelper.major_list)
    by (apply (bool_decide_unpack _); vm_compute; exact I).
  assert (Hcr : "chn"%string ∈ FieldsHelper.cross_rankable_fields)
    by (apply (bool_decide_unpack _); vm_compute; exact I).
  assert (Hsid : "sid"%string ∈ basic_fields)
    by (apply (bool_decide_unpack _); vm_compute; exact I).
  exists results', r'. split; [exact Hrun|]. split; [exact Hr'|]. split; [|split].
  - etrans; [exact (Hrank "chn" "文科" Hchn Hmajor eq_refl)%string|].
    vm_compute. reflexivity.
  - etrans; [exact (Hcross "chn"%string Hcr)|]. vm_compute. reflexivity.
  - etrans; [exact (Hbasic "sid"%string Hsid)|]. reflexivity.
Defined.

Lemma rank_column_writes_one_field_witness :
  exists results',
    rank_column [student "0000000101" "文科" 120 100 110 200 530; ∅]%string
                "chn" "chn_rank_cross" None
    = Some (results', inl KeyError) /\
    length results' = 2%nat.
Proof.
  assert (Hends : match rank_column
                          [student "0000000101" "文科" 120 100 110 200 530; ∅]%string
                          "chn" "chn_rank_cross" None with
                  | Some (_, inl KeyError) => true
                  | _ => false
                  end = true)
    by (vm_compute; reflexivity).
  destruct (rank_column _ _ _ _) as [[results' [e|u]]|] eqn:Hrun;
    [|discriminate Hends..].
  destruct e; try discriminate Hends.
  exists results'. split; [reflexivity|].
  by destruct (rank_column_writes_one_field _ _ _ _ _ _ Hrun) as [Hlen _].
Defined.

End Utils.

(** ** [LocalDataService]: reading an exported table back *)

Module LocalData.
Import PyExc Fetch Utils.

(** What ends the reading of a file early: [rows[0]] and [column_names[ri]]
    raise [IndexError], [float(value)] raises what [float] raises. *)
Inductive ParseError :=
  | IndexError
  | FromFloat (e : exc_class).

(** [except Exception] of [MultithreadingHelper.wrapped]. *)
Definition is_exception (e : ParseError) : bool :=
  match e with
  | IndexError => true
  | FromFloat e => issubclass e Exception
  end.

Inductive LocalLog :=
  | LogParsingCsv                                          (* info 'Parsing csv file' *)
  | LogColumns (column_names : list (option string))       (* debug 'Columns in csv file' *)
  | LogSidAlreadyAdded (sid : string) (line_no : nat)      (* debug 'SID %s already added' *)
  | LogEntryWrongLength (line_no : nat) (row : list string) (* error 'Entry with wrong length' *)
  | LogEntryAdded (result : Entry)                         (* info 'Successfully added entry' *)
  | LogErrorExecuting (e : ParseError).                    (* exception 'Error executing' *)

(** The attributes of the service the parser reads and writes. *)
Record LocalState := mkLocalState {
  _sid_set : gset string;
  _results : list Entry;
  local_log : list LocalLog
}.

Definition local_log_add (r : LocalLog) (st : LocalState) : LocalState :=
  mkLocalState (_sid_set st) (_results st) (local_log st ++ [r]).

(** [self._sid_set.add(sid)]. *)
Definition sid_set_add (sid : string) (st : LocalState) : LocalState :=
  mkLocalState ({[sid]} ∪ _sid_set st) (_results st) (local_log st).

(** [self._add_result(result)]. *)
Definition _add_result (result : Entry) (st : LocalState) : LocalState :=
  mkLocalState (_sid_set st) (_results st ++ [result]) (local_log st).

(** [self._sid_unique(sid)]. *)
Definition _sid_unique (st : LocalState) (sid : string) : bool :=
  bool_decide (sid ∉ _sid_set st).

(** How the loop over the cells of a row ends. *)
Inductive Cells :=
  | CellsEnd (unique : bool) (result : Entry) (st : LocalState)
  | CellsBreak (st : LocalState)
  | CellsRaise (e : ParseError) (st : LocalState).

(** [len(utils.FieldsHelper.basic_field_names)]. *)
Definition expected_result_len : nat := length FieldsHelper.basic_field_names.

(** A service that has read nothing. *)
Definition fresh_service : LocalState := mkLocalState ∅ [] [].

(** A table as [CSVPersistenceService] writes it without ranks and
    averages: the header and the rows of two students, the first of them
    twice. *)
Definition example_header : list string :=
  ["考号"; "姓名"; "出生年月"; "科类"; "语文"; "数学"; "英语"; "综合"; "总分"]%string.

Definition example_rows : list (list string) :=
  [example_header;
   ["101"; "A"; "981"; "文科"; "120"; "100"; "110"; "200"; "530"];
   ["0000000101"; "A"; "0981"; "文科"; "120"; "100"; "110"; "200"; "530"];
   ["102"; "B"; "9802"; "理科"; "110"; "130"; "120"; "250"; "610"]]%string.

(** A stand-in for [float] on the digits of the examples. *)
Definition example_float (value : string) : exc_class + json := inr (JStr value).

Definition example_number (value : string) : bool :=
  match value with
  | String c _ =>
      bool_decide (String c "" ∈ ["0"; "1"; "2"; "3"; "4"; "5"; "6"; "7"; "8"; "9";
                                  "."; "-"]%string)
  | EmptyString => false
  end.

Section Parser.

(** [LocalDataService.number_regex.match(value)] finds a match, and
    [float(value)]. *)
Variable number_regex_match : string -> bool.
Variable float : string -> exc_class + json.

(** [LocalDataService._convert_value]. *)
Definition _convert_value (value : string) : exc_class + json :=
  if decide (value = ""%string) then inr JNull
  else if number_regex_match value then float value
  else inr (JStr value).

(** The loop [for ri in range(len(row))] of [_parse_csv_file], over the
    cells still to come and the column names at their positions. *)
Fixpoint parse_cells (line_no : nat) (column_names : list (option string))
    (row : list string) (unique : bool) (result : Entry) (st : LocalState) : Cells :=
  match row with
  | [] => CellsEnd unique result st
  | value :: row' =>
      match column_names with
      | [] => CellsRaise IndexError st                 (* column_names[ri] *)
      | key :: column_names' =>
          match key with
          | None | Some EmptyString =>                 (* if not key: continue *)
              parse_cells line_no column_names' row' unique result st
          | Some key =>
              if decide (key = "sid"%string) then
                let sid := zfill 10 value in
                if unique then
                  parse_cells line_no column_names' row' unique
                              (<[key := JStr sid]> result) st
                else if negb (_sid_unique st sid) then
                  CellsBreak (local_log_add (LogSidAlreadyAdded sid line_no) st)
                else
                  parse_cells line_no column_names' row' true
                              (<[key := JStr sid]> result) (sid_set_add sid st)
              else if decide (key = "ymob"%string) then
                parse_cells line_no column_names' row' unique
                            (<[key := JStr (zfill 4 value)]> result) st
              else
                match _convert_value value with
                | inl e => CellsRaise (FromFloat e) st
                | inr v =>
                    parse_cells line_no column_names' row' unique
                                (<[key := v]> result) st
                end
          end
      end
  end.

(** The loop [for line_i, row in enumerate(data_rows)]. *)
Fixpoint parse_rows (line_no : nat) (column_names : list (option string))
    (data_rows : list (list string)) (st : LocalState)
  : option ParseError * LocalState :=
  match data_rows with
  | [] => (None, st)
  | row :: rest =>
      match parse_cells line_no column_names row false ∅ st with
      | CellsRaise e st' => (Some e, st')
      | CellsBreak st' => parse_rows (S line_no) column_names rest st'
      | CellsEnd unique result st' =>
          let st' :=
            if unique then
              if decide (size result <> expected_result_len)
              then local_log_add (LogEntryWrongLength line_no row) st'
              else local_log_add (LogEntryAdded result) (_add_result result st')
            else st' in
          parse_rows (S line_no) column_names rest st'
      end
  end.

(** The body of [_parse_csv_file] for the rows [csv.reader] yields. *)
Definition parse_csv_file_body (rows : list (list string)) (st : LocalState)
  : option ParseError * LocalState :=
  let st := local_log_add LogParsingCsv st in
  match rows with
  | [] => (Some IndexError, st)                        (* rows[0] *)
  | header :: data_rows =>
      let column_names := FieldsHelper.get_field_key_by_name <$> header in
      parse_rows 1 column_names data_rows (local_log_add (LogColumns column_names) st)
  end.

(** [_parse_csv_file], decorated: the exception that leaves the call, if
    any, and the service after it. *)
Definition _parse_csv_file (rows : list (list string)) (st : LocalState)
  : option ParseError * LocalState :=
  match parse_csv_file_body rows st with
  | (Some e, st') =>
      if is_exception e then (None, local_log_add (LogErrorExecuting e) st')
      else (Some e, st')
  | r => r
  end.

(** *** What the theorems speak of *)

(** Every record of the result list has a SID that is in the set of SIDs. *)
Definition registered (st : LocalState) : Prop :=
  forall r, r ∈ _results st ->
    exists sid, r !! "sid"%string = Some (JStr sid) /\ sid ∈ _sid_set st.

(** No two records of the result list have the same SID. *)
Definition distinct_sids (st : LocalState) : Prop :=
  NoDup ((fun r : Entry => r !! "sid"%string) <$> _results st).

(** A record with the nine basic fields and nothing else, whose SID has at
    least ten characters and whose YMOB has at least four. *)
Definition well_formed (r : Entry) : Prop :=
  dom r = list_to_set basic_fields /\
  exists sid ymob,
    r !! "sid"%string = Some (JStr sid) /\ (10 <= String.length sid)%nat /\
    r !! "ymob"%string = Some (JStr ymob) /\ (4 <= String.length ymob)%nat.


(** What a row has found out about its SID once [unique] is [True]. *)
Definition claimed (result : Entry) (st : LocalState) : Prop :=
  exists sid, result !! "sid"%string = Some (JStr sid) /\ sid ∈ _sid_set st /\
              forall r, r ∈ _results st -> r !! "sid"%string <> Some (JStr sid).

(** A row so far: its keys are basic fields, its SID and its YMOB are
    filled up with zeros. *)
Definition shaped (result : Entry) : Prop :=
  dom result ⊆ list_to_set basic_fields /\
  (forall v, result !! "sid"%string = Some v -> exists s, v = JStr (zfill 10 s)) /\
  (forall v, result !! "ymob"%string = Some v -> exists s, v = JStr (zfill 4 s)).


Lemma field_key_is_basic name key :
  FieldsHelper.get_field_key_by_name name = Some key ->
  key ∈ basic_fields /\ (key = "sid"%string -> name = "考号"%string).
Proof.
  unfold FieldsHelper.get_field_key_by_name, FieldsHelper.basic_field_name_reverse,
    reverse_dict.
  cbn [fold_left FieldsHelper.basic_field_names fst snd]. intros H.
  repeat (apply lookup_insert_Some in H as [[<- <-]|[_ H]];
          [split; [apply (bool_decide_unpack _); vm_compute; exact I
                  |intros Heq; first [reflexivity|discriminate Heq]]|]).
  by rewrite lookup_empty in H.
Qed.

Lemma sid_columns_of_header header :
  (length (filter (fun key => key = Some "sid"%string)
                  (FieldsHelper.get_field_key_by_name <$> header))
   <= length (filter (fun name => name = "考号"%string) header))%nat.
Proof.
  induction header as [|name header IH]; [done|].
  rewrite fmap_cons, !filter_cons.
  destruct (decide (FieldsHelper.get_field_key_by_name name = Some "sid"%string))
    as [Hkey|Hkey].
  - apply field_key_is_basic in Hkey as [_ Hname].
    rewrite decide_True by (by apply Hname). simpl. lia.
  - destruct (decide (name = "考号"%string)); simpl; lia.
Qed.

Lemma registered_mono st st' :
  _results st' = _results st -> _sid_set st ⊆ _sid_set st' ->
  registered st -> registered st'.
Proof.
  intros Hres Hset Hreg r Hr. rewrite Hres in Hr.
  destruct (Hreg r Hr) as (sid & Hsid & Hin). exists sid. split; [done|].
  by apply Hset.
Qed.

Lemma parse_cells_sids line_no column_names :
  forall row unique result st,
    registered st ->
    (length (filter (fun key => key = Some "sid"%string) column_names) <= 1)%nat ->
    (unique = true ->
       filter (fun key => key = Some "sid"%string) column_names = [] /\
       claimed result st) ->
    match parse_cells line_no column_names row unique result st with
    | CellsEnd unique' result' st' =>
        _results st' = _results st /\ _sid_set st ⊆ _sid_set st' /\
        (unique' = true -> claimed result' st')
    | CellsBreak st' | CellsRaise _ st' =>
        _results st' = _results st /\ _sid_set st ⊆ _sid_set st'
    end.
Proof.
  induction column_names as [|key column_names IH];
    intros row unique result st Hreg Hone Huniq.
  - destruct row as [|value row]; simpl; [|done].
    split; [done|]. split; [done|]. intros Hu. by apply Huniq.
  - destruct row as [|value row]; cbn [parse_cells].
    { split; [done|]. split; [done|]. intros Hu. by apply Huniq. }
    rewrite filter_cons in Hone, Huniq.
    destruct key as [[|c key]|].
    + rewrite decide_False in Hone, Huniq by done. by apply IH.
    + set (k := String c key) in *.
      destruct (decide (k = "sid"%string)) as [Hk|Hk].
      * rewrite Hk in *. rewrite decide_True in Hone, Huniq by done.
        simpl in Hone.
        assert (Hnone : filter (fun key => key = Some "sid"%string) column_names = [])
          by (destruct (filter _ column_names); [done|simpl in Hone; lia]).
        destruct unique; [by destruct Huniq as [Hnil _]|].
        unfold _sid_unique. case_bool_decide as Hnew; cbn [negb]; [|done].
        specialize (IH row true (<["sid"%string := JStr (zfill 10 value)]> result)
                       (sid_set_add (zfill 10 value) st)).
        destruct (parse_cells _ _ _ _ _ _) as [unique' result' st'|st'|e st'].
        -- destruct IH as (Hres & Hset & Hclaim).
           ++ apply (registered_mono st); [done|simpl; apply union_subseteq_r|exact Hreg].
           ++ rewrite Hnone. simpl. lia.
           ++ intros _. split; [done|]. exists (zfill 10 value).
              split; [by rewrite lookup_insert_eq|].
              split; [simpl; apply elem_of_union_l; by apply elem_of_singleton|].
              intros r Hr Hsid. simpl in Hr.
              destruct (Hreg r Hr) as (sid & Hsid' & Hin). congruence.
           ++ split; [done|]. split; [|done]. simpl in Hset.
              etrans; [apply union_subseteq_r|exact Hset].
        -- destruct IH as (Hres & Hset).
           ++ apply (registered_mono st); [done|simpl; apply union_subseteq_r|exact Hreg].
           ++ rewrite Hnone. simpl. lia.
           ++ intros _. split; [done|]. exists (zfill 10 value).
              split; [by rewrite lookup_insert_eq|].
              split; [simpl; apply elem_of_union_l; by apply elem_of_singleton|].
              intros r Hr Hsid. simpl in Hr.
              destruct (Hreg r Hr) as (sid & Hsid' & Hin). congruence.
           ++ split; [done|]. simpl in Hset.
              etrans; [apply union_subseteq_r|exact Hset].
        -- destruct IH as (Hres & Hset).
           ++ apply (registered_mono st); [done|simpl; apply union_subseteq_r|exact Hreg].
           ++ rewrite Hnone. simpl. lia.
           ++ intros _. split; [done|]. exists (zfill 10 value).
              split; [by rewrite lookup_insert_eq|].
              split; [simpl; apply elem_of_union_l; by apply elem_of_singleton|].
              intros r Hr Hsid. simpl in Hr.
              destruct (Hreg r Hr) as (sid & Hsid' & Hin). congruence.
           ++ split; [done|]. simpl in Hset.
              etrans; [apply union_subseteq_r|exact Hset].
      * rewrite decide_False in Hone, Huniq by (intros Heq; apply Hk; congruence).
        assert (Hkeep : forall v, unique = true ->
                  filter (fun key => key = Some "sid"%string) column_names = [] /\
                  claimed (<[k := v]> result) st).
        { intros v Hu. destruct (Huniq Hu) as [Hnil (sid & Hsid & Hin & Hnot)].
          split; [done|]. exists sid. split; [|done].
          by rewrite lookup_insert_ne. }
        destruct (decide (k = "ymob"%string)); [apply IH; [done|done|apply Hkeep]|].
        destruct (_convert_value value) as [e|v]; [done|].
        apply IH; [done|done|apply Hkeep].
    + rewrite decide_False in Hone, Huniq by done. by apply IH.
Qed.

Lemma parse_rows_sids column_names data_rows :
  forall line_no st,
    (length (filter (fun key => key = Some "sid"%string) column_names) <= 1)%nat ->
    registered st -> distinct_sids st ->
    registered (parse_rows line_no column_names data_rows st).2 /\
    distinct_sids (parse_rows line_no column_names data_rows st).2.
Proof.
  induction data_rows as [|row rest IH]; intros line_no st Hone Hreg Hdist; [done|].
  cbn [parse_rows].
  pose proof (parse_cells_sids line_no column_names row false ∅ st Hreg Hone)
    as Hcells.
  destruct (parse_cells line_no column_names row false ∅ st)
    as [unique result st1|st1|e st1].
  - destruct Hcells as (Hres & Hset & Hclaim); [done|].
    assert (Hreg1 : registered st1) by (by apply (registered_mono st)).
    assert (Hdist1 : distinct_sids st1) by (unfold distinct_sids; by rewrite Hres).
    destruct unique; [|by apply IH].
    destruct (decide (size result <> expected_result_len)); [by apply IH|].
    destruct (Hclaim eq_refl) as (sid & Hsid & Hin & Hnew).
    apply IH; [done| |].
    + intros r Hr. simpl in Hr. apply elem_of_app in Hr as [Hr|Hr].
      * by apply Hreg1.
      * apply list_elem_of_singleton in Hr as ->. eauto.
    + unfold distinct_sids. simpl. rewrite fmap_app. apply NoDup_app.
      split; [exact Hdist1|]. split; [|apply NoDup_singleton].
      intros x Hx Hx'. apply list_elem_of_singleton in Hx' as ->.
      apply list_elem_of_fmap in Hx as (r & Hr & Hin'). rewrite Hsid in Hr.
      by apply (Hnew r Hin').
  - destruct Hcells as (Hres & Hset); [done|].
    apply IH; [done|by apply (registered_mono st)|].
    unfold distinct_sids. by rewrite Hres.
  - destruct Hcells as (Hres & Hset); [done|]. simpl.
    split; [by apply (registered_mono st)|]. unfold distinct_sids. by rewrite Hres.
Qed.

(** X20. Reading a table keeps the SIDs of the result list distinct.  When
    the header names the SID column at most once, every record of the
    result list has a SID that is in the set of SIDs and no two records
    have the same SID, the same holds after [_parse_csv_file], however the
    call ends: a row whose SID is in the set already adds nothing.  (One
    parser at a time: the check and the insertion are two steps.) *)
Theorem csv_rows_keep_sids_distinct rows st :
  (forall header data_rows, rows = header :: data_rows ->
     (length (filter (fun name => name = "考号"%string) header) <= 1)%nat) ->
  registered st -> distinct_sids st ->
  registered (_parse_csv_file rows st).2 /\ distinct_sids (_parse_csv_file rows st).2.
Proof.
  intros Hheader Hreg Hdist.
  assert (Hbody : registered (parse_csv_file_body rows st).2 /\
                  distinct_sids (parse_csv_file_body rows st).2).
  { unfold parse_csv_file_body. destruct rows as [|header data_rows]; [done|].
    apply parse_rows_sids; [|done|done].
    etrans; [apply sid_columns_of_header|]. by eapply Hheader. }
  unfold _parse_csv_file.
  destruct (parse_csv_file_body rows st) as [[e|] st']; [|done].
  by destruct (is_exception e).
Qed.

Lemma shaped_insert key v result :
  key ∈ basic_fields -> key <> "sid"%string -> key <> "ymob"%string ->
  shaped result -> shaped (<[key := v]> result).
Proof.
  intros Hkey Hsid Hymob (Hdom & Hs & Hy). split; [|split].
  - rewrite dom_insert. apply union_subseteq. split; [|done].
    apply singleton_subseteq_l. by apply elem_of_list_to_set.
  - intros w. rewrite lookup_insert_ne by done. apply Hs.
  - intros w. rewrite lookup_insert_ne by done. apply Hy.
Qed.

Lemma shaped_insert_sid value result :
  shaped result -> shaped (<["sid"%string := JStr (zfill 10 value)]> result).
Proof.
  intros (Hdom & Hs & Hy). split; [|split].
  - rewrite dom_insert. apply union_subseteq. split; [|done].
    apply singleton_subseteq_l, elem_of_list_to_set.
    apply (bool_decide_unpack _). vm_compute. exact I.
  - intros w. rewrite lookup_insert_eq. intros [= <-]. eauto.
  - intros w. rewrite lookup_insert_ne by done. apply Hy.
Qed.

Lemma shaped_insert_ymob value result :
  shaped result -> shaped (<["ymob"%string := JStr (zfill 4 value)]> result).
Proof.
  intros (Hdom & Hs & Hy). split; [|split].
  - rewrite dom_insert. apply union_subseteq. split; [|done].
    apply singleton_subseteq_l, elem_of_list_to_set.
    apply (bool_decide_unpack _). vm_compute. exact I.
  - intros w. rewrite lookup_insert_ne by done. apply Hs.
  - intros w. rewrite lookup_insert_eq. intros [= <-]. eauto.
Qed.

Lemma parse_cells_shape line_no column_names :
  forall row unique result st,
    Forall (fun c => forall key, c = Some key -> key ∈ basic_fields) column_names ->
    shaped result ->
    match parse_cells line_no column_names row unique result st with
    | CellsEnd _ result' st' => shaped result' /\ _results st' = _results st
    | CellsBreak st' | CellsRaise _ st' => _results st' = _results st
    end.
Proof.
  induction column_names as [|key column_names IH];
    intros row unique result st Hcols Hshaped.
  - by destruct row.
  - destruct row as [|value row]; cbn [parse_cells]; [done|].
    apply Forall_cons in Hcols as [Hkey Hcols].
    destruct key as [[|c key]|]; [by apply IH| |by apply IH].
    specialize (Hkey _ eq_refl). set (k := String c key) in *.
    destruct (decide (k = "sid"%string)) as [Hk|Hk].
    + rewrite Hk. destruct unique.
      * apply IH; [done|]. by apply shaped_insert_sid.
      * destruct (negb _); [done|].
        specialize (IH row true (<["sid"%string := JStr (zfill 10 value)]> result)
                       (sid_set_add (zfill 10 value) st) Hcols
                       (shaped_insert_sid value result Hshaped)).
        by destruct (parse_cells _ _ _ _ _ _).
    + destruct (decide (k = "ymob"%string)) as [Hy|Hy].
      * rewrite Hy. apply IH; [done|]. by apply shaped_insert_ymob.
      * destruct (_convert_value value) as [e|v]; [done|].
        apply IH; [done|]. by apply shaped_insert.
Qed.

Lemma shaped_full result :
  shaped result -> size result = expected_result_len -> well_formed result.
Proof.
  intros (Hdom & Hs & Hy) Hsize.
  assert (Heq : dom result = list_to_set basic_fields).
  { apply set_subseteq_size_eq; [done|].
    rewrite size_dom, Hsize, size_list_to_set; [done|].
    apply (bool_decide_unpack _). vm_compute. exact I. }
  split; [done|].
  assert (Hsid : is_Some (result !! "sid"%string)).
  { apply elem_of_dom. rewrite Heq. apply elem_of_list_to_set.
    apply (bool_decide_unpack _). vm_compute. exact I. }
  assert (Hymob : is_Some (result !! "ymob"%string)).
  { apply elem_of_dom. rewrite Heq. apply elem_of_list_to_set.
    apply (bool_decide_unpack _). vm_compute. exact I. }
  destruct Hsid as [v Hv], Hymob as [w Hw].
  destruct (Hs v Hv) as [s ->], (Hy w Hw) as [y ->].
  exists (zfill 10 s), (zfill 4 y).
  split; [done|]. split; [apply zfill_length|]. split; [done|apply zfill_length].
Qed.

Lemma parse_rows_shape column_names data_rows :
  forall line_no st,
    Forall (fun c => forall key, c = Some key -> key ∈ basic_fields) column_names ->
    exists added,
      _results (parse_rows line_no column_names data_rows st).2
      = _results st ++ added /\
      Forall well_formed added.
Proof.
  assert (Hempty : shaped ∅).
  { split; [by rewrite dom_empty_L|]. by split; intros v; rewrite lookup_empty. }
  induction data_rows as [|row rest IH]; intros line_no st Hcols.
  - exists []. by rewrite app_nil_r.
  - cbn [parse_rows].
    pose proof (parse_cells_shape line_no column_names row false ∅ st Hcols Hempty)
      as Hcells.
    destruct (parse_cells line_no column_names row false ∅ st)
      as [unique result st1|st1|e st1].
    + destruct Hcells as [Hshaped Hres].
      destruct unique; [|rewrite <- Hres; by apply IH].
      destruct (decide (size result <> expected_result_len)) as [|Hsize].
      * destruct (IH (S line_no)
                     (local_log_add (LogEntryWrongLength line_no row) st1) Hcols)
          as (added & Hadded & Hwf).
        exists added. split; [|done]. rewrite Hadded. simpl. by rewrite Hres.
      * destruct (IH (S line_no)
                     (local_log_add (LogEntryAdded result) (_add_result result st1))
                     Hcols)
          as (added & Hadded & Hwf).
        exists (result :: added). split.
        -- rewrite Hadded. simpl. rewrite Hres, <- app_assoc. done.
        -- constructor; [|done]. apply shaped_full; [done|].
           by destruct (decide (size result = expected_result_len)); [|lia].
    + rewrite <- Hcells. by apply IH.
    + exists []. simpl. by rewrite app_nil_r.
Qed.

(** X21. Every record [_parse_csv_file] appends has exactly the nine basic
    fields, a SID of at least ten characters and a YMOB of at least four,
    whatever the header and the rows are; the records that were in the
    result list stay, in place. *)
Theorem csv_rows_add_well_formed_records rows st :
  exists added,
    _results (_parse_csv_file rows st).2 = _results st ++ added /\
    Forall well_formed added.
Proof.
  assert (Hbody : exists added,
            _results (parse_csv_file_body rows st).2 = _results st ++ added /\
            Forall well_formed added).
  { unfold parse_csv_file_body. destruct rows as [|header data_rows].
    - exists []. simpl. by rewrite app_nil_r.
    - destruct (parse_rows_shape (FieldsHelper.get_field_key_by_name <$> header)
                  data_rows 1
                  (local_log_add
                     (LogColumns (FieldsHelper.get_field_key_by_name <$> header))
                     (local_log_add LogParsingCsv st)))
        as (added & Hadded & Hwf).
      + apply Forall_fmap, Forall_forall. intros name _ key Hkey.
        by apply field_key_is_basic in Hkey as [Hbasic _].
      + by exists added. }
  unfold _parse_csv_file.
  destruct (parse_csv_file_body rows st) as [[e|] st']; [|done].
  by destruct (is_exception e).
Qed.

End Parser.

Lemma csv_rows_keep_sids_distinct_witness :
  registered (_parse_csv_file example_number example_float example_rows
                              fresh_service).2 /\
  distinct_sids (_parse_csv_file example_number example_float example_rows
                                 fresh_service).2 /\
  (fun r : Entry => r !! "sid"%string)
    <$> _results (_parse_csv_file example_number example_float example_rows
                                  fresh_service).2
  = [Some (JStr "0000000101"); Some (JStr "0000000102")].
Proof.
  destruct (csv_rows_keep_sids_distinct example_number example_float example_rows
              fresh_service) as [Hreg Hdist].
  - intros header data_rows [= <- _]. vm_compute. lia.
  - intros r Hr. by apply elem_of_nil in Hr.
  - constructor.
  - split; [exact Hreg|]. split; [exact Hdist|]. vm_compute. reflexivity.
Defined.

End LocalData.

(** ** [LocalQuerySupplier]: query sets from exported tables *)

Module QuerySupplier.
Import PyExc Fetch Utils.

(** [rows[0]] and [column_names[ri]] raise [IndexError]; nothing in
    [LocalQuerySupplier] catches it. *)
Inductive SupplierError := IndexError.

Inductive SupplierLog :=
  | LogParsingCsv (filename : string)                    (* info 'Parsing csv file' *)
  | LogColumns (column_names : list (option string))     (* debug 'Columns in csv file' *)
  | LogFailedToExtract (line_no : nat) (row : list string) (* error 'Failed to extract sid or ymob' *)
  | LogExtracted (sid ymob : string)                     (* info 'Successfully extracted' *)
  | LogUnexpectedFileType (filename : string).           (* error 'Unexpected file type' *)

(** The attributes of the supplier.  [_initiated] is set in [__init__] and
    read in [get_query_sets]; no statement assigns it again. *)
Record Supplier := mkSupplier {
  _files : list string;
  _initiated : bool;
  _query_sets : gset QuerySet;
  supplier_log : list SupplierLog
}.

(** The constructor of [LocalQuerySupplier], given the file names. *)
Definition LocalQuerySupplier_init (files : list string) : Supplier :=
  mkSupplier files false ∅ [].

Definition supplier_log_add (r : SupplierLog) (s : Supplier) : Supplier :=
  mkSupplier (_files s) (_initiated s) (_query_sets s) (supplier_log s ++ [r]).

(** [self._query_sets.add(((sid, ymob),))]. *)
Definition query_sets_add (sid ymob : string) (s : Supplier) : Supplier :=
  mkSupplier (_files s) (_initiated s) ({[ [(sid, ymob)] ]} ∪ _query_sets s)
             (supplier_log s).

(** [not sid], for [sid] that is [None] or a string. *)
Definition falsy (v : option string) : bool :=
  match v with
  | None | Some EmptyString => true
  | Some _ => false
  end.

(** The loop [for ri in range(len(row))] of [_parse_csv_file]. *)
Fixpoint extract (column_names : list (option string)) (row : list string)
    (sid ymob : option string) : SupplierError + option string * option string :=
  match row with
  | [] => inr (sid, ymob)
  | value :: row' =>
      match column_names with
      | [] => inl IndexError                            (* column_names[ri] *)
      | key :: column_names' =>
          if decide (key = Some "sid"%string) then
            extract column_names' row' (Some value) ymob
          else if decide (key = Some "ymob"%string) then
            extract column_names' row' sid (Some (zfill 4 value))
          else extract column_names' row' sid ymob
      end
  end.

(** The loop [for line_i, row in enumerate(data_rows)]. *)
Fixpoint parse_rows (line_no : nat) (column_names : list (option string))
    (data_rows : list (list string)) (s : Supplier) : option SupplierError * Supplier :=
  match data_rows with
  | [] => (None, s)
  | row :: rest =>
      match extract column_names row None None with
      | inl e => (Some e, s)
      | inr (sid, ymob) =>
          let s :=
            match sid, ymob with
            | Some sid', Some ymob' =>
                if falsy sid || falsy ymob
                then supplier_log_add (LogFailedToExtract line_no row) s
                else supplier_log_add (LogExtracted sid' ymob')
                                      (query_sets_add sid' ymob' s)
            | _, _ => supplier_log_add (LogFailedToExtract line_no row) s
            end in
          parse_rows (S line_no) column_names rest s
      end
  end.

(** [LocalQuerySupplier._parse_csv_file] on the rows [csv.reader] yields. *)
Definition _parse_csv_file (filename : string) (rows : list (list string))
    (s : Supplier) : option SupplierError * Supplier :=
  let s := supplier_log_add (LogParsingCsv filename) s in
  match rows with
  | [] => (Some IndexError, s)                           (* rows[0] *)
  | header :: data_rows =>
      let column_names := FieldsHelper.get_field_key_by_name <$> header in
      parse_rows 1 column_names data_rows (supplier_log_add (LogColumns column_names) s)
  end.

(** The exported table of the examples of [LocalData], with a row that has
    no SID. *)
Definition example_table : list (list string) :=
  [["考号"; "姓名"; "出生年月"; "语文排名"];
   ["0000000101"; "A"; "981"; "1"];
   [""; "C"; "9803"; "2"];
   ["0000000102"; "B"; "9802"; "3"]]%string.

Section Files.

(** The rows [csv.reader] yields for the file [open(filename)] returns. *)
Variable read_rows : string -> list (list string).

(** The loop [for filename in self._files] of [get_query_sets]. *)
Fixpoint parse_files (files : list string) (s : Supplier)
  : option SupplierError * Supplier :=
  match files with
  | [] => (None, s)
  | filename :: rest =>
      if endswith filename ".csv" then
        match _parse_csv_file filename (read_rows filename) s with
        | (None, s') => parse_files rest s'
        | r => r
        end
      else parse_files rest (supplier_log_add (LogUnexpectedFileType filename) s)
  end.

(** [LocalQuerySupplier.get_query_sets]: the set returned, or the exception
    raised, and the supplier after the call. *)
Definition get_query_sets (s : Supplier) : (SupplierError + gset QuerySet) * Supplier :=
  if negb (_initiated s) then
    match parse_files (_files s) s with
    | (Some e, s') => (inl e, s')
    | (None, s') => (inr (_query_sets s'), s')
    end
  else (inr (_query_sets s), s).

(** *** What the theorems speak of *)

(** The query sets the rows of a table give. *)
Fixpoint rows_query_sets (column_names : list (option string))
    (data_rows : list (list string)) : gset QuerySet :=
  match data_rows with
  | [] => ∅
  | row :: rest =>
      match extract column_names row None None with
      | inr (Some sid, Some ymob) =>
          (if falsy (Some sid) || falsy (Some ymob) then ∅ else {[ [(sid, ymob)] ]})
          ∪ rows_query_sets column_names rest
      | _ => rows_query_sets column_names rest
      end
  end.

Fixpoint files_query_sets (files : list string) : gset QuerySet :=
  match files with
  | [] => ∅
  | filename :: rest =>
      (if endswith filename ".csv" then
         match read_rows filename with
         | header :: data_rows =>
             rows_query_sets (FieldsHelper.get_field_key_by_name <$> header) data_rows
         | [] => ∅
         end
       else ∅) ∪ files_query_sets rest
  end.

(** A query set with one key, whose SID is not empty and whose YMOB has at
    least four characters. *)
Definition single_key (query_set : QuerySet) : Prop :=
  exists sid ymob, query_set = [(sid, ymob)] /\ sid <> ""%string /\
                   (4 <= String.length ymob)%nat.

Lemma parse_rows_frame line_no column_names data_rows s :
  let out := parse_rows line_no column_names data_rows s in
  _files out.2 = _files s /\ _initiated out.2 = _initiated s /\
  (out.1 = None ->
   _query_sets out.2 = _query_sets s ∪ rows_query_sets column_names data_rows).
Proof.
  revert line_no s; induction data_rows as [|row rest IH]; intros line_no s.
  - simpl. split; [done|]. split; [done|]. intros _. by rewrite union_empty_r_L.
  - cbn [parse_rows rows_query_sets].
    destruct (extract column_names row None None) as [e|[sid ymob]]; [done|].
    destruct sid as [sid|], ymob as [ymob|];
      try (destruct (IH (S line_no)
                        (supplier_log_add (LogFailedToExtract line_no row) s))
             as (Hf & Hi & Hq); by rewrite Hf, Hi).
    destruct (falsy (Some sid) || falsy (Some ymob)).
    + destruct (IH (S line_no) (supplier_log_add (LogFailedToExtract line_no row) s))
        as (Hf & Hi & Hq).
      rewrite Hf, Hi. split; [done|]. split; [done|]. intros Hnone.
      rewrite (Hq Hnone). simpl. by rewrite union_empty_l_L.
    + destruct (IH (S line_no)
                   (supplier_log_add (LogExtracted sid ymob)
                                     (query_sets_add sid ymob s)))
        as (Hf & Hi & Hq).
      rewrite Hf, Hi. split; [done|]. split; [done|]. intros Hnone.
      rewrite (Hq Hnone). simpl.
      rewrite (union_comm_L {[ [(sid, ymob)] ]} (_query_sets s)).
      by rewrite union_assoc_L.
Qed.

Lemma parse_files_frame files s :
  let out := parse_files files s in
  _files out.2 = _files s /\ _initiated out.2 = _initiated s /\
  (out.1 = None -> _query_sets out.2 = _query_sets s ∪ files_query_sets files).
Proof.
  cbv zeta. revert s; induction files as [|filename rest IH]; intros s.
  - simpl. split; [done|]. split; [done|]. intros _. by rewrite union_empty_r_L.
  - cbn [parse_files files_query_sets]. destruct (endswith filename ".csv").
    + unfold _parse_csv_file. destruct (read_rows filename) as [|header data_rows].
      { done. }
      pose proof (parse_rows_frame 1 (FieldsHelper.get_field_key_by_name <$> header)
                    data_rows
                    (supplier_log_add
                       (LogColumns (FieldsHelper.get_field_key_by_name <$> header))
                       (supplier_log_add (LogParsingCsv filename) s)))
        as Hrows.
      cbv zeta in Hrows.
      destruct (parse_rows _ _ _ _) as [[e|] s1]; cbn [fst snd] in Hrows |- *;
        [by destruct Hrows as (? & ? & _)|].
      destruct Hrows as (Hf & Hi & Hq). destruct (IH s1) as (Hf' & Hi' & Hq').
      split; [by rewrite Hf'|]. split; [by rewrite Hi'|]. intros Hnone.
      rewrite (Hq' Hnone), (Hq eq_refl). simpl. by rewrite union_assoc_L.
    + destruct (IH (supplier_log_add (LogUnexpectedFileType filename) s))
        as (Hf & Hi & Hq).
      split; [done|]. split; [done|]. intros Hnone.
      rewrite (Hq Hnone). simpl. by rewrite union_empty_l_L.
Qed.

Lemma parse_rows_outcome line_no column_names data_rows s s' :
  (parse_rows line_no column_names data_rows s).1
  = (parse_rows line_no column_names data_rows s').1.
Proof.
  revert line_no s s'; induction data_rows as [|row rest IH]; intros line_no s s';
    [done|].
  cbn [parse_rows].
  destruct (extract column_names row None None) as [e|[sid ymob]]; [done|].
  apply IH.
Qed.

Lemma parse_files_outcome files s s' :
  (parse_files files s).1 = (parse_files files s').1.
Proof.
  revert s s'; induction files as [|filename rest IH]; intros s s'; [done|].
  cbn [parse_files]. destruct (endswith filename ".csv"); [|apply IH].
  unfold _parse_csv_file. destruct (read_rows filename) as [|header data_rows];
    [done|].
  match goal with
  | |- (match parse_rows ?n ?c ?d ?a with _ => _ end).1
       = (match parse_rows ?n ?c ?d ?b with _ => _ end).1 =>
      pose proof (parse_rows_outcome n c d a b) as Hsame;
      destruct (parse_rows n c d a) as [[e|] s1],
               (parse_rows n c d b) as [[e'|] s1'];
      simpl in Hsame; try discriminate
  end.
  - exact Hsame.
  - apply IH.
Qed.

Lemma extract_ymob column_names :
  forall row sid ymob sid' ymob',
    (forall y, ymob = Some y -> (4 <= String.length y)%nat) ->
    extract column_names row sid ymob = inr (sid', Some ymob') ->
    (4 <= String.length ymob')%nat.
Proof.
  induction column_names as [|key column_names IH]; intros row sid ymob sid' ymob' Hy.
  - destruct row; [|done]. intros [= _ Heq]. by apply Hy.
  - destruct row as [|value row]; cbn [extract].
    { intros [= _ Heq]. by apply Hy. }
    destruct (decide _); [by apply IH|].
    destruct (decide _); [|by apply IH].
    apply IH. intros y [= <-]. apply zfill_length.
Qed.

Lemma rows_query_sets_single column_names data_rows query_set :
  query_set ∈ rows_query_sets column_names data_rows -> single_key query_set.
Proof.
  induction data_rows as [|row rest IH]; cbn [rows_query_sets].
  - intros H. by apply elem_of_empty in H.
  - destruct (extract column_names row None None) as [e|[[sid|] [ymob|]]] eqn:Hrow;
      try exact IH.
    intros [H|H]%elem_of_union; [|by apply IH].
    destruct sid as [|c sid]; [by apply elem_of_empty in H|].
    destruct ymob as [|c' ymob]; [by apply elem_of_empty in H|].
    cbn [falsy orb] in H. apply elem_of_singleton in H as ->.
    exists (String c sid), (String c' ymob). split; [done|]. split; [done|].
    eapply extract_ymob; [|exact Hrow]. done.
Qed.

Lemma files_query_sets_single files query_set :
  query_set ∈ files_query_sets files -> single_key query_set.
Proof.
  induction files as [|filename rest IH]; cbn [files_query_sets].
  - intros H. by apply elem_of_empty in H.
  - intros [H|H]%elem_of_union; [|by apply IH].
    destruct (endswith filename ".csv"); [|by apply elem_of_empty in H].
    destruct (read_rows filename) as [|header data_rows];
      [by apply elem_of_empty in H|].
    by eapply rows_query_sets_single.
Qed.

(** X22. [LocalQuerySupplier.get_query_sets] never marks the supplier as
    initiated: every call reads the files again.  When a call returns, it
    returns the query sets the supplier had together with those of the
    files; each of these has exactly one key, with a SID that is not empty
    (taken as written, not filled up) and a YMOB of at least four
    characters; and a second call over the same files returns the same
    set. *)
Theorem local_query_sets_are_reread s query_sets s' :
  _initiated s = false ->
  get_query_sets s = (inr query_sets, s') ->
  _initiated s' = false /\
  query_sets = _query_sets s ∪ files_query_sets (_files s) /\
  (forall query_set, query_set ∈ query_sets ->
     query_set ∈ _query_sets s \/ single_key query_set) /\
  exists s'', get_query_sets s' = (inr query_sets, s'').
Proof.
  intros Hinit. unfold get_query_sets at 1. rewrite Hinit. cbn [negb].
  pose proof (parse_files_frame (_files s) s) as Hframe.
  destruct (parse_files (_files s) s) as [[e|] s1] eqn:Hparse; [done|].
  intros [= <- <-]. destruct Hframe as (Hf & Hi & Hq).
  specialize (Hq eq_refl). simpl in Hf, Hi, Hq.
  split; [by rewrite Hi|]. split; [done|]. split.
  - intros query_set Hin. rewrite Hq in Hin.
    apply elem_of_union in Hin as [Hin|Hin]; [by left|].
    right. by eapply files_query_sets_single.
  - unfold get_query_sets. rewrite Hi, Hinit. cbn [negb].
    pose proof (parse_files_frame (_files s1) s1) as Hframe'.
    cbv zeta in Hframe'. rewrite Hf in Hframe' |- *.
    assert (Hagain : (parse_files (_files s) s1).1 = None)
      by (by rewrite (parse_files_outcome (_files s) s1 s), Hparse).
    destruct (parse_files (_files s) s1) as [[e|] s2]; [done|]. clear Hagain.
    cbn [fst snd] in Hframe'. destruct Hframe' as (_ & _ & Hq').
    exists s2. do 2 f_equal.
    rewrite (Hq' eq_refl), Hq.
    by rewrite <- union_assoc_L, union_idemp_L.
Qed.

End Files.

Lemma local_query_sets_are_reread_witness :
  exists query_sets s' s'',
    get_query_sets (fun _ => example_table)
                   (LocalQuerySupplier_init ["output/test.csv"%string])
    = (inr query_sets, s') /\
    size query_sets = 2%nat /\
    get_query_sets (fun _ => example_table) s' = (inr query_sets, s'').
Proof.
  assert (Hok : match (get_query_sets (fun _ => example_table)
                         (LocalQuerySupplier_init ["output/test.csv"%string])).1 with
                | inr query_sets => bool_decide (size query_sets = 2%nat)
                | inl _ => false
                end = true)
    by (vm_compute; reflexivity).
  destruct (get_query_sets (fun _ => example_table)
              (LocalQuerySupplier_init ["output/test.csv"%string]))
    as [[e|query_sets] s'] eqn:Hget; [discriminate Hok|].
  destruct (local_query_sets_are_reread (fun _ => example_table)
              (LocalQuerySupplier_init ["output/test.csv"%string]) query_sets s'
              eq_refl Hget)
    as (_ & _ & _ & s'' & Hagain).
  exists query_sets, s', s''. split; [reflexivity|].
  split; [by apply bool_decide_eq_true in Hok|exact Hagain].
Defined.

End QuerySupplier.

(** ** [DefaultBruteForceQuerySupplier]: one query set per SID *)

Module BruteForce.
Import PyExc Fetch Utils.

Definition ymob_list : list string :=
  ["9903"; "9906"; "9901"; "9805"; "9810"; "9807"; "9812"; "9902"; "9904"; "9905";
   "9907"; "9908"; "9811"; "9809"; "9808"; "9806"; "9909"; "9910"; "9911"; "9912";
   "9804"; "9803"; "9802"; "9801"; "0001"; "0002"; "0003"; "0004"; "0005"; "0006";
   "0007"; "0008"; "0009"; "0010"; "0011"; "0012"; "9712"; "9711"; "9710"; "9709";
   "9708"; "9707"; "9706"; "9705"; "9704"; "9703"; "9702"; "9701"; "0101"; "0102";
   "0103"; "0104"; "0105"; "0106"; "0107"; "0108"; "0109"; "0110"; "0111";
   "0112"]%string.

(** ['%010d' % i]: the decimal digits of [i], a minus sign in front of them
    for a negative [i], filled up with zeros behind the sign to ten
    characters. *)
Definition format_010d (i : Z) : string := zfill 10 (pretty i).

(** [_get_query_set_for(sid)]: the keys the generator yields, in order. *)
Definition _get_query_set_for (sid : string) : QuerySet :=
  (fun ymob => (sid, ymob)) <$> ymob_list.

(** [get_query_sets]: the query sets the generator yields for
    [range(self._start, self._stop)], in order. *)
Definition get_query_sets (_start _stop : Z) : list QuerySet :=
  (fun i => _get_query_set_for (format_010d i)) <$> seqZ _start (_stop - _start).

(** A string without its leading zeros. *)
Fixpoint strip_zeros (s : string) : string :=
  match s with
  | String c rest => if decide (c = pretty_N_char 0) then strip_zeros rest else s
  | EmptyString => EmptyString
  end.

Lemma digit_cases (d : N) :
  (d < 10)%N ->
  d = 0%N \/ d = 1%N \/ d = 2%N \/ d = 3%N \/ d = 4%N \/ d = 5%N \/ d = 6%N \/
  d = 7%N \/ d = 8%N \/ d = 9%N.
Proof. lia. Qed.

(** The digits of a positive number start with a digit that is not zero. *)
Lemma pretty_N_go_head x :
  forall s, (0 < x)%N ->
    exists d rest, pretty_N_go x s = String (pretty_N_char d) rest /\
                   (0 < d < 10)%N.
Proof.
  induction (N.lt_wf_0 x) as [x _ IH]; intros s Hx.
  rewrite pretty_N_go_step by done.
  destruct (decide (x `div` 10 = 0)%N) as [Hdiv|Hdiv].
  - rewrite Hdiv, pretty_N_go_0. exists (x `mod` 10)%N, s. split; [done|].
    assert (Hmod : (x `mod` 10 < 10)%N) by (by apply N.mod_lt).
    assert (Hx' : x = (10 * x `div` 10 + x `mod` 10)%N) by (by apply N.div_mod).
    rewrite Hdiv in Hx'. clear Hdiv IH. lia.
  - apply IH; [by apply N.div_lt|by apply N.neq_0_lt_0].
Qed.

Lemma pretty_N_head (n : N) :
  exists d rest, pretty n = String (pretty_N_char d) rest /\ (d < 10)%N /\
                 (d = 0%N -> n = 0%N).
Proof.
  unfold pretty, pretty_N. destruct (decide (n = 0)%N) as [->|Hn].
  - exists 0%N, ""%string. split; [done|]. split; [lia|done].
  - destruct (pretty_N_go_head n ""%string) as (d & rest & Heq & Hd); [lia|].
    exists d, rest. split; [done|]. split; lia.
Qed.

Lemma fill_succ k :
  String.concat "" (replicate (S k) "0"%string)
  = String (pretty_N_char 0) (String.concat "" (replicate k "0"%string)).
Proof. by destruct k. Qed.

Lemma strip_zeros_fill k s :
  strip_zeros (String.concat "" (replicate k "0"%string) ++ s) = strip_zeros s.
Proof.
  induction k as [|k IH]; [done|].
  rewrite fill_succ.
  change (strip_zeros (String (pretty_N_char 0)
                         (String.concat "" (replicate k "0"%string) ++ s))
          = strip_zeros s).
  cbn [strip_zeros].
  destruct (decide (pretty_N_char 0 = pretty_N_char 0)) as [_|Hne]; [exact IH|done].
Qed.

Lemma zfill_digits width (n : N) :
  zfill width (pretty n)
  = (String.concat "" (replicate (width - String.length (pretty n)) "0"%string)
     ++ pretty n)%string.
Proof.
  destruct (pretty_N_head n) as (d & rest & Heq & Hd & _).
  unfold zfill. rewrite Heq.
  assert (Hsign : is_sign (pretty_N_char d) = false)
    by (destruct (digit_cases d Hd) as [->|[->|[->|[->|[->|[->|[->|[->|[->| ->]]]]]]]]];
        reflexivity).
  by rewrite Hsign.
Qed.

Lemma strip_zeros_pretty (n : N) :
  strip_zeros (pretty n) = if decide (n = 0%N) then ""%string else pretty n.
Proof.
  destruct (decide (n = 0%N)) as [->|Hn]; [done|].
  destruct (pretty_N_head n) as (d & rest & Heq & Hd & Hzero).
  rewrite Heq. cbn [strip_zeros]. rewrite decide_False; [done|].
  intros Hc. apply pretty_N_char_inj in Hc; [|done|lia]. by apply Hn, Hzero.
Qed.

Lemma format_010d_inj i j :
  0 <= i -> 0 <= j -> format_010d i = format_010d j -> i = j.
Proof.
  intros Hi Hj Heq. unfold format_010d in Heq.
  assert (Hpi : pretty i = pretty (Z.to_N i)) by (by destruct i).
  assert (Hpj : pretty j = pretty (Z.to_N j)) by (by destruct j).
  rewrite Hpi, Hpj, !zfill_digits in Heq.
  apply (f_equal strip_zeros) in Heq.
  rewrite !strip_zeros_fill, !strip_zeros_pretty in Heq.
  destruct (decide (Z.to_N i = 0%N)) as [Hi0|Hi0],
           (decide (Z.to_N j = 0%N)) as [Hj0|Hj0].
  - lia.
  - destruct (pretty_N_head (Z.to_N j)) as (d & rest & Hd & _).
    rewrite Hd in Heq. discriminate.
  - destruct (pretty_N_head (Z.to_N i)) as (d & rest & Hd & _).
    rewrite Hd in Heq. discriminate.
  - apply (inj pretty) in Heq. lia.
Qed.

(** X25. The brute-force supplier yields one query set for every integer
    of [range(start, stop)], in order, and none when [stop <= start].  The
    keys of a query set are the sixty YMOBs of [ymob_list] in their order,
    none of them twice, all with the SID ['%010d' % i] of the set, which has
    at least ten characters.  From a start that is not negative, no two
    query sets share a SID: every SID of the range is tried by one task
    only. *)
Theorem brute_force_tries_each_sid_once _start _stop :
  0 <= _start ->
  length (get_query_sets _start _stop) = Z.to_nat (_stop - _start) /\
  (forall k query_set, get_query_sets _start _stop !! k = Some query_set ->
     query_set.*1 = replicate 60 (format_010d (_start + Z.of_nat k)) /\
     query_set.*2 = ymob_list /\
     NoDup query_set /\
     (10 <= String.length (format_010d (_start + Z.of_nat k)))%nat) /\
  (forall j k query_set_j query_set_k key_j key_k,
     get_query_sets _start _stop !! j = Some query_set_j ->
     get_query_sets _start _stop !! k = Some query_set_k ->
     key_j ∈ query_set_j -> key_k ∈ query_set_k ->
     key_j.1 = key_k.1 -> j = k).
Proof.
  intros Hstart.
  assert (Hymobs : NoDup ymob_list)
    by (apply (bool_decide_unpack _); vm_compute; exact I).
  assert (Hset : forall k query_set,
            get_query_sets _start _stop !! k = Some query_set ->
            query_set = _get_query_set_for (format_010d (_start + Z.of_nat k))).
  { intros k query_set Hk. unfold get_query_sets in Hk.
    rewrite list_lookup_fmap in Hk.
    destruct (seqZ _start (_stop - _start) !! k) as [i|] eqn:Hi; [|done].
    apply lookup_seqZ in Hi as [-> _]. by injection Hk as <-. }
  assert (Hsid : forall sid key, key ∈ _get_query_set_for sid -> key.1 = sid).
  { intros sid key Hin. unfold _get_query_set_for in Hin.
    by apply list_elem_of_fmap in Hin as (ymob & -> & _). }
  split; [|split].
  - unfold get_query_sets. by rewrite length_fmap, length_seqZ.
  - intros k query_set Hk. rewrite (Hset k query_set Hk).
    split; [reflexivity|]. split; [reflexivity|]. split; [|apply zfill_length].
    unfold _get_query_set_for. apply NoDup_fmap; [|done].
    by intros ymob1 ymob2 [= ->].
  - intros j k query_set_j query_set_k key_j key_k Hj Hk Hin_j Hin_k Hsame.
    rewrite (Hset j query_set_j Hj) in Hin_j.
    rewrite (Hset k query_set_k Hk) in Hin_k.
    apply Hsid in Hin_j, Hin_k. rewrite Hin_j, Hin_k in Hsame.
    apply format_010d_inj in Hsame; lia.
Qed.

Lemma brute_force_tries_each_sid_once_witness :
  length (get_query_sets 1 4) = 3%nat /\
  (fun query_set : QuerySet => query_set.*1) <$> get_query_sets 1 4
  = replicate 60 "0000000001"%string :: replicate 60 "0000000002"%string
    :: [replicate 60 "0000000003"%string].
Proof.
  destruct (brute_force_tries_each_sid_once 1 4) as (Hlen & _ & _); [lia|].
  split; [exact Hlen|]. vm_compute. reflexivity.
Defined.

End BruteForce.

(** ** [SouthEnrollmentDataService]: the decoder and the table it feeds *)

Module Enrollment.
Import PyExc Fetch Utils.

(** [key in obj] for a string [key]: a key of a dictionary, a substring of
    a string, an item of a list; [TypeError] for anything else. *)
Definition py_contains (obj : json) (key : string) : exc_class + bool :=
  match obj with
  | JObj fields => inr (bool_decide (is_Some (assoc_get key fields)))
  | JStr s => inr (bool_decide (is_Some (String.index 0 key s)))
  | JList l => inr (existsb (fun v => py_eq v (JStr key)) l)
  | _ => inl TypeError
  end.

(** [SouthEnrollmentDataService._parse_json(json_body, sid, ymob)]. *)
Definition _parse_json (json_body : json) (sid ymob : string) : exc_class + ResultMap :=
  has_args ← py_contains json_body "args";
  if has_args : bool then
    args ← py_getitem json_body "args";
    zkzh ← py_getitem args "zkzh";
    xm ← py_getitem args "xm";
    jhlb ← py_getitem args "jhlb";
    pc ← py_getitem args "pc";
    yxh ← py_getitem args "yxh";
    yxmc ← py_getitem args "yxmc";
    mret (construct_enrollment_result_map zkzh xm (JStr ymob) jhlb pc yxh yxmc)
  else
    mret (construct_enrollment_result_map (JStr sid) (JStr "暂无") (JStr ymob)
            (JStr "暂无") (JStr "暂无") (JStr "暂无") (JStr "暂无")).

(** The part of [SouthEnrollmentDataService._fetch0] after the [try]
    block; the three exception classes are the nested classes of this
    service, which derive from [KnownException] like those of
    [SouthDataService]. *)
Definition classify (resp : Response) (sid ymob : string) : exc_class + ResultMap :=
  match resp with
  | TransportFailure => inl RuntimeError
  | Body json_body =>
      status ← py_getitem json_body "code";
      if py_eq_int status (-3) then inl InvalidYMOBException
      else if py_eq_int status 1 || py_eq_int status (-4) then
        _parse_json json_body sid ymob
      else if py_eq_int status (-1) then inl InvalidCaptchaException
      else if py_eq_int status (-2) then inl InvalidSIDException
      else inl UnknownResponseException
  end.

(** An answer that carries a record, and one that carries none. *)
Definition admitted_body : json :=
  JObj [("code", JInt 1);
        ("args", JObj [("zkzh", JStr "0101000001"); ("xm", JStr "A");
                       ("jhlb", JStr "P"); ("pc", JStr "1");
                       ("yxh", JStr "10001"); ("yxmc", JStr "U")])]%string.

Definition empty_body : json := JObj [("code"%string, JInt (-4))].

(** X23. A record the enrollment decoder returns fits the table
    [CSVEnrollmentPersistenceService] writes: its keys are the seven output
    fields in their order, its YMOB is the one that was asked for, and its
    row in the table holds its seven values in order, none replaced by the
    empty string, with no warning logged.  An answer without ['args']
    gives the record of the SID that was asked for. *)
Theorem enrollment_record_fits_the_table json_body sid ymob r :
  _parse_json json_body sid ymob = inr r ->
  r.*1 = EnrollmentFieldsHelper.get_output_fields /\
  assoc_get "ymob" r = Some (JStr ymob) /\
  CSVEnrollmentPersistenceService_rows [entry_of r]
  = ([], [JStr <$> EnrollmentFieldsHelper.get_output_field_names; r.*2]) /\
  (py_contains json_body "args" = inr false ->
   assoc_get "sid" r = Some (JStr sid)).
Proof.
  unfold _parse_json.
  destruct (py_contains json_body "args") as [e|[|]]; cbn [mbind exc_bind];
    [done| |].
  - destruct (py_getitem json_body "args") as [e|args]; cbn [mbind exc_bind]; [done|].
    destruct (py_getitem args "zkzh") as [e|zkzh]; cbn [mbind exc_bind]; [done|].
    destruct (py_getitem args "xm") as [e|xm]; cbn [mbind exc_bind]; [done|].
    destruct (py_getitem args "jhlb") as [e|jhlb]; cbn [mbind exc_bind]; [done|].
    destruct (py_getitem args "pc") as [e|pc]; cbn [mbind exc_bind]; [done|].
    destruct (py_getitem args "yxh") as [e|yxh]; cbn [mbind exc_bind]; [done|].
    destruct (py_getitem args "yxmc") as [e|yxmc]; cbn [mbind exc_bind]; [done|].
    intros [= <-]. split; [reflexivity|]. split; [reflexivity|].
    split; [vm_compute; reflexivity|]. discriminate.
  - intros [= <-]. split; [reflexivity|]. split; [reflexivity|].
    split; [vm_compute; reflexivity|]. reflexivity.
Qed.

Lemma enrollment_record_fits_the_table_witness :
  exists r,
    classify (Body empty_body) "0101000009" "9801" = inr r /\
    assoc_get "sid" r = Some (JStr "0101000009") /\
    r.*1 = EnrollmentFieldsHelper.get_output_fields.
Proof.
  eexists. split; [vm_compute; reflexivity|].
  destruct (enrollment_record_fits_the_table empty_body "0101000009" "9801" _ eq_refl)
    as (Hkeys & _ & _ & Hsid).
  split; [by apply Hsid|exact Hkeys].
Defined.

End Enrollment.

(** ** The decoder of [SouthDataService] *)

Module South.
Import PyExc Fetch Utils.

(** The variables the loop of [_parse_json] assigns. *)
Record Subjects := mkSubjects {
  major : string; chn : Z; mth : Z; eng : Z; com : Z; sum : Z
}.

(** [for submap in subject_list]: the items of a list, the keys of a
    dictionary, the characters of a string (one item per byte here; the
    loop body raises at the first item of a string either way); anything
    else is not iterable. *)
Definition py_iter (v : json) : exc_class + list json :=
  match v with
  | JList l => inr l
  | JObj fields => inr (JStr <$> fields.*1)
  | JStr s => inr ((fun c => JStr (String c EmptyString)) <$> String.list_ascii_of_string s)
  | JNull | JBool _ | JInt _ => inl TypeError
  end.

(** [subject.endswith(suffix)]: [AttributeError] unless [subject] is a
    [str]. *)
Definition py_endswith (subject : json) (suffix : string) : exc_class + bool :=
  match subject with
  | JStr s => inr (endswith s suffix)
  | _ => inl AttributeError
  end.

(** [subject[:-2]] where [subject] ends with the two characters of
    ['总分']: the subject without them. *)
Definition without_sum_suffix (subject : json) : string :=
  match subject with
  | JStr s => drop_last (String.length "总分") s
  | _ => EmptyString
  end.

(** The digits of a decimal numeral, most significant first. *)
Fixpoint digits_value (acc : Z) (s : string) : option Z :=
  match s with
  | EmptyString => Some acc
  | String c rest =>
      let n := Ascii.nat_of_ascii c in
      if ((48 <=? n) && (n <=? 57))%nat
      then digits_value (10 * acc + Z.of_nat (n - 48)) rest
      else None
  end.

(** [int(s)] on the strings of the examples: ASCII digits with an optional
    sign in front. *)
Definition example_int (s : string) : option Z :=
  match s with
  | EmptyString => None
  | String c rest =>
      if decide (rest = EmptyString) then digits_value 0 s
      else if decide (String c EmptyString = "-"%string)
           then Z.opp <$> digits_value 0 rest
           else if decide (String c EmptyString = "+"%string)
                then digits_value 0 rest
                else digits_value 0 s
  end.

Section Decoder.

(** [int(s)] for a [str] [s]: the integer the builtin returns, or [None]
    where it raises [ValueError]. *)
Variable int_of_str : string -> option Z.

(** [int(v)]. *)
Definition py_int (v : json) : exc_class + Z :=
  match v with
  | JInt z => inr z
  | JBool b => inr (if b then 1 else 0)
  | JStr s => match int_of_str s with
              | Some z => inr z
              | None => inl ValueError
              end
  | JNull | JList _ | JObj _ => inl TypeError
  end.

(** One turn of [for submap in subject_list]. *)
Definition subject_step (acc : Subjects) (submap : json) : exc_class + Subjects :=
  subject ← py_getitem submap "km";
  let cj := v ← py_getitem submap "cj"; py_int v in
  if py_eq subject (JStr "语文") then
    z ← cj; mret (mkSubjects (major acc) z (mth acc) (eng acc) (com acc) (sum acc))
  else
    is_mth ← py_endswith subject "数学";
    if is_mth : bool then
      z ← cj; mret (mkSubjects (major acc) (chn acc) z (eng acc) (com acc) (sum acc))
    else if py_eq subject (JStr "英语(含听说)") then
      z ← cj; mret (mkSubjects (major acc) (chn acc) (mth acc) z (com acc) (sum acc))
    else
      is_com ← py_endswith subject "综合";
      if is_com : bool then
        z ← cj; mret (mkSubjects (major acc) (chn acc) (mth acc) (eng acc) z (sum acc))
      else
        is_sum ← py_endswith subject "总分";
        if is_sum : bool then
          z ← cj;
          mret (mkSubjects (without_sum_suffix subject) (chn acc) (mth acc)
                  (eng acc) (com acc) z)
        else mret acc.

Fixpoint subject_loop (acc : Subjects) (subject_list : list json)
  : exc_class + Subjects :=
  match subject_list with
  | [] => inr acc
  | submap :: rest => acc' ← subject_step acc submap; subject_loop acc' rest
  end.

(** [SouthDataService._parse_json(json_body, ymob)]: the lines it logs and
    the result map it returns or the exception it raises. *)
Definition _parse_json (json_body : json) (ymob : string)
  : list LogRecord * (exc_class + ResultMap) :=
  match (args ← py_getitem json_body "args";
         subject_list ← py_getitem args "list";
         items ← py_iter subject_list;
         found ← subject_loop (mkSubjects "未知" (-1) (-1) (-1) (-1) (-1)) items;
         mret (args, found)) with
  | inl e => ([], inl e)
  | inr (args, found) =>
      let logs :=
        if decide (major found = "未知"%string)
        then [LogParse "Unable to extract major from json"]
        else if decide (major found ∈ FieldsHelper.major_list) then []
             else [LogParse "Unexpected major type"] in
      let warning :=
        if eng found =? -1
        then zkzh ← py_getitem args "zkzh"; mret [LogParse "No English field"]
        else inr [] in
      match warning with
      | inl e => (logs, inl e)
      | inr logs' =>
          (logs ++ logs',
           zkzh ← py_getitem args "zkzh";
           xm ← py_getitem args "xm";
           mret (construct_result_map zkzh xm (JStr ymob) (JStr (major found))
                   (JInt (chn found)) (JInt (mth found)) (JInt (eng found))
                   (JInt (com found)) (JInt (sum found))))
      end
  end.

End Decoder.

(** *** An answer that carries a record *)

Definition subject_entry (km cj : string) : json :=
  JObj [("km"%string, JStr km); ("cj"%string, JStr cj)].

Definition record_body (sid : string) : json :=
  JObj [("code", JInt 1);
        ("args", JObj [("zkzh", JStr sid); ("xm", JStr "A");
                       ("list", JList [subject_entry "语文" "120";
                                       subject_entry "理科数学" "130";
                                       subject_entry "英语(含听说)" "125";
                                       subject_entry "理科综合" "250";
                                       subject_entry "理科总分" "625"])])]%string.

Definition record_of (sid ymob : string) : ResultMap :=
  construct_result_map (JStr sid) (JStr "A") (JStr ymob) (JStr "理科")
    (JInt 120) (JInt 130) (JInt 125) (JInt 250) (JInt 625).

Definition invalid_ymob_body : json := JObj [("code"%string, JInt (-4))].

Lemma record_body_decodes sid ymob :
  _parse_json example_int (record_body sid) ymob = ([], inr (record_of sid ymob)).
Proof. reflexivity. Qed.

End South.

(** ** A task from its first key to its end *)

Module Task.
Import PyExc Fetch Generator.

(** The requests of a task that sends each key of [keys] once, in order,
    every one with the token [tok]. *)
Definition requests_for (tok : Token) (keys : list QueryKey) : list Request :=
  (fun key : QueryKey => mkRequest key.1 key.2 tok.1 tok.2) <$> keys.

Section Tasks.

Variable remote : list Request -> Request -> Response.
Variable parse_json : json -> string -> list LogRecord * (exc_class + ResultMap).

(** [_fetch] run on a query set that is a generator object
    ([generator = true]) or a tuple. *)
Definition task (generator : bool) (fuel : nat) (query_set : QuerySet) (st : State)
  : Outcome * State :=
  if generator then fetch_generator remote parse_json fuel query_set st
  else fetch remote parse_json fuel query_set st.

(** What a pass hands to [submit] when [rest] are the keys after the one
    the loop is at: the generator as the loop left it, or the tuple. *)
Definition resubmitted (generator : bool) (query_set rest : QuerySet) : QuerySet :=
  if generator then rest else query_set.

(** The [for] loop of either kind of task. *)
Fixpoint for_keys_of (generator : bool) (fuel : nat) (query_set : QuerySet)
    (keys : list QueryKey) (q_sid : option string) (tok : Token) (st : State)
  : Outcome * State :=
  match keys with
  | [] => (Returned, log_add (LogNoValidYMOB q_sid) st)
  | key :: rest =>
      let q_sid := update_q_sid q_sid key.1 in
      match while_not_skip remote parse_json fuel
              (resubmitted generator query_set rest) key true tok st with
      | KeySkipped tok' st' => for_keys_of generator fuel query_set rest q_sid tok' st'
      | KeyStop o st' => (o, st')
      end
  end.

Lemma for_keys_of_tuple fuel query_set keys q_sid tok st :
  for_keys_of false fuel query_set keys q_sid tok st
  = for_keys remote parse_json fuel query_set keys q_sid tok st.
Proof.
  revert q_sid tok st. induction keys as [|key rest IH]; intros q_sid tok st;
    [reflexivity|].
  cbn [for_keys_of for_keys resubmitted].
  destruct (while_not_skip _ _ _ _ _ _ _ _); [apply IH|reflexivity].
Qed.

Lemma for_keys_of_generator fuel query_set keys q_sid tok st :
  for_keys_of true fuel query_set keys q_sid tok st
  = for_keys_generator remote parse_json fuel keys q_sid tok st.
Proof.
  revert q_sid tok st. induction keys as [|key rest IH]; intros q_sid tok st;
    [reflexivity|].
  cbn [for_keys_of for_keys_generator resubmitted].
  destruct (while_not_skip _ _ _ _ _ _ _ _); [apply IH|reflexivity].
Qed.

(** A running task whose captcha queue holds a token enters the loop with
    that token. *)
Lemma task_unfold generator fuel query_set st tok rest :
  running st = true -> pool st = tok :: rest ->
  task generator fuel query_set st
  = wrapped (for_keys_of generator fuel query_set query_set None tok (set_pool rest st)).
Proof.
  intros Hrun Hpool. destruct generator; unfold task.
  - unfold fetch_generator, get_captcha_result. rewrite Hrun, Hpool. cbn [negb].
    by rewrite for_keys_of_generator.
  - rewrite (fetch_unfold remote parse_json fuel query_set st tok rest Hrun Hpool).
    by rewrite for_keys_of_tuple.
Qed.

(** The safety half for either kind of task. *)
Lemma task_run generator fuel query_set st :
  let out := task generator fuel query_set st in
  exists attempts,
    attempts_in_order (req_key <$> attempts) query_set /\
    run_of remote parse_json out.1 st out.2 attempts.
Proof.
  destruct generator; [apply fetch_generator_run|apply fetch_run].
Qed.

(** A key answered with "invalid YMOB" is left after one request. *)
Lemma key_skipped fuel query_set sid ymob tok st :
  answer remote parse_json (sent st) (mkRequest sid ymob tok.1 tok.2)
  = inl InvalidYMOBException ->
  exists st',
    while_not_skip remote parse_json (S fuel) query_set (sid, ymob) true tok st
    = KeySkipped tok st' /\
    sends st st' (mkRequest sid ymob tok.1 tok.2).
Proof.
  destruct tok as [code t]. cbn [fst snd]. intros Hans.
  destruct (try_body_cases remote parse_json query_set sid ymob true (code, t) st
              code t st eq_refl) as (st3 & Hsends & Hpass).
  assert (Hnext : try_body remote parse_json query_set (sid, ymob) true (code, t) st
                  = NextKey (code, t) (log_add (LogInvalidYMOB sid ymob) st3))
    by (rewrite Hpass, Hans; reflexivity).
  eexists. split; [by rewrite while_not_skip_S, Hnext|]. by apply sends_log.
Qed.

(** A key answered with a record ends the task after one request. *)
Lemma key_found fuel query_set sid ymob tok st r :
  answer remote parse_json (sent st) (mkRequest sid ymob tok.1 tok.2) = inr r ->
  exists st',
    while_not_skip remote parse_json (S fuel) query_set (sid, ymob) true tok st
    = KeyStop Returned st' /\
    sent st' = sent st ++ [mkRequest sid ymob tok.1 tok.2] /\
    results st' = results st ++ [r] /\
    futures st' = futures st /\ pending st' = pending st /\
    pool st' = pool st /\ running st' = running st.
Proof.
  destruct tok as [code t]. cbn [fst snd]. intros Hans.
  destruct (try_body_success remote parse_json query_set sid ymob true (code, t) st
              code t st r eq_refl Hans) as (st' & Hpass & Hrest).
  exists st'. split; [by rewrite while_not_skip_S, Hpass|exact Hrest].
Qed.

(** The loop passes over keys that are answered with "invalid YMOB": one
    request each, with the token in use, and it is at the key after them
    with nothing else changed. *)
Lemma skip_keys generator fuel query_set tok skipped : forall later q_sid st,
  Forall (fun a => a = inl InvalidYMOBException)
         (answers remote parse_json (sent st) (requests_for tok skipped)) ->
  exists st' q_sid',
    for_keys_of generator (S fuel) query_set (skipped ++ later) q_sid tok st
    = for_keys_of generator (S fuel) query_set later q_sid' tok st' /\
    sent st' = sent st ++ requests_for tok skipped /\
    results st' = results st /\ futures st' = futures st /\
    pending st' = pending st /\ pool st' = pool st /\ running st' = running st.
Proof.
  induction skipped as [|[sid ymob] skipped IH]; intros later q_sid st Hall.
  - exists st, q_sid. simpl. rewrite app_nil_r. auto 10.
  - cbn [requests_for fmap list_fmap answers fst snd] in Hall.
    apply Forall_cons in Hall as [Hfirst Hrest].
    destruct (key_skipped fuel (resubmitted generator query_set (skipped ++ later))
                sid ymob tok st Hfirst)
      as (st1 & Hkey & Hs & Hr & Hf & Hp & Hpool & Hrun).
    rewrite <- Hs in Hrest.
    destruct (IH later (update_q_sid q_sid sid) st1 Hrest)
      as (st' & q_sid' & Hloop & Hs' & Hr' & Hf' & Hp' & Hpool' & Hrun').
    exists st', q_sid'. split.
    + rewrite <- app_comm_cons. cbn [for_keys_of fst]. by rewrite Hkey.
    + rewrite Hs', Hs, Hr', Hr, Hf', Hf, Hp', Hp, Hpool', Hpool, Hrun', Hrun.
      cbn [requests_for fmap list_fmap fst snd]. rewrite <- app_assoc. auto 10.
Qed.

(** The requests sent so far stay in place. *)
Lemma while_not_skip_sent fuel query_set key cv tok st :
  match while_not_skip remote parse_json fuel query_set key cv tok st with
  | KeySkipped _ st' | KeyStop _ st' => exists attempts, sent st' = sent st ++ attempts
  end.
Proof.
  pose proof (while_not_skip_run remote parse_json fuel query_set key cv tok st) as H.
  destruct (while_not_skip _ _ _ _ _ _ _ _) as [tok' st'|o st'].
  - destruct H as (attempts & _ & _ & Hs & _). by exists attempts.
  - destruct H as (attempts & _ & Hrun). exists attempts. by eapply run_of_sent.
Qed.

Lemma for_keys_of_sent generator fuel query_set keys q_sid tok st :
  exists attempts,
    sent (for_keys_of generator fuel query_set keys q_sid tok st).2
    = sent st ++ attempts.
Proof.
  destruct generator.
  - rewrite for_keys_of_generator.
    destruct (for_keys_generator_run remote parse_json fuel keys q_sid tok st)
      as (attempts & _ & Hrun).
    exists attempts. by eapply run_of_sent.
  - rewrite for_keys_of_tuple.
    destruct (for_keys_run remote parse_json fuel query_set keys q_sid tok st)
      as (attempts & _ & Hrun).
    exists attempts. by eapply run_of_sent.
Qed.

Lemma wrapped_sent r : sent (wrapped r).2 = sent r.2.
Proof.
  destruct r as [[|e| |] st]; try reflexivity.
  simpl. by destruct (issubclass e Exception).
Qed.

(** The loop begins with a request for its first key that carries the
    token it was entered with. *)
Lemma first_request generator fuel query_set key later q_sid tok st :
  exists attempts,
    sent (for_keys_of generator (S fuel) query_set (key :: later) q_sid tok st).2
    = sent st ++ mkRequest key.1 key.2 tok.1 tok.2 :: attempts.
Proof.
  destruct key as [sid ymob], tok as [code t]. cbn [for_keys_of fst snd].
  set (qs := resubmitted generator query_set later).
  set (req := mkRequest sid ymob code t).
  rewrite while_not_skip_S.
  destruct (try_body_cases remote parse_json qs sid ymob true (code, t) st
              code t st eq_refl) as (st3 & (Hs & _) & Hpass).
  fold req in Hs, Hpass. rewrite Hpass. clear Hpass.
  assert (Hloop : forall cv' tok' st',
            sent st' = sent st ++ [req] ->
            exists attempts,
              sent (match while_not_skip remote parse_json fuel qs (sid, ymob) cv' tok' st'
                    with
                    | KeySkipped tok2 st2 =>
                        for_keys_of generator (S fuel) query_set later
                          (update_q_sid q_sid sid) tok2 st2
                    | KeyStop o st2 => (o, st2)
                    end).2
              = sent st ++ req :: attempts).
  { intros cv' tok' st' Hs'.
    pose proof (while_not_skip_sent fuel qs (sid, ymob) cv' tok' st') as Hkey.
    destruct (while_not_skip _ _ _ _ _ _ _ _) as [tok2 st2|o st2];
      destruct Hkey as (a1 & Ha1).
    - destruct (for_keys_of_sent generator (S fuel) query_set later
                  (update_q_sid q_sid sid) tok2 st2) as (a2 & Ha2).
      exists (a1 ++ a2). rewrite Ha2, Ha1, Hs'. by rewrite <- !app_assoc.
    - exists a1. simpl. rewrite Ha1, Hs'. by rewrite <- app_assoc. }
  destruct (answer remote parse_json (sent st) req) as [e|r].
  - repeat match goal with
           | |- context [if issubclass e ?c then _ else _] =>
               destruct (issubclass e c)
           end.
    + destruct (for_keys_of_sent generator (S fuel) query_set later
                  (update_q_sid q_sid sid) (code, t)
                  (log_add (LogInvalidYMOB sid ymob) st3)) as (a2 & Ha2).
      exists a2. rewrite Ha2. simpl. rewrite Hs. by rewrite <- app_assoc.
    + exists []. simpl. exact Hs.
    + apply Hloop. exact Hs.
    + exists []. simpl. exact Hs.
    + apply Hloop. exact Hs.
    + exists []. simpl. exact Hs.
  - exists []. simpl. exact Hs.
Qed.

(** Rewrites the loop of the goal with an equation that states it up to the
    unfolding of [QuerySet]. *)
Ltac rewrite_loop H :=
  match type of H with
  | _ = ?rhs =>
      match goal with
      | |- context [wrapped ?loop] =>
          let E := fresh in
          assert (E : loop = rhs) by exact H; rewrite E; clear E
      end
  end.

(** C5. A task, whether its query set is a tuple or a generator, sends its
    requests in the order of the keys; a request answered with a record is
    the last request of the task, the task returns, and that record is the
    one record appended; without such an answer the result list is
    unchanged.  A running task that finds a token begins with a request
    for its first key that carries this token.  It moves to the next key
    when the answer is "invalid YMOB", and at the first key answered with
    a record it appends exactly that record and returns: it has sent one
    request for each key up to that one and none for a later key.  When
    every key is answered with "invalid YMOB" it has sent one request for
    each key, appends nothing and returns after the warning 'No valid
    YMOB'. *)
Theorem first_success_wins generator fuel query_set st :
  let out := task generator fuel query_set st in
  (exists attempts,
     sent out.2 = sent st ++ attempts /\
     attempts_in_order (req_key <$> attempts) query_set /\
     (forall i r, answers remote parse_json (sent st) attempts !! i = Some (inr r) ->
        S i = length attempts /\ out.1 = Returned /\
        results out.2 = results st ++ [r]) /\
     ((forall i r, answers remote parse_json (sent st) attempts !! i <> Some (inr r)) ->
        results out.2 = results st)) /\
  (forall tok rest key later,
     running st = true -> pool st = tok :: rest -> (1 <= fuel)%nat ->
     query_set = key :: later ->
     exists attempts,
       sent out.2 = sent st ++ mkRequest key.1 key.2 tok.1 tok.2 :: attempts) /\
  (forall tok rest skipped key later r,
     running st = true -> pool st = tok :: rest -> (1 <= fuel)%nat ->
     query_set = skipped ++ key :: later ->
     Forall (fun a => a = inl InvalidYMOBException)
            (answers remote parse_json (sent st) (requests_for tok skipped)) ->
     answer remote parse_json (sent st ++ requests_for tok skipped)
            (mkRequest key.1 key.2 tok.1 tok.2) = inr r ->
     out.1 = Returned /\
     sent out.2 = sent st ++ requests_for tok (skipped ++ [key]) /\
     results out.2 = results st ++ [r] /\
     pool out.2 = rest /\ futures out.2 = futures st /\ pending out.2 = pending st) /\
  (forall tok rest,
     running st = true -> pool st = tok :: rest -> (1 <= fuel)%nat ->
     Forall (fun a => a = inl InvalidYMOBException)
            (answers remote parse_json (sent st) (requests_for tok query_set)) ->
     out.1 = Returned /\
     sent out.2 = sent st ++ requests_for tok query_set /\
     results out.2 = results st /\
     pool out.2 = rest /\ futures out.2 = futures st /\ pending out.2 = pending st /\
     exists q_sid, last (log out.2) = Some (LogNoValidYMOB q_sid)).
Proof.
  intros out. split; [|split; [|split]].
  - destruct (task_run generator fuel query_set st) as (attempts & Hord & Hrun).
    fold out in Hrun. exists attempts.
    apply run_of_first_success in Hrun as (Hsent & Hfound & Hnone). auto.
  - intros tok rest key later Hrun Hpool Hfuel ->.
    destruct fuel as [|fuel]; [lia|]. subst out.
    rewrite (task_unfold generator _ _ st tok rest Hrun Hpool), wrapped_sent.
    apply (first_request generator fuel (key :: later) key later None tok
             (set_pool rest st)).
  - intros tok rest skipped [sid ymob] later r Hrun Hpool Hfuel -> Hskipped Hans.
    destruct fuel as [|fuel]; [lia|]. subst out.
    rewrite (task_unfold generator _ _ st tok rest Hrun Hpool).
    destruct (skip_keys generator fuel (skipped ++ (sid, ymob) :: later) tok skipped
                ((sid, ymob) :: later) None (set_pool rest st) Hskipped)
      as (st1 & q_sid & Hloop & Hs & Hr & Hf & Hp & Hpool1 & _).
    rewrite_loop Hloop. cbn [for_keys_of fst snd].
    cbn [fst snd] in Hans. change (sent st) with (sent (set_pool rest st)) in Hans.
    rewrite <- Hs in Hans.
    destruct (key_found fuel (resubmitted generator (skipped ++ (sid, ymob) :: later) later)
                sid ymob tok st1 r Hans)
      as (st2 & Hkey & Hs2 & Hr2 & Hf2 & Hp2 & Hpool2 & _).
    rewrite Hkey. cbn [wrapped fst snd].
    rewrite Hs2, Hs, Hr2, Hr, Hf2, Hf, Hp2, Hp, Hpool2, Hpool1.
    unfold requests_for. rewrite fmap_app, app_assoc. auto 10.
  - intros tok rest Hrun Hpool Hfuel Hall.
    destruct fuel as [|fuel]; [lia|]. subst out.
    rewrite (task_unfold generator _ _ st tok rest Hrun Hpool).
    destruct (skip_keys generator fuel query_set tok query_set [] None
                (set_pool rest st) Hall)
      as (st1 & q_sid & Hloop & Hs & Hr & Hf & Hp & Hpool1 & _).
    rewrite app_nil_r in Hloop. rewrite_loop Hloop.
    cbn [for_keys_of wrapped fst snd].
    split; [done|]. cbn [log_add sent results pool futures pending log].
    rewrite Hs, Hr, Hf, Hp, Hpool1. repeat (split; [done|]).
    exists q_sid. by rewrite last_snoc.
Qed.

End Tasks.

(** A remote that holds the record of one key and answers every other key
    with "invalid YMOB". *)
Definition remote_knowing (key : QueryKey) (hist : list Request) (req : Request)
  : Response :=
  if decide (req_key req = key) then Body (South.record_body key.1)
  else Body South.invalid_ymob_body.

Definition three_keys : QuerySet :=
  [("0101000001", "9801"); ("0101000001", "9802"); ("0101000001", "9803")]%string.

Lemma first_success_wins_witness :
  let out := task (remote_knowing ("0101000001", "9802")%string)
               (South._parse_json South.example_int) false 1 three_keys
               (running_with [("aaaa", "t1")%string]) in
  out.1 = Returned /\
  sent out.2 = [mkRequest "0101000001" "9801" "aaaa" "t1";
                mkRequest "0101000001" "9802" "aaaa" "t1"] /\
  results out.2 = [South.record_of "0101000001" "9802"].
Proof.
  destruct (first_success_wins (remote_knowing ("0101000001", "9802")%string)
              (South._parse_json South.example_int) false 1 three_keys
              (running_with [("aaaa", "t1")%string]))
    as (_ & _ & Hfound & _).
  destruct (Hfound ("aaaa", "t1")%string [] [("0101000001", "9801")%string]
              ("0101000001", "9802")%string [("0101000001", "9803")%string]
              (South.record_of "0101000001" "9802")
              eq_refl eq_refl (le_n 1) eq_refl
              (Forall_cons_2 _ _ _ eq_refl (Forall_nil_2 _)) eq_refl)
    as (Hout & Hsent & Hres & _).
  split; [exact Hout|]. split; [exact Hsent|exact Hres].
Defined.

End Task.

(** ** Resubmission with the query sets of [DefaultBruteForceQuerySupplier] *)

Module Resubmission.
Import PyExc Fetch Generator.

(** A remote whose first call fails in transport; afterwards it holds the
    record of one key and answers every other key with "invalid YMOB". *)
Definition remote_failing_first (key : QueryKey) (hist : list Request) (req : Request)
  : Response :=
  match hist with
  | [] => TransportFailure
  | _ => Task.remote_knowing key hist req
  end.

Definition two_tokens : list Token := [("aaaa", "t1"); ("bbbb", "t2")]%string.

(** C7, at a failing input.  [SouthDataService(1, DefaultBruteForceQuerySupplier(1, 2))]
    is started with two captcha results at hand; the student with SID
    0000000001 was born in 9903, the first YMOB of [ymob_list], and the
    first remote call fails in transport.  The task resubmits the generator
    it is iterating over, so the second task starts at the second YMOB: it
    asks for the 59 other YMOBs, logs 'No valid YMOB' and ends; the YMOB
    whose request failed is never asked for again and no record is
    appended.  With the same keys in a tuple the second task starts from
    the first key again and appends the record. *)
Theorem generator_resubmission_skips_failed_key :
  let remote := remote_failing_first ("0000000001", "9903")%string in
  let parse_json := South._parse_json South.example_int in
  let st0 := start (BruteForce.get_query_sets 1 2) (stopped_with two_tokens) in
  let gen := run_tasks_generator remote parse_json 5 1 st0 in
  let tup := run_tasks remote parse_json 5 1 st0 in
  (gen.1 = [Returned; Returned] /\
   results gen.2 = [] /\
   pending gen.2 = [] /\
   futures gen.2 = [BruteForce._get_query_set_for "0000000001";
                    drop 1 (BruteForce._get_query_set_for "0000000001")] /\
   req_ymob <$> sent gen.2 = BruteForce.ymob_list /\
   last (log gen.2) = Some (LogNoValidYMOB (Some "0000000001"%string))) /\
  (tup.1 = [Returned; Returned] /\
   results tup.2 = [South.record_of "0000000001" "9903"] /\
   pending tup.2 = [] /\
   req_ymob <$> sent tup.2 = ["9903"; "9903"]%string).
Proof. vm_compute. repeat split; reflexivity. Qed.

End Resubmission.

(** ** [AbstractDataService.wait] *)

Module Waiting.
Import PyExc Fetch.

(** The futures of [self._futures] that are done.  The executor has one
    worker thread, which runs the tasks oldest first: the futures that are
    not done are those of the tasks still in its queue. *)
Definition done_futures (st : State) : nat :=
  length (futures st) - length (pending st).

Section Wait.

Variable remote : list Request -> Request -> Response.
Variable parse_json : json -> string -> list LogRecord * (exc_class + ResultMap).

(** Whether the query sets are generator objects or tuples. *)
Variable generator : bool.

(** [concurrent.futures.wait] belongs to the standard library.  As
    documented it waits for the futures the sequence holds when it is
    called (it begins with [fs = set(fs)]) and raises nothing when the list
    it was handed grows meanwhile: [raises_on_growth = false].  The [except]
    clause of [wait()] is written for a library that raises [ValueError] in
    that case: [raises_on_growth = true]. *)
Variable raises_on_growth : bool.

(** [concurrent.futures.wait(self._futures)] while the worker thread runs
    the queue: the call returns as soon as the [k] futures it was called
    with are done; [n] bounds the tasks run meanwhile.  A task that blocks
    keeps its future from being done, and the call from returning. *)
Fixpoint futures_wait (n fuel k : nat) (st : State) : Outcome * State :=
  if (k <=? done_futures st)%nat then (Returned, st)
  else match n with
       | O => (OutOfFuel, st)
       | S n' =>
           match pending st with
           | [] => (Blocked, st)
           | query_set :: rest =>
               match Task.task remote parse_json generator fuel query_set
                       (set_pending rest st) with
               | (Blocked, st1) => (Blocked, st1)
               | (OutOfFuel, st1) => (OutOfFuel, st1)
               | (_, st1) => futures_wait n' fuel k st1
               end
           end
       end.

(** [while not done: try: concurrent.futures.wait(self._futures) ...];
    [rounds] bounds the turns of the loop. *)
Fixpoint wait_loop (rounds n fuel : nat) (st : State) : Outcome * State :=
  match rounds with
  | O => (OutOfFuel, st)
  | S rounds' =>
      let k := length (futures st) in
      match futures_wait n fuel k st with
      | (Returned, st1) =>
          if raises_on_growth && (k <? length (futures st1))%nat
          then wait_loop rounds' n fuel (log_add LogWaitValueError st1)
          else (Returned, st1)
      | (o, st1) => (o, st1)
      end
  end.

(** [AbstractDataService.wait()]. *)
Definition wait (rounds n fuel : nat) (st : State) : Outcome * State :=
  match wait_loop rounds n fuel (log_add LogWaitCalled st) with
  | (Returned, st1) => (Returned, log_add LogWaitingEnded st1)
  | (o, st1) => (o, st1)
  end.

End Wait.

(** The query set [LocalQuerySupplier] extracts from a table with one
    row. *)
Definition one_key : QuerySet := [("0101000001", "9801")%string].

(** C9, at a failing input.  A service with one worker is started on the
    one query set of a [LocalQuerySupplier]; the first remote call fails in
    transport, so the task resubmits the query set, and every later call
    is answered with the record.  [wait()] is called right after
    [start()].  The library call waits for the one future the list held and
    raises nothing, so [wait()] returns after the first task: the
    resubmitted task is still in the queue, its future is not done and the
    result list is empty.  Run afterwards, that task appends the record.
    Had the library raised [ValueError] for the grown list, the loop would
    have waited a second time and returned with the record. *)
Theorem wait_returns_before_resubmitted_task :
  let remote := Resubmission.remote_failing_first ("0101000001", "9801")%string in
  let parse_json := South._parse_json South.example_int in
  let st0 := start [one_key] (stopped_with Resubmission.two_tokens) in
  let out := wait remote parse_json false false 3 3 1 st0 in
  let later := run_tasks remote parse_json 3 1 out.2 in
  let out' := wait remote parse_json false true 3 3 1 st0 in
  (out.1 = Returned /\
   pending out.2 = [one_key] /\
   futures out.2 = [one_key; one_key] /\
   done_futures out.2 = 1%nat /\
   results out.2 = [] /\
   last (log out.2) = Some LogWaitingEnded) /\
  (later.1 = [Returned] /\
   results later.2 = [South.record_of "0101000001" "9801"]) /\
  (out'.1 = Returned /\
   pending out'.2 = [] /\
   results out'.2 = [South.record_of "0101000001" "9801"]).
Proof. vm_compute. repeat split; reflexivity. Qed.

End Waiting.
